(** * Hype bot: window, detector, filter, throttle, limiter, sentiment window

    A shallow embedding of the chat bot's engine (the variants kept in
    [app.js], in the later revisions of it, and in the sentiment-tracking
    revision) together with the properties its specification states.

    Conventions.
    - A JavaScript string is a [string]: a sequence of code units, here the
      one-byte ones (chat logins, commands, URLs and the markers the code
      looks for are ASCII).
    - Numbers that the code only counts with are [nat]; timestamps
      ([Date.now()], milliseconds) are [Z].
    - [messageQueues] is a [gmap] from channel name to the channel's array.
    - Calls that leave the process (the throttled hype call, the statistics
      writes, the limiter's executions) are appended to logs carried in the
      state, oldest first. *)

From Stdlib Require Import String Ascii List ZArith Lia Bool.
From stdpp Require Import gmap strings list fin_maps.
From Stdlib Require Import DecimalString Sorted.

Local Open Scope string_scope.

(** ** JavaScript string primitives used by the bot *)

Module JS.

(** [String.prototype.toLowerCase], on the ASCII letters. *)
Definition toLowerCase_unit (c : ascii) : ascii :=
  let n := nat_of_ascii c in
  if (65 <=? n)%nat && (n <=? 90)%nat then ascii_of_nat (n + 32) else c.

Fixpoint toLowerCase (s : string) : string :=
  match s with
  | EmptyString => EmptyString
  | String c t => String (toLowerCase_unit c) (toLowerCase t)
  end.

(** [s.charAt(i)]: the one-unit string at [i], or the empty string. *)
Definition charAt (s : string) (i : nat) : string :=
  match String.get i s with
  | Some c => String c EmptyString
  | None => EmptyString
  end.

(** [s.substring(a, b)]: both indices are clamped to the length and
    swapped when [a > b]. *)
Definition substring (s : string) (a b : nat) : string :=
  let len := String.length s in
  let a' := Nat.min a len in
  let b' := Nat.min b len in
  let from := Nat.min a' b' in
  let to := Nat.max a' b' in
  String.substring from (to - from) s.

(** [hay.includes(needle)]. *)
Fixpoint includes (hay needle : string) : bool :=
  String.prefix needle hay ||
  match hay with
  | EmptyString => false
  | String _ t => includes t needle
  end.

(** [s.replace(c, '')] with a one-unit string pattern: the first
    occurrence only. *)
Fixpoint remove_first (c : ascii) (s : string) : string :=
  match s with
  | EmptyString => EmptyString
  | String d t => if Ascii.eqb c d then t else String d (remove_first c t)
  end.

(** Truthiness of a string value: every string but the empty one. *)
Definition truthy (s : string) : bool := negb (String.eqb s EmptyString).

(** The value of a string literal, from its text between the quotes: a
    backslash and the unit after it stand for one unit, a control unit
    for [\n], [\r] and [\t] and the unit itself otherwise (the escapes
    with digits, [x] and [u] do not occur in the bot). *)
Fixpoint string_literal (text : string) : string :=
  match text with
  | EmptyString => EmptyString
  | String c rest =>
      if Ascii.eqb c "\" then
        match rest with
        | EmptyString => EmptyString
        | String d rest' =>
            String (if Ascii.eqb d "n" then "010"
                    else if Ascii.eqb d "r" then "013"
                    else if Ascii.eqb d "t" then "009"
                    else d)%char
                   (string_literal rest')
        end
      else String c (string_literal rest)
  end.

(** [arr.includes(x)] on an array of strings. *)
Definition array_includes (arr : list string) (x : string) : bool :=
  existsb (String.eqb x) arr.

End JS.

(** ** Regular expressions: what [RegExp.prototype.test] decides

    The bot's one pattern uses literals, classes, grouping, alternation,
    [*] and [+], no anchors, no back-references and no flags, so [test]
    is membership of some substring in the pattern's language, and it
    keeps no state between calls ([lastIndex] is only used under the
    [g] and [y] flags). *)

Module Regex.

(** A member of a bracketed class. *)
Inductive item :=
| Unit (c : ascii)        (* a literal code unit *)
| Word.                   (* \w : [A-Za-z0-9_] *)

Inductive regex :=
| Void
| Eps
| Dot                     (* . : any unit but a line terminator *)
| Class (items : list item)
| Seq (r1 r2 : regex)
| Alt (r1 r2 : regex)
| Star (r : regex).

Definition Plus (r : regex) : regex := Seq r (Star r).

(** The units of [s] one after the other, then [r]. *)
Fixpoint LitThen (s : string) (r : regex) : regex :=
  match s with
  | EmptyString => r
  | String c t => Seq (Class [Unit c]) (LitThen t r)
  end.

Definition Lit (s : string) : regex := LitThen s Eps.

Definition is_word (c : ascii) : bool :=
  let n := nat_of_ascii c in
  ((48 <=? n)%nat && (n <=? 57)%nat) ||
  ((65 <=? n)%nat && (n <=? 90)%nat) ||
  ((97 <=? n)%nat && (n <=? 122)%nat) ||
  (n =? 95)%nat.

Definition is_line_terminator (c : ascii) : bool :=
  let n := nat_of_ascii c in (n =? 10)%nat || (n =? 13)%nat.

Definition item_mem (c : ascii) (i : item) : bool :=
  match i with
  | Unit d => Ascii.eqb c d
  | Word => is_word c
  end.

Definition class_mem (c : ascii) (items : list item) : bool :=
  existsb (item_mem c) items.

(** The language of a pattern. *)
Inductive lang : regex -> string -> Prop :=
| L_Eps : lang Eps EmptyString
| L_Dot c : is_line_terminator c = false -> lang Dot (String c EmptyString)
| L_Class items c :
    class_mem c items = true -> lang (Class items) (String c EmptyString)
| L_Seq r1 r2 s1 s2 : lang r1 s1 -> lang r2 s2 -> lang (Seq r1 r2) (s1 ++ s2)
| L_AltL r1 r2 s : lang r1 s -> lang (Alt r1 r2) s
| L_AltR r1 r2 s : lang r2 s -> lang (Alt r1 r2) s
| L_StarNil r : lang (Star r) EmptyString
| L_StarCons r s1 s2 :
    lang r s1 -> lang (Star r) s2 -> lang (Star r) (s1 ++ s2).

(** Matching by derivatives. *)
Fixpoint nullable (r : regex) : bool :=
  match r with
  | Void => false
  | Eps => true
  | Dot => false
  | Class _ => false
  | Seq r1 r2 => nullable r1 && nullable r2
  | Alt r1 r2 => nullable r1 || nullable r2
  | Star _ => true
  end.

Definition seq (r1 r2 : regex) : regex :=
  match r1, r2 with
  | Void, _ => Void
  | _, Void => Void
  | Eps, _ => r2
  | _, _ => Seq r1 r2
  end.

Definition alt (r1 r2 : regex) : regex :=
  match r1, r2 with
  | Void, _ => r2
  | _, Void => r1
  | _, _ => Alt r1 r2
  end.

Fixpoint deriv (c : ascii) (r : regex) : regex :=
  match r with
  | Void => Void
  | Eps => Void
  | Dot => if is_line_terminator c then Void else Eps
  | Class items => if class_mem c items then Eps else Void
  | Seq r1 r2 =>
      if nullable r1 then alt (seq (deriv c r1) r2) (deriv c r2)
      else seq (deriv c r1) r2
  | Alt r1 r2 => alt (deriv c r1) (deriv c r2)
  | Star r1 => seq (deriv c r1) (Star r1)
  end.

(** Does the whole of [s] belong to the pattern? *)
Fixpoint matches (r : regex) (s : string) : bool :=
  match s with
  | EmptyString => nullable r
  | String c t => matches (deriv c r) t
  end.

(** Does some prefix of [s] belong to the pattern? *)
Fixpoint matches_prefix (r : regex) (s : string) : bool :=
  nullable r ||
  match s with
  | EmptyString => false
  | String c t => matches_prefix (deriv c r) t
  end.

(** [re.test(s)]: try every start position, left to right. *)
Fixpoint test (r : regex) (s : string) : bool :=
  matches_prefix r s ||
  match s with
  | EmptyString => false
  | String _ t => test r t
  end.

(** *** Reading a pattern

    [new RegExp(pattern)] for the part of the pattern syntax the bot
    uses: alternatives, sequences, groups (capturing or not, which
    [test] does not tell apart), bracketed classes without ranges, the
    dot, [\w], escaped punctuation, [*] and [+]. A sequence is read as
    [Seq] nested to the right and closed by [Eps]. *)

(** An escape [\c]: the class [\w], or a punctuation unit standing for
    itself; the other letter and digit escapes are not read. *)
Definition escaped (c : ascii) : option item :=
  if Ascii.eqb c "w" then Some Word
  else if is_word c then None
  else Some (Unit c).

(** The members of a class, up to its closing bracket. A dash stands
    for itself right before the bracket; ranges are not read. *)
Fixpoint parse_class (s : string) : option (list item * string) :=
  match s with
  | EmptyString => None
  | String c rest =>
      if Ascii.eqb c "]" then Some ([], rest)
      else if Ascii.eqb c "\" then
        match rest with
        | EmptyString => None
        | String d rest' =>
            match escaped d, parse_class rest' with
            | Some i, Some (items, rest'') => Some (i :: items, rest'')
            | _, _ => None
            end
        end
      else if Ascii.eqb c "-" && negb (String.prefix "]" rest) then None
      else
        match parse_class rest with
        | Some (items, rest') => Some (Unit c :: items, rest')
        | None => None
        end
  end.

Definition syntax_character (c : ascii) : bool :=
  existsb (Ascii.eqb c) ["^"; "$"; "*"; "+"; "?"; "{"; "}"; "]"; "|"; ")"]%char.

Fixpoint parse_disjunction (fuel : nat) (s : string) : option (regex * string) :=
  match fuel with
  | O => None
  | S fuel =>
      match parse_alternative fuel s with
      | Some (r1, String c rest) =>
          if Ascii.eqb c "|" then
            match parse_disjunction fuel rest with
            | Some (r2, rest') => Some (Alt r1 r2, rest')
            | None => None
            end
          else Some (r1, String c rest)
      | other => other
      end
  end
with parse_alternative (fuel : nat) (s : string) : option (regex * string) :=
  match fuel with
  | O => None
  | S fuel =>
      match s with
      | EmptyString => Some (Eps, s)
      | String c _ =>
          if Ascii.eqb c "|" || Ascii.eqb c ")" then Some (Eps, s)
          else
            match parse_term fuel s with
            | Some (r1, rest) =>
                match parse_alternative fuel rest with
                | Some (r2, rest') => Some (Seq r1 r2, rest')
                | None => None
                end
            | None => None
            end
      end
  end
with parse_term (fuel : nat) (s : string) : option (regex * string) :=
  match fuel with
  | O => None
  | S fuel =>
      match parse_atom fuel s with
      | Some (r, String c rest) =>
          if Ascii.eqb c "*" then Some (Star r, rest)
          else if Ascii.eqb c "+" then Some (Plus r, rest)
          else if Ascii.eqb c "?" || Ascii.eqb c "{" then None
          else Some (r, String c rest)
      | other => other
      end
  end
with parse_atom (fuel : nat) (s : string) : option (regex * string) :=
  match fuel with
  | O => None
  | S fuel =>
      match s with
      | EmptyString => None
      | String c rest =>
          if Ascii.eqb c "." then Some (Dot, rest)
          else if Ascii.eqb c "\" then
            match rest with
            | EmptyString => None
            | String d rest' =>
                match escaped d with
                | Some i => Some (Class [i], rest')
                | None => None
                end
            end
          else if Ascii.eqb c "[" then
            if String.prefix "^" rest then None
            else
              match parse_class rest with
              | Some (items, rest') => Some (Class items, rest')
              | None => None
              end
          else if Ascii.eqb c "(" then
            let body :=
              if String.prefix "?:" rest
              then Some (String.substring 2 (String.length rest - 2) rest)
              else if String.prefix "?" rest then None
              else Some rest in
            match body with
            | Some body =>
                match parse_disjunction fuel body with
                | Some (r, String e rest') =>
                    if Ascii.eqb e ")" then Some (r, rest') else None
                | _ => None
                end
            | None => None
            end
          else if syntax_character c then None
          else Some (Class [Unit c], rest)
      end
  end.

(** The whole pattern; [None] when it is outside the part read here. *)
Definition compile (pattern : string) : option regex :=
  match parse_disjunction (4 * String.length pattern + 4) pattern with
  | Some (r, EmptyString) => Some r
  | _ => None
  end.

(** [new RegExp(pattern)]. Both patterns of the bot are read
    ([REGEX_CONTAINS_URI_read] and [REGEX_CONTAINS_URI_mongo_read]
    below); a pattern that is not read matches nothing. *)
Definition RegExp (pattern : string) : regex :=
  match compile pattern with
  | Some r => r
  | None => Void
  end.

End Regex.

(** ** The message filter and the URL patterns *)

Module Filter.
Import Regex.

(** The text of the literal given to [new RegExp] by the revision with
    the SQLite statistics, as it stands between the quotes in the
    source: the backslashes are single. *)
Definition REGEX_CONTAINS_URI_text : string :=
  "(http|ftp|https):\/\/([\w_-]+(?:.[w_-]+)+)([\w.,@?^=%&:\/~+#-]*[\w@?^=%&\/~+#-])".

Definition REGEX_CONTAINS_URI : regex :=
  RegExp (JS.string_literal REGEX_CONTAINS_URI_text).

(** The text of the literal in the revisions with the MongoDB
    statistics: the backslashes are doubled. *)
Definition REGEX_CONTAINS_URI_mongo_text : string :=
  "(http|ftp|https):\\/\\/([\\w_-]+(?:\\.[\\w_-]+)+)([\\w.,@?^=%&:/~+#-]*[\\w@?^=%&/~+#-])".

Definition REGEX_CONTAINS_URI_mongo : regex :=
  RegExp (JS.string_literal REGEX_CONTAINS_URI_mongo_text).

(** What the two patterns come to. Both have the shape
    scheme, [://], host, rest; they differ in the word class [w] (the
    letter [w] alone, or [\w]) and in the separator [dot] of the host's
    labels (any unit, or the full stop). *)
Definition scheme : regex := Alt (Lit "http") (Alt (Lit "ftp") (Lit "https")).

Definition host_label (w : item) : regex := Plus (Class [w; Unit "_"; Unit "-"]%char).

Definition uri_shape (w : item) (dot : regex) : regex :=
  Seq scheme
    (LitThen "://"
      (Seq (Seq (host_label w)
                (Seq (Plus (Seq dot (Seq (host_label w) Eps))) Eps))
        (Seq (Seq (Star (Class [w; Unit "."; Unit ","; Unit "@"; Unit "?";
                                Unit "^"; Unit "="; Unit "%"; Unit "&"; Unit ":";
                                Unit "/"; Unit "~"; Unit "+"; Unit "#"; Unit "-"]%char))
                  (Seq (Class [w; Unit "@"; Unit "?"; Unit "^"; Unit "=";
                               Unit "%"; Unit "&"; Unit "/"; Unit "~"; Unit "+";
                               Unit "#"; Unit "-"]%char)
                       Eps))
             Eps))).

Definition HYPE_USER_IGNORE_LIST : list string := ["nightbot"].

(** [filterEnqueueMessage] with the ignore list and a URL pattern
    ([true]: the message is filtered out). *)
Definition filterEnqueueMessage_with (uri : regex)
    (channel username message : string) (isModerator : bool) : bool :=
  if isModerator || JS.array_includes HYPE_USER_IGNORE_LIST (JS.toLowerCase username)
  then true
  else if String.eqb (JS.charAt message 0) "!" then true
  else if Regex.test uri message then true
  else false.

Definition filterEnqueueMessage := filterEnqueueMessage_with REGEX_CONTAINS_URI.

Definition filterEnqueueMessage_mongo :=
  filterEnqueueMessage_with REGEX_CONTAINS_URI_mongo.

(** The first revision with a filter: moderators and commands only. *)
Definition filterEnqueueMessage_early
    (channel username message : string) (isModerator : bool) : bool :=
  if isModerator then true
  else if String.eqb (JS.charAt message 0) "!" then true
  else false.

(** [app.js] has no filter: every message goes on. *)
Definition no_filter (channel username message : string) (isModerator : bool) : bool :=
  false.

End Filter.

(** ** Channel windows and the hype detector *)

Module Bot.
Local Open Scope list_scope.

Record Config := mkConfig {
  HYPE_MIN_MSG_LEN : nat;
  HYPE_MAX_MSG_LEN : nat;
  HYPE_MAX_QUEUE_LEN : nat;
  HYPE_THRESHOLD : nat;
  filterEnqueueMessage : string -> string -> string -> bool -> bool;
  recordsStats : bool
}.

(** [app.js] *)
Definition cfg_app_js : Config :=
  mkConfig 1 200 7 2 Filter.no_filter false.

(** The SQLite revision with the ignore list, the URL pattern, the
    emotes and the periodic disposal of the queues. *)
Definition cfg_sqlite : Config :=
  mkConfig 1 200 8 3 Filter.filterEnqueueMessage true.

(** The first SQLite revision. *)
Definition cfg_sqlite_early : Config :=
  mkConfig 1 200 7 2 Filter.filterEnqueueMessage_early true.

(** The MongoDB revisions. *)
Definition cfg_mongo : Config :=
  mkConfig 1 256 10 5 Filter.filterEnqueueMessage_mongo true.

Record state := mkState {
  messageQueues : gmap string (list string);
  (* the calls of the throttled hype function, (channel, message) *)
  hypeCalls : list (string * string);
  (* the calls of recordUserChatStats that enqueueChatMessage makes itself,
     (channel, username); the call sendHypeMessage makes for the bot's own
     name is made behind the throttle and is logged where the throttle is,
     in System.sendHypeMessage *)
  statsCalls : list (string * string)
}.

Definition initial : state := mkState ∅ [] [].

(** *** [messageCounts], a plain object used as a table

    [messageCounts] starts as [{}]: it has no property of its own and
    inherits those of [Object.prototype]. A read of an absent key gives
    [undefined] or an inherited function, never an integer, and a write
    creates the key. The one exception is the key [__proto__], an
    accessor of [Object.prototype]: reading it gives the prototype
    object, and writing a number (or a string) to it is ignored, so
    that key never holds a count. [counts_read] is the value as
    [Number.isInteger] and [>=] see it: [Some n] for the integer [n],
    [None] for anything that is not a number. *)
Definition proto_key : string := "__proto__".

Definition counts_read (messageCounts : gmap string nat) (key : string) : option nat :=
  if String.eqb key proto_key then None else messageCounts !! key.

Definition counts_write (messageCounts : gmap string nat) (key : string) (v : nat)
    : gmap string nat :=
  if String.eqb key proto_key then messageCounts else <[key := v]> messageCounts.

(** The loop of [detectHype]: the message that stops the scan, if any. *)
Fixpoint scan (threshold : nat) (messageCounts : gmap string nat)
    (queue : list string) : option string :=
  match queue with
  | [] => None
  | message :: rest =>
      (* if (!Number.isInteger(messageCounts[message])) messageCounts[message] = 0 *)
      let mc1 := match counts_read messageCounts message with
                 | Some _ => messageCounts
                 | None => counts_write messageCounts message 0
                 end in
      (* messageCounts[message] += 1 *)
      let mc2 := match counts_read mc1 message with
                 | Some n => counts_write mc1 message (n + 1)
                 | None => mc1
                 end in
      (* if (messageCounts[message] >= HYPE_THRESHOLD) *)
      match counts_read mc2 message with
      | Some n => if (threshold <=? n)%nat then Some message
                  else scan threshold mc2 rest
      | None => scan threshold mc2 rest
      end
  end.

(** The count the table holds for a message, 0 when it holds none. *)
Definition tally (messageCounts : gmap string nat) (message : string) : nat :=
  default 0 (messageCounts !! message).

(** The number of times a message occurs in a list. *)
Abbreviation occurrences := (count_occ String.string_dec).

Section Engine.
Variable cfg : Config.

(** [detectHype(channel)]. It is only called once the channel's queue
    exists; on a missing queue the loop would raise, and the state is
    left as it is. *)
Definition detectHype (channel : string) (st : state) : state :=
  match messageQueues st !! channel with
  | None => st
  | Some queue =>
      match scan (HYPE_THRESHOLD cfg) ∅ queue with
      | Some message =>
          mkState (<[channel := []]> (messageQueues st))
                  (hypeCalls st ++ [(channel, message)])
                  (statsCalls st)
      | None => st
      end
  end.

(** [message = emote ? emote : message] *)
Definition effective_message (message : string) (emote : option string) : string :=
  match emote with
  | Some e => if JS.truthy e then e else message
  | None => message
  end.

Definition in_length_bounds (message : string) : bool :=
  (HYPE_MIN_MSG_LEN cfg <=? String.length message)%nat &&
  (String.length message <=? HYPE_MAX_MSG_LEN cfg)%nat.

(** [enqueueChatMessage] below the filter. *)
Definition enqueue_unfiltered (channel username message : string) (st : state)
    : state :=
  (* recordUserChatStats(channel, username) *)
  let stats := if recordsStats cfg then statsCalls st ++ [(channel, username)]
               else statsCalls st in
  (* if (!Array.isArray(messageQueues[channel])) messageQueues[channel] = [] *)
  let queue := default [] (messageQueues st !! channel) in
  (* if (messageQueues[channel].length >= HYPE_MAX_QUEUE_LEN) messageQueues[channel].shift() *)
  let queue := if (HYPE_MAX_QUEUE_LEN cfg <=? length queue)%nat then tail queue
               else queue in
  if in_length_bounds message then
    (* messageQueues[channel].push(message); detectHype(channel) *)
    detectHype channel
      (mkState (<[channel := queue ++ [message]]> (messageQueues st))
               (hypeCalls st) stats)
  else
    mkState (<[channel := queue]> (messageQueues st)) (hypeCalls st) stats.

Definition enqueueChatMessage (channel username message : string)
    (isModerator : bool) (emote : option string) (st : state) : state :=
  let message := effective_message message emote in
  if filterEnqueueMessage cfg channel username message isModerator then st
  else enqueue_unfiltered channel username message st.

(** The callback of [startDequeueDisposalProcess]: all queues go. *)
Definition dequeueDisposal (st : state) : state :=
  mkState ∅ (hypeCalls st) (statsCalls st).

(** A chat event as the transport delivers it; an emote is its
    [start] and [end] indices into the message. *)
Record PRIVMSG := mkPRIVMSG {
  msg_channel : string;
  msg_username : string;
  msg_message : string;
  msg_isModerator : bool;
  msg_emotes : list (nat * nat)
}.

(** The [PRIVMSG] listener of the revisions with emotes. The console
    output of [handleMyMessage] and [handleOtherMessage] is left out. *)
Definition on_PRIVMSG (msg : PRIVMSG) (st : state) : state :=
  let emote :=
    match msg_emotes msg with
    | (start, end_) :: _ => Some (JS.substring (msg_message msg) start (end_ + 1))
    | [] => None
    end in
  let channel := JS.remove_first "#" (msg_channel msg) in
  enqueueChatMessage channel (msg_username msg) (msg_message msg)
    (msg_isModerator msg) emote st.

(** What can happen to the windows: a chat message or the disposal timer. *)
Inductive event :=
| Chat (channel username message : string) (isModerator : bool)
       (emote : option string)
| Disposal.

Definition step (st : state) (e : event) : state :=
  match e with
  | Chat channel username message isModerator emote =>
      enqueueChatMessage channel username message isModerator emote st
  | Disposal => dequeueDisposal st
  end.

Definition run (events : list event) (st : state) : state :=
  fold_left step events st.

(** The same message sent by the users of [senders], in that order. *)
Definition send_copies (channel message : string) (senders : list string)
    (st : state) : state :=
  fold_left (fun st username =>
               enqueueChatMessage channel username message false None st)
            senders st.

(** The posts [(username, message)], sent to one channel in that order. *)
Definition send_posts (channel : string) (posts : list (string * string))
    (st : state) : state :=
  fold_left (fun st post =>
               enqueueChatMessage channel (fst post) (snd post) false None st)
            posts st.

Definition window (channel : string) (st : state) : list string :=
  default [] (messageQueues st !! channel).

(** *** One channel at a time

    What [enqueue_unfiltered] does to the array of the channel it is
    called for, as functions of that array; [enqueue_unfiltered_queues]
    and [enqueue_unfiltered_hype] below relate them to the code. *)
Definition evict (queue : list string) : list string :=
  if (HYPE_MAX_QUEUE_LEN cfg <=? length queue)%nat then tail queue else queue.

Definition hype_after (message : string) (queue : list string) : option string :=
  if in_length_bounds message
  then scan (HYPE_THRESHOLD cfg) ∅ (evict queue ++ [message])
  else None.

Definition window_after (message : string) (queue : list string) : list string :=
  if in_length_bounds message then
    match hype_after message queue with
    | Some _ => []
    | None => evict queue ++ [message]
    end
  else evict queue.

End Engine.

End Bot.

(** ** The throttle around the hype call

    [_.throttle(sendHypeMessage, HYPE_THROTTLE, {'trailing': false})] is
    lodash's [debounce(func, wait, {leading: true, maxWait: wait,
    trailing: false})]. The state below is the closure of [debounce]
    ([lastArgs], [lastCallTime], [lastInvokeTime], [timerId]); the log
    [invoked] keeps every call of [func] with the time it was made at. *)

Module Throttle.
Local Open Scope Z_scope.
Local Open Scope list_scope.

Section Throttled.
Variable A : Type.          (* the arguments of the throttled function *)
Variable wait : Z.

Definition leading : bool := true.
Definition trailing : bool := false.
Definition maxWait : Z := Z.max wait wait.

Record state := mkState {
  lastArgs : option A;
  lastCallTime : option Z;
  lastInvokeTime : Z;
  timerId : option Z;              (* the pending timer, by its due time *)
  invoked : list (Z * A)
}.

Definition initial : state := mkState None None 0 None [].

(** [invokeFunc]: the function is called with the arguments the last
    call left, which are then forgotten. It is only reached right after
    a call has stored its arguments. *)
Definition invokeFunc (time : Z) (st : state) : state :=
  match lastArgs st with
  | Some args =>
      mkState None (lastCallTime st) time (timerId st) (invoked st ++ [(time, args)])
  | None => mkState None (lastCallTime st) time (timerId st) (invoked st)
  end.

(** [shouldInvoke]: the first call, or [wait] has passed since the last
    call, or the clock went back, or [maxWait] has passed since the
    function last ran. *)
Definition shouldInvoke (time : Z) (st : state) : bool :=
  match lastCallTime st with
  | None => true
  | Some lastCall =>
      (wait <=? time - lastCall) || (time - lastCall <? 0) ||
      (maxWait <=? time - lastInvokeTime st)
  end.

Definition remainingWait (time : Z) (st : state) : Z :=
  let timeWaiting := wait - (time - default 0 (lastCallTime st)) in
  Z.min timeWaiting (maxWait - (time - lastInvokeTime st)).

Definition leadingEdge (time : Z) (st : state) : state :=
  let st := mkState (lastArgs st) (lastCallTime st) time (Some (time + wait))
                    (invoked st) in
  if leading then invokeFunc time st else st.

Definition trailingEdge (time : Z) (st : state) : state :=
  let st := mkState (lastArgs st) (lastCallTime st) (lastInvokeTime st) None
                    (invoked st) in
  if trailing && bool_decide (is_Some (lastArgs st)) then invokeFunc time st
  else mkState None (lastCallTime st) (lastInvokeTime st) None (invoked st).

(** The timer's callback, run at [time]. *)
Definition timerExpired (time : Z) (st : state) : state :=
  if shouldInvoke time st then trailingEdge time st
  else mkState (lastArgs st) (lastCallTime st) (lastInvokeTime st)
               (Some (time + remainingWait time st)) (invoked st).

(** A call of the throttled function at [time] with [args]. *)
Definition debounced (time : Z) (args : A) (st : state) : state :=
  let isInvoking := shouldInvoke time st in
  let st := mkState (Some args) (Some time) (lastInvokeTime st) (timerId st)
                    (invoked st) in
  if isInvoking then
    match timerId st with
    | None => leadingEdge time st
    | Some _ =>
        (* maxing: the timer is restarted and the function invoked *)
        invokeFunc time
          (mkState (lastArgs st) (lastCallTime st) (lastInvokeTime st)
                   (Some (time + wait)) (invoked st))
    end
  else
    match timerId st with
    | None => mkState (lastArgs st) (lastCallTime st) (lastInvokeTime st)
                      (Some (time + wait)) (invoked st)
    | Some _ => st
    end.

Inductive event :=
| Call (time : Z) (args : A)
| Timer (time : Z).            (* the pending timer fires *)

Definition time_of (e : event) : Z :=
  match e with Call t _ => t | Timer t => t end.

Definition is_timer (e : event) : bool :=
  match e with Call _ _ => false | Timer _ => true end.

Definition step (st : state) (e : event) : state :=
  match e with
  | Call time args => debounced time args st
  | Timer time =>
      match timerId st with
      | Some _ => timerExpired time st
      | None => st
      end
  end.

Definition run (events : list event) (st : state) : state :=
  fold_left step events st.

(** The clock does not run backwards between the events of a list. *)
Fixpoint in_time_order (last : Z) (events : list event) : Prop :=
  match events with
  | [] => True
  | e :: rest => last <= time_of e /\ in_time_order (time_of e) rest
  end.

End Throttled.

Arguments lastArgs {A}.
Arguments lastCallTime {A}.
Arguments lastInvokeTime {A}.
Arguments timerId {A}.
Arguments invoked {A}.
Arguments initial {A}.
Arguments Call {A}.
Arguments Timer {A}.
Arguments time_of {A}.
Arguments is_timer {A}.
Arguments step {A}.
Arguments run {A}.
Arguments in_time_order {A}.
Arguments debounced {A}.
Arguments timerExpired {A}.
Arguments shouldInvoke {A}.
End Throttle.

(** ** The limiter that paces [chat.say]

    A bound call of the limiter may return or raise an exception:
    [throws] says which. [caller] has no [try]: when the call raises,
    the exception leaves [caller] before [setTimeout] is reached, with
    [isCalled] already set and the call already shifted off the queue.
    What the exception does to the rest of the program is outside the
    limiter. *)

Module Limiter.
Local Open Scope Z_scope.
Local Open Scope list_scope.

(** The longest delay [setTimeout] takes as it is. *)
Definition TIMEOUT_MAX : Z := 2147483647.

(** The delay [setTimeout] uses for a whole number [delay]: 1 when
    [delay] is below 1 or above [TIMEOUT_MAX]. *)
Definition setTimeout_delay (delay : Z) : Z :=
  if (delay <? 1) || (TIMEOUT_MAX <? delay) then 1 else delay.

(** Consecutive times are at least [wait] apart. *)
Fixpoint spaced (wait : Z) (times : list Z) : Prop :=
  match times with
  | t1 :: ((t2 :: _) as rest) => t1 + wait <= t2 /\ spaced wait rest
  | _ => True
  end.

Section Limited.
Variable A : Type.          (* a bound call, [fn.bind(this, ...arguments)] *)
Variable throws : A -> bool.          (* does the call raise an exception? *)
Variable wait : Z.

Record state := mkState {
  isCalled : bool;
  calls : list A;
  timers : list Z;                 (* pending [setTimeout]s, by due time *)
  executed : list (Z * A);         (* the calls made, with their time *)
  clock : Z                        (* the time of the last event *)
}.

Definition initial (start : Z) : state := mkState false [] [] [] start.

(** [caller()], run at [now]. *)
Definition caller (now : Z) (st : state) : state :=
  match calls st with
  | call :: rest =>
      if negb (isCalled st) then
        (* isCalled = true; calls.shift().call() *)
        if throws call then
          mkState true rest (timers st) (executed st ++ [(now, call)]) (clock st)
        else
          (* setTimeout(function () { isCalled = false; caller() }, wait) *)
          mkState true rest (timers st ++ [now + setTimeout_delay wait])
                  (executed st ++ [(now, call)]) (clock st)
      else st
  | [] => st
  end.

(** The function [limiter] returns, called at [now]. *)
Definition enqueue (now : Z) (call : A) (st : state) : state :=
  caller now
    (mkState (isCalled st) (calls st ++ [call]) (timers st) (executed st)
             (clock st)).

(** The callback given to [setTimeout], run at [now]. *)
Definition timeout_callback (now : Z) (st : state) : state :=
  caller now
    (mkState false (calls st) (timers st) (executed st) (clock st)).

Inductive event :=
| Enqueue (time : Z) (call : A)
| Timeout (time : Z).          (* the oldest pending timer fires *)

Definition time_of (e : event) : Z :=
  match e with Enqueue t _ => t | Timeout t => t end.

(** The event loop: events come in time order, and a timer fires no
    earlier than its due time. [None]: the event cannot happen. *)
Definition step (st : state) (e : event) : option state :=
  if time_of e <? clock st then None
  else
    match e with
    | Enqueue now call =>
        Some (enqueue now call
                (mkState (isCalled st) (calls st) (timers st) (executed st) now))
    | Timeout now =>
        match timers st with
        | due :: rest =>
            if due <=? now then
              Some (timeout_callback now
                      (mkState (isCalled st) (calls st) rest (executed st) now))
            else None
        | [] => None
        end
    end.

Fixpoint run (events : list event) (st : state) : option state :=
  match events with
  | [] => Some st
  | e :: rest =>
      match step st e with
      | Some st' => run rest st'
      | None => None
      end
  end.

(** The calls a list of events submits, in order. *)
Fixpoint enqueued (events : list event) : list A :=
  match events with
  | [] => []
  | Enqueue _ call :: rest => call :: enqueued rest
  | Timeout _ :: rest => enqueued rest
  end.

(** The time of the last call made. *)
Definition last_time (st : state) : option Z := last (map fst (executed st)).

(** What holds of the limiter after the calls [submitted]: the calls
    made and the calls queued are the submitted ones, in order; the calls
    made are the delay of [setTimeout] apart; a busy limiter has exactly
    one timer pending, due that delay after its last call, unless its
    last call raised an exception, and then it has none; an idle one has
    no timer, nothing queued, and made its last call at least the delay
    ago. *)
Definition invariant (submitted : list A) (st : state) : Prop :=
  map snd (executed st) ++ calls st = submitted /\
  spaced (setTimeout_delay wait) (map fst (executed st)) /\
  if isCalled st
  then (exists t, last_time st = Some t /\ timers st = [t + setTimeout_delay wait]) \/
       (timers st = [] /\
        exists made, last (executed st) = Some made /\ throws (snd made) = true)
  else timers st = [] /\ calls st = [] /\
       forall t, last_time st = Some t -> t + setTimeout_delay wait <= clock st.

(** The timers of a busy limiter firing one after the other, each at
    its due time or at the current time if that is later. *)
Fixpoint drain (n : nat) (st : state) : list event :=
  match n with
  | O => []
  | S n' =>
      match timers st with
      | due :: _ =>
          let now := Z.max due (clock st) in
          match step st (Timeout now) with
          | Some st' => Timeout now :: drain n' st'
          | None => []
          end
      | [] => []
      end
  end.

End Limited.

Arguments isCalled {A}.
Arguments calls {A}.
Arguments timers {A}.
Arguments executed {A}.
Arguments clock {A}.
Arguments initial {A}.
Arguments Enqueue {A}.
Arguments Timeout {A}.
Arguments time_of {A}.
Arguments step {A}.
Arguments run {A}.
Arguments enqueued {A}.
Arguments caller {A}.
Arguments enqueue {A}.
Arguments timeout_callback {A}.
Arguments drain {A}.
Arguments last_time {A}.
Arguments invariant {A}.
End Limiter.

(** ** The sentiment window of the last revision *)

Module Sentiment.
Local Open Scope list_scope.

Definition WINDOW_SIZE_MS : Z := 60000.

Record state := mkState {
  dailyPositiveCount : nat;
  dailyNegativeCount : nat;
  messageWindow : list (Z * string);     (* {time, type} *)
  movingAverages : list Z                (* the calls of recordMovingAverage *)
}.

Definition initial : state := mkState 0 0 [] [].

(** The counting loop of [updateMessageWindow]:
    (positiveCount, negativeCount). *)
Fixpoint count_types (window : list (Z * string)) (counts : nat * nat) : nat * nat :=
  match window with
  | [] => counts
  | msg :: rest =>
      let '(positiveCount, negativeCount) := counts in
      if String.eqb (snd msg) "+2" then count_types rest (S positiveCount, negativeCount)
      else if String.eqb (snd msg) "-2" then count_types rest (positiveCount, S negativeCount)
      else count_types rest counts
  end.

(** [updateMessageWindow(type)], with [now] the value of [Date.now()]. *)
Definition updateMessageWindow (now : Z) (type : string) (st : state) : state :=
  let window := messageWindow st ++ [(now, type)] in
  let window := List.filter (fun msg => (now - fst msg <=? WINDOW_SIZE_MS)%Z) window in
  let '(positiveCount, negativeCount) := count_types window (0, 0)%nat in
  let movingAverage := (Z.of_nat positiveCount * 2 - Z.of_nat negativeCount * 2)%Z in
  mkState (dailyPositiveCount st) (dailyNegativeCount st) window
          (movingAverages st ++ [movingAverage]).

(** The periodic timer: [updateMessageWindow('')]. *)
Definition tick (now : Z) (st : state) : state := updateMessageWindow now "" st.

(** [enqueueChatMessage] of the sentiment revision: the window part is
    the one of the MongoDB revision, then the markers are looked for. *)
Definition enqueueChatMessage (now : Z) (channel username message : string)
    (isModerator : bool) (emote : option string)
    (st : Bot.state * state) : Bot.state * state :=
  let message := Bot.effective_message message emote in
  if Bot.filterEnqueueMessage Bot.cfg_mongo channel username message isModerator
  then st
  else
    let bot := Bot.enqueue_unfiltered Bot.cfg_mongo channel username message (fst st) in
    let lowerMessage := JS.toLowerCase message in
    if JS.includes lowerMessage "+2" then
      (bot, updateMessageWindow now "+2"
              (mkState (S (dailyPositiveCount (snd st))) (dailyNegativeCount (snd st))
                       (messageWindow (snd st)) (movingAverages (snd st))))
    else if JS.includes lowerMessage "-2" then
      (bot, updateMessageWindow now "-2"
              (mkState (dailyPositiveCount (snd st)) (S (dailyNegativeCount (snd st)))
                       (messageWindow (snd st)) (movingAverages (snd st))))
    else (bot, snd st).

(** The number of entries of a kind in a window. *)
Definition count_kind (kind : string) (window : list (Z * string)) : nat :=
  length (List.filter (fun msg => String.eqb (snd msg) kind) window).

End Sentiment.


(** ** Further definitions for the properties of whole runs *)

(** Is the event one of the channel's, or a disposal (which is
    everyone's)? *)
Definition about (channel : string) (e : Bot.event) : bool :=
  match e with
  | Bot.Chat c _ _ _ _ => String.eqb c channel
  | Bot.Disposal => true
  end.

(** The hype calls made for a channel. *)
Definition hype_for (channel : string) (st : Bot.state) : list (string * string) :=
  List.filter (fun call => String.eqb (fst call) channel) (Bot.hypeCalls st).

(** The calls a list of throttle events makes, with their times. *)
Fixpoint calls_of {A : Type} (events : list (Throttle.event A)) : list (Z * A) :=
  match events with
  | [] => []
  | Throttle.Call time args :: rest => (time, args) :: calls_of rest
  | Throttle.Timer _ :: rest => calls_of rest
  end.

(** What holds of a throttle at time [clock], [made] being the calls
    made so far: its runs are calls that were made, in their order and
    [wait] apart, and the times of the last run and of the last call are
    what the closure says. *)
Definition throttle_ok {A : Type} (wait : Z) (made : list (Z * A)) (clock : Z)
    (st : Throttle.state A) : Prop :=
  Throttle.invoked st `sublist_of` made /\
  Limiter.spaced wait (map fst (Throttle.invoked st)) /\
  (forall t, last (map fst (Throttle.invoked st)) = Some t ->
     t = Throttle.lastInvokeTime st) /\
  (Throttle.lastCallTime st = None -> Throttle.invoked st = []) /\
  (forall lc, Throttle.lastCallTime st = Some lc ->
     (Throttle.lastInvokeTime st <= lc <= clock)%Z).


(** Every unit of a string satisfies a test. *)
Fixpoint all_units (p : ascii -> bool) (s : string) : bool :=
  match s with
  | EmptyString => true
  | String c t => p c && all_units p t
  end.

(** A label of a host as the URL patterns read it: one or more units of
    the class [[w_-]], with [w] the pattern's word class. *)
Definition is_label (w : Regex.item) (l : string) : bool :=
  negb (String.eqb l "") &&
  all_units (fun c => Regex.class_mem c [w; Regex.Unit "_"; Regex.Unit "-"]%char) l.

(** The class a match of the URL patterns ends with. *)
Definition closing (w : Regex.item) : list Regex.item :=
  [w; Regex.Unit "@"; Regex.Unit "?"; Regex.Unit "^"; Regex.Unit "=";
   Regex.Unit "%"; Regex.Unit "&"; Regex.Unit "/"; Regex.Unit "~"; Regex.Unit "+";
   Regex.Unit "#"; Regex.Unit "-"]%char.

(** ** The statistics table

    [chat_user_stats] holds one row per user: the SQLite revision
    creates it with [UserName TEXT UNIQUE], the MongoDB revisions put a
    unique index on [UserName]. A table is the list of its rows, oldest
    first; a statement that fails leaves it as it is, and the bot drops
    or logs the error. *)

Module Stats.
Local Open Scope list_scope.

Record row := mkRow {
  Channel : string;
  UserName : string;
  MessageCount : nat
}.

Definition table := list row.

Definition named (username : string) (r : row) : bool :=
  String.eqb (UserName r) username.

Definition bump (r : row) : row :=
  mkRow (Channel r) (UserName r) (MessageCount r + 1).

(** [INSERT INTO chat_user_stats VALUES (?, ?, 0)]: refused when the
    table has a row of that [UserName]. *)
Definition INSERT (channel username : string) (t : table) : table :=
  if existsb (named username) t then t else t ++ [mkRow channel username 0].

(** [UPDATE chat_user_stats SET MessageCount = MessageCount + 1 WHERE
    userName = ?] *)
Definition UPDATE (username : string) (t : table) : table :=
  map (fun r => if named username r then bump r else r) t.

(** [recordUserChatStats] of the SQLite revision: the two statements,
    one after the other ([db.serialize]). *)
Definition recordUserChatStats (channel username : string) (t : table) : table :=
  UPDATE username (INSERT channel username t).

(** The filter [{ Channel: channel, UserName: username }]. *)
Definition selected (channel username : string) (r : row) : bool :=
  String.eqb (Channel r) channel && String.eqb (UserName r) username.

(** [$inc: { MessageCount: 1 }] on the first document that the filter
    selects ([updateOne]). *)
Fixpoint inc_first (p : row -> bool) (t : table) : table :=
  match t with
  | [] => []
  | r :: rest => if p r then bump r :: rest else r :: inc_first p rest
  end.

(** [recordUserChatStats] of the MongoDB revisions, once
    [connectToMongo] has set [db] and made the index: [updateOne] with
    [upsert]. When the filter selects nothing a document is inserted
    with the filter's fields and [MessageCount] 1, unless the unique
    index on [UserName] refuses it; the error is caught and logged. *)
Definition recordUserChatStats_mongo (channel username : string) (t : table) : table :=
  if existsb (selected channel username) t
  then inc_first (selected channel username) t
  else if existsb (named username) t then t
  else t ++ [mkRow channel username 1].

(** The calls [(channel, username)] of a log, made in order. *)
Definition replay (record : string -> string -> table -> table)
    (calls : list (string * string)) (t : table) : table :=
  fold_left (fun t call => record (fst call) (snd call) t) calls t.

(** The row of a user. *)
Definition row_of (username : string) (t : table) : option row :=
  List.find (named username) t.

(** The calls of a log that are for a user, and those that are for a
    user in a channel. *)
Definition calls_by (username : string) (calls : list (string * string)) : nat :=
  length (List.filter (fun call => String.eqb (snd call) username) calls).

Definition calls_in (channel username : string) (calls : list (string * string)) : nat :=
  length (List.filter (fun call => String.eqb (fst call) channel &&
                                   String.eqb (snd call) username) calls).

(** The channel of the first call of a log that is for a user. *)
Definition first_channel (username : string) (calls : list (string * string))
    : option string :=
  option_map fst (List.find (fun call => String.eqb (snd call) username) calls).

End Stats.

(** ** The console lines of the message handlers

    [getFormattedTime()] and the styles of [chalk] come from outside:
    the handlers take the time stamp as a string and the styles as
    functions on strings. *)

Module Console.
Local Open Scope list_scope.

(** [s.split(sep)] with a one-unit separator. *)
Fixpoint split (sep : ascii) (s : string) : list string :=
  match s with
  | EmptyString => [EmptyString]
  | String c t =>
      if Ascii.eqb c sep then EmptyString :: split sep t
      else
        match split sep t with
        | word :: words => String c word :: words
        | [] => [String c EmptyString]
        end
  end.

Section Handlers.
Variable credentials_username : string.    (* TWITCH_PREFERENCES.credentials.username *)
Variable time : string.                    (* getFormattedTime() *)
Variables whiteBright_bold bgRed cyanBright : string -> string.

Definition mention : string := ("@" ++ credentials_username)%string.

Definition mentions (word : string) : bool :=
  JS.includes (JS.toLowerCase word) mention.

(** The loop of [handleOtherMessage] over the entries that are left,
    [index] being the index of the first of them. *)
Fixpoint rebuild (index : nat) (words : list string) (_message : string) : string :=
  match words with
  | [] => _message
  | word :: rest =>
      let word := if mentions word then whiteBright_bold word else word in
      let _message := if (0 <? index)%nat then (_message ++ " ")%string else _message in
      rebuild (S index) rest (_message ++ word)%string
  end.

(** [handleOtherMessage]: the line given to [console.log], if any. *)
Definition handleOtherMessage (channel username message : string) : option string :=
  if mentions message then
    Some (bgRed (time ++ " <" ++ username ++ "> " ++
                 rebuild 0 (split " " message) "")%string)
  else None.

(** [handleMyMessage]: the line given to [console.log]. *)
Definition handleMyMessage (channel username message : string) : string :=
  (time ++ " <" ++ cyanBright username ++ "> " ++ message)%string.

(** The [switch] of the [PRIVMSG] listener. *)
Definition on_PRIVMSG (channel username message : string) : option string :=
  if String.eqb username credentials_username
  then Some (handleMyMessage channel username message)
  else handleOtherMessage channel username message.

End Handlers.

(** An upper-case ASCII letter. *)
Definition is_upper (c : ascii) : bool :=
  let n := nat_of_ascii c in (65 <=? n)%nat && (n <=? 90)%nat.

End Console.

(** ** The sentiment revision as a whole *)

Module SentimentBot.
Local Open Scope list_scope.

(** The [PRIVMSG] listener of the sentiment revision, at time [now];
    the console lines of the handlers are left out. *)
Definition on_PRIVMSG (now : Z) (msg : Bot.PRIVMSG)
    (st : Bot.state * Sentiment.state) : Bot.state * Sentiment.state :=
  let emote :=
    match Bot.msg_emotes msg with
    | (start, end_) :: _ =>
        Some (JS.substring (Bot.msg_message msg) start (end_ + 1))
    | [] => None
    end in
  let channel := JS.remove_first "#" (Bot.msg_channel msg) in
  Sentiment.enqueueChatMessage now channel (Bot.msg_username msg)
    (Bot.msg_message msg) (Bot.msg_isModerator msg) emote st.

(** What happens to the sentiment revision: a chat message, the tick
    of the [setInterval] that records the moving average, or the
    disposal of the queues. *)
Inductive event :=
| Message (now : Z) (msg : Bot.PRIVMSG)
| Tick (now : Z)
| Disposal (now : Z).

Definition time_of (e : event) : Z :=
  match e with Message t _ => t | Tick t => t | Disposal t => t end.

Definition step (st : Bot.state * Sentiment.state) (e : event)
    : Bot.state * Sentiment.state :=
  match e with
  | Message now msg => on_PRIVMSG now msg st
  | Tick now => (fst st, Sentiment.tick now (snd st))
  | Disposal _ => (Bot.dequeueDisposal (fst st), snd st)
  end.

Definition run (events : list event) (st : Bot.state * Sentiment.state)
    : Bot.state * Sentiment.state :=
  fold_left step events st.

(** Events in time order, from [last] on. *)
Fixpoint in_time_order (last : Z) (events : list event) : Prop :=
  match events with
  | [] => True
  | e :: rest => (last <= time_of e)%Z /\ in_time_order (time_of e) rest
  end.

(** A whole number as a template literal prints it. *)
Definition Number_toString (n : Z) : string := NilZero.string_of_int (Z.to_int n).

(** The line [updateMessageWindow] gives to [console.log], with
    [time] the text of [getFormattedTime()]. *)
Definition moving_average_line (time : string) (movingAverage : Z) : string :=
  let positiveNegativeSymbol := if (0 <=? movingAverage)%Z then "+" else "-" in
  (time ++ " Moving Average: " ++ positiveNegativeSymbol ++
   Number_toString movingAverage)%string.

(** What holds of the sentiment window at time [clock]: no entry is
    later than [clock], the entries are in time order, and each of them
    is at most [WINDOW_SIZE_MS] older than the last one. *)
Definition window_ok (clock : Z) (st : Sentiment.state) : Prop :=
  Forall (fun msg => (fst msg <= clock)%Z) (Sentiment.messageWindow st) /\
  StronglySorted Z.le (map fst (Sentiment.messageWindow st)) /\
  forall t type, last (Sentiment.messageWindow st) = Some (t, type) ->
    Forall (fun msg => (t - Sentiment.WINDOW_SIZE_MS <= fst msg <= t)%Z)
           (Sentiment.messageWindow st).

End SentimentBot.

(** ** From the hype call to the chat: the parts wired together

    In the SQLite revision [detectHype] calls the throttled
    [sendHypeMessage], which records a statistic for the bot's own name
    and calls [chat.say], the limited function that sets a timer of
    [MSG_SEND_DELAY] for [chat.send]. (In the MongoDB revisions
    [sendHypeMessage] awaits the database before it calls [chat.say];
    that wiring is not the one below.) *)

Module System.
Local Open Scope Z_scope.
Local Open Scope list_scope.

(** The limiter at a later time, nothing having happened to it. *)
Definition at_time {A : Type} (now : Z) (l : Limiter.state A) : Limiter.state A :=
  Limiter.mkState A (Limiter.isCalled l) (Limiter.calls l) (Limiter.timers l)
                  (Limiter.executed l) now.

(** The entries a log has gained. *)
Definition since {A : Type} (old new : list A) : list A := drop (length old) new.

(** The wait of the limiter around [chat.say]. *)
Definition SAY_WAIT : Z := 1500.

(** The function given to that limiter tests [DRY_RUN] and sets a timer
    for [chat.send] (or logs a line): its calls raise no exception. *)
Definition say_throws (call : string * string) : bool := false.

Definition MSG_SEND_DELAY : Z := 150.

Section Wired.
Variable cfg : Bot.Config.
Variable HYPE_THROTTLE : Z.
Variable username : string.          (* TWITCH_PREFERENCES.credentials.username *)

Record state := mkState {
  bot : Bot.state;
  (* the closure of sendHypeMessageThrottled; its calls are (channel, message) *)
  throttle : Throttle.state (string * string);
  (* the closure of chat.say; its calls are (msg, channel) *)
  say : Limiter.state (string * string)
}.

Definition initial (start : Z) : state :=
  mkState Bot.initial Throttle.initial (Limiter.initial start).

(** [sendHypeMessage(channel, message)], run at [now]. *)
Definition sendHypeMessage (now : Z) (st : state) (call : string * string) : state :=
  let '(channel, message) := call in
  (* recordUserChatStats(channel, TWITCH_PREFERENCES.credentials.username) *)
  let bot' := Bot.mkState (Bot.messageQueues (bot st)) (Bot.hypeCalls (bot st))
                          (Bot.statsCalls (bot st) ++ [(channel, username)]) in
  (* chat.say(message, channel) *)
  mkState bot' (throttle st)
          (Limiter.enqueue say_throws SAY_WAIT now (message, channel) (say st)).

(** [sendHypeMessageThrottled(channel, message)], called at [now]:
    the throttle, and [sendHypeMessage] for the run it makes, if any. *)
Definition sendHypeMessageThrottled (now : Z) (st : state) (call : string * string)
    : state :=
  let throttle' := Throttle.debounced HYPE_THROTTLE now call (throttle st) in
  fold_left (sendHypeMessage now)
    (map snd (since (Throttle.invoked (throttle st)) (Throttle.invoked throttle')))
    (mkState (bot st) throttle' (say st)).

Inductive event :=
| Message (now : Z) (msg : Bot.PRIVMSG)
| Disposal (now : Z)              (* the interval of startDequeueDisposalProcess *)
| ThrottleTimer (now : Z)         (* the timer of the throttle *)
| SayTimer (now : Z).             (* the oldest pending timer of the limiter *)

Definition time_of (e : event) : Z :=
  match e with
  | Message t _ => t
  | Disposal t => t
  | ThrottleTimer t => t
  | SayTimer t => t
  end.

Definition is_message (e : event) : bool :=
  match e with Message _ _ => true | _ => false end.

(** The event loop: events come in time order, and a timer of the
    limiter fires no earlier than it is due. [None]: the event cannot
    happen. The clock of the limiter is the clock of the whole. *)
Definition step (st : state) (e : event) : option state :=
  let now := time_of e in
  if now <? Limiter.clock (say st) then None
  else
    let say_now := at_time now (say st) in
    match e with
    | Message _ msg =>
        let bot' := Bot.on_PRIVMSG cfg msg (bot st) in
        (* the calls that detectHype has made of sendHypeMessageThrottled *)
        Some (fold_left (sendHypeMessageThrottled now)
                (since (Bot.hypeCalls (bot st)) (Bot.hypeCalls bot'))
                (mkState bot' (throttle st) say_now))
    | Disposal _ =>
        Some (mkState (Bot.dequeueDisposal (bot st)) (throttle st) say_now)
    | ThrottleTimer _ =>
        Some (mkState (bot st)
                (Throttle.step HYPE_THROTTLE (throttle st) (Throttle.Timer now))
                say_now)
    | SayTimer _ =>
        match Limiter.step say_throws SAY_WAIT (say st) (Limiter.Timeout now) with
        | Some say' => Some (mkState (bot st) (throttle st) say')
        | None => None
        end
    end.

Fixpoint run (events : list event) (st : state) : option state :=
  match events with
  | [] => Some st
  | e :: rest =>
      match step st e with
      | Some st' => run rest st'
      | None => None
      end
  end.

(** The timers of the limiter fire in time: when a chat message is
    handled, no timer that was due by then is still pending. *)
Fixpoint prompt (events : list event) (st : state) : Prop :=
  match events with
  | [] => True
  | e :: rest =>
      (is_message e = true ->
       Forall (fun due => time_of e < due) (Limiter.timers (say st))) /\
      match step st e with
      | Some st' => prompt rest st'
      | None => True
      end
  end.




(** The call of [chat.say] that a run of [sendHypeMessage] makes. *)
Definition said (run : Z * (string * string)) : Z * (string * string) :=
  (fst run, (snd (snd run), fst (snd run))).

(** What holds of the throttle and the limiter in a state: the limiter
    has been given the runs of the throttle, and the throttle the hype
    calls of the bot. *)
Definition wired_ok (hypeCalls : list (string * string))
    (throttle : Throttle.state (string * string))
    (say : Limiter.state (string * string)) : Prop :=
  Limiter.invariant say_throws SAY_WAIT
    (map snd (map said (Throttle.invoked throttle))) say /\
  exists made, map snd made = hypeCalls /\
               throttle_ok HYPE_THROTTLE made (Limiter.clock say) throttle.

End Wired.

(** The line [chat.send] is given for a call of [chat.say]. *)
Definition send_line (call : string * string) : string :=
  let '(msg, channel) := call in ("PRIVMSG #" ++ channel ++ " :" ++ msg)%string.

(** The timers set for [chat.send]: a line and the time it is due, for
    every call of [chat.say] the limiter has made. *)
Definition sends (l : Limiter.state (string * string)) : list (Z * string) :=
  map (fun made => (fst made + MSG_SEND_DELAY, send_line (snd made)))
      (Limiter.executed l).

End System.

(** * Properties *)

(** ** Strings *)

#[local] Arguments String.append !s1 s2 : simpl nomatch.

Lemma str_app_nil_r (s : string) : s ++ "" = s.
Proof. induction s as [|c s IH]; simpl; [reflexivity | now rewrite IH]. Qed.

Lemma str_app_assoc (a b c : string) : (a ++ b) ++ c = a ++ (b ++ c).
Proof. induction a as [|x a IH]; simpl; [reflexivity | now rewrite IH]. Qed.

Lemma str_app_eq_nil (a b : string) : a ++ b = "" -> a = "" /\ b = "".
Proof. destruct a; simpl; intros H; [split; [reflexivity | exact H] | discriminate]. Qed.

Lemma str_length_app (a b : string) :
  String.length (a ++ b) = (String.length a + String.length b)%nat.
Proof. induction a as [|x a IH]; simpl; [reflexivity | now rewrite IH]. Qed.

(** ** The derivative matcher decides the language of a pattern *)

Section RegexCorrect.
Import Regex.

Lemma lang_Void s : ~ lang Void s.
Proof. intros H; inversion H. Qed.

Lemma lang_Eps_inv s : lang Eps s -> s = "".
Proof. intros H; inversion H; reflexivity. Qed.

Lemma lang_nil_nullable r s : lang r s -> s = "" -> nullable r = true.
Proof.
  induction 1 as [ | c Hc | items c Hc | r1 r2 s1 s2 _ IH1 _ IH2
                 | r1 r2 s _ IH | r1 r2 s _ IH | r | r s1 s2 _ _ _ _ ];
    intros E; simpl; try reflexivity; try discriminate.
  - apply str_app_eq_nil in E as [E1 E2]. now rewrite IH1, IH2.
  - now rewrite IH.
  - rewrite (IH E). apply orb_true_r.
Qed.

Lemma nullable_lang r : nullable r = true <-> lang r "".
Proof.
  split; [| intros H; exact (lang_nil_nullable r "" H eq_refl)].
  induction r as [ | | | items | r1 IH1 r2 IH2 | r1 IH1 r2 IH2 | r IH ];
    simpl; intros H; try discriminate.
  - constructor.
  - apply andb_true_iff in H as [H1 H2].
    change "" with ("" ++ ""). constructor; auto.
  - apply orb_true_iff in H as [H | H]; [apply L_AltL | apply L_AltR]; auto.
  - constructor.
Qed.

Lemma lang_Seq_inv r1 r2 s :
  lang (Seq r1 r2) s -> exists s1 s2, s = s1 ++ s2 /\ lang r1 s1 /\ lang r2 s2.
Proof. intros H; inversion H; subst; eauto. Qed.

Lemma lang_Alt_inv r1 r2 s : lang (Alt r1 r2) s -> lang r1 s \/ lang r2 s.
Proof. intros H; inversion H; subst; auto. Qed.

Lemma lang_seq r1 r2 s : lang (seq r1 r2) s <-> lang (Seq r1 r2) s.
Proof.
  assert (HV1 : forall r, lang (Seq Void r) s -> False).
  { intros r H. apply lang_Seq_inv in H as (s1 & s2 & _ & H & _). inversion H. }
  assert (HV2 : forall r, lang (Seq r Void) s -> False).
  { intros r H. apply lang_Seq_inv in H as (s1 & s2 & _ & _ & H). inversion H. }
  assert (HE : forall r, lang r s <-> lang (Seq Eps r) s).
  { intros r; split; intros H.
    - change s with ("" ++ s). constructor; [constructor | exact H].
    - apply lang_Seq_inv in H as (s1 & s2 & -> & H1 & H2).
      apply lang_Eps_inv in H1 as ->. exact H2. }
  destruct r1; destruct r2; simpl;
    try tauto;
    try (split; intros H; [now apply lang_Void in H | now (apply HV1 in H || apply HV2 in H)]);
    try apply HE.
Qed.

Lemma lang_alt r1 r2 s : lang (alt r1 r2) s <-> lang (Alt r1 r2) s.
Proof.
  assert (HL : forall r, lang r s <-> lang (Alt Void r) s).
  { intros r; split; intros H; [now apply L_AltR |].
    apply lang_Alt_inv in H as [H | H]; [now apply lang_Void in H | exact H]. }
  assert (HR : forall r, lang r s <-> lang (Alt r Void) s).
  { intros r; split; intros H; [now apply L_AltL |].
    apply lang_Alt_inv in H as [H | H]; [exact H | now apply lang_Void in H]. }
  destruct r1; destruct r2; simpl; try tauto; try apply HL; try apply HR.
Qed.

Lemma lang_Seq_cons r1 r2 c s :
  lang (Seq r1 r2) (String c s) <->
  (exists s1 s2, s = s1 ++ s2 /\ lang r1 (String c s1) /\ lang r2 s2) \/
  (lang r1 "" /\ lang r2 (String c s)).
Proof.
  split.
  - intros H. apply lang_Seq_inv in H as (s1 & s2 & E & H1 & H2).
    destruct s1 as [|d s1]; simpl in E.
    + right. subst s2. auto.
    + left. injection E as -> ->. eauto.
  - intros [(s1 & s2 & -> & H1 & H2) | [H1 H2]].
    + change (String c (s1 ++ s2)) with (String c s1 ++ s2). now constructor.
    + change (String c s) with ("" ++ String c s). now constructor.
Qed.

Lemma lang_Star_cons r c s :
  lang (Star r) (String c s) <->
  exists s1 s2, s = s1 ++ s2 /\ lang r (String c s1) /\ lang (Star r) s2.
Proof.
  split.
  - intros H. remember (Star r) as r' eqn:Er. remember (String c s) as s' eqn:Es.
    revert s Es.
    induction H as [ | | | | | | | r0 s1 s2 H1 _ H2 IH2 ]; intros t Et;
      try discriminate.
    injection Er as ->. destruct s1 as [|d s1]; simpl in Et.
    + apply IH2; auto.
    + injection Et as Ec Et. subst. eauto.
  - intros (s1 & s2 & -> & H1 & H2).
    change (String c (s1 ++ s2)) with (String c s1 ++ s2). now constructor.
Qed.

Lemma deriv_lang c r : forall s, lang (deriv c r) s <-> lang r (String c s).
Proof.
  induction r as [ | | | items | r1 IH1 r2 IH2 | r1 IH1 r2 IH2 | r IH ];
    intros s; simpl.
  - split; intros H; inversion H.
  - split; intros H; inversion H.
  - destruct (is_line_terminator c) eqn:E; split; intros H; inversion H; subst.
    + congruence.
    + now constructor.
    + constructor.
  - destruct (class_mem c items) eqn:E; split; intros H; inversion H; subst.
    + now constructor.
    + constructor.
    + congruence.
  - rewrite lang_Seq_cons.
    destruct (nullable r1) eqn:N.
    + rewrite lang_alt. split.
      * intros H. apply lang_Alt_inv in H as [H | H].
        -- apply lang_seq, lang_Seq_inv in H as (s1 & s2 & -> & H1 & H2).
           left. exists s1, s2. rewrite <- IH1. auto.
        -- right. split; [now apply nullable_lang | now apply IH2].
      * intros [(s1 & s2 & -> & H1 & H2) | [H1 H2]].
        -- apply L_AltL, lang_seq. constructor; [now apply IH1 | exact H2].
        -- apply L_AltR. now apply IH2.
    + rewrite lang_seq. split.
      * intros H. apply lang_Seq_inv in H as (s1 & s2 & -> & H1 & H2).
        left. exists s1, s2. rewrite <- IH1. auto.
      * intros [(s1 & s2 & -> & H1 & H2) | [H1 H2]].
        -- constructor; [now apply IH1 | exact H2].
        -- apply nullable_lang in H1. congruence.
  - rewrite lang_alt. split; intros H.
    + apply lang_Alt_inv in H as [H | H];
        [apply L_AltL, IH1 | apply L_AltR, IH2]; exact H.
    + apply lang_Alt_inv in H as [H | H];
        [apply L_AltL, IH1 | apply L_AltR, IH2]; exact H.
  - rewrite lang_seq, lang_Star_cons. split.
    + intros H. apply lang_Seq_inv in H as (s1 & s2 & -> & H1 & H2).
      exists s1, s2. rewrite <- IH. auto.
    + intros (s1 & s2 & -> & H1 & H2). constructor; [now apply IH | exact H2].
Qed.

Lemma matches_lang s : forall r, matches r s = true <-> lang r s.
Proof.
  induction s as [|c s IH]; intros r; simpl.
  - apply nullable_lang.
  - rewrite IH. apply deriv_lang.
Qed.

Lemma matches_prefix_lang s :
  forall r, matches_prefix r s = true <-> exists s1 s2, s = s1 ++ s2 /\ lang r s1.
Proof.
  induction s as [|c s IH]; intros r; simpl; rewrite orb_true_iff, nullable_lang.
  - split.
    + intros [H | H]; [| discriminate]. exists "", "". auto.
    + intros (s1 & s2 & E & H). symmetry in E.
      apply str_app_eq_nil in E as [-> _]. auto.
  - rewrite IH. split.
    + intros [H | (s1 & s2 & -> & H)].
      * exists "", (String c s). auto.
      * exists (String c s1), s2. split; [reflexivity | now apply deriv_lang].
    + intros (s1 & s2 & E & H). destruct s1 as [|d s1]; simpl in E.
      * auto.
      * injection E as <- ->. right. exists s1, s2.
        split; [reflexivity | now apply deriv_lang].
Qed.

(** [test] answers whether some substring of the subject is in the
    pattern's language. *)
Lemma test_lang r s :
  test r s = true <-> exists s0 s1 s2, s = s0 ++ s1 ++ s2 /\ lang r s1.
Proof.
  induction s as [|c s IH]; cbn [test]; rewrite orb_true_iff, matches_prefix_lang.
  - split.
    + intros [(s1 & s2 & E & H) | H]; [| discriminate]. exists "", s1, s2. auto.
    + intros (s0 & s1 & s2 & E & H). left. symmetry in E.
      apply str_app_eq_nil in E as [-> E]. eauto.
  - rewrite IH. split.
    + intros [(s1 & s2 & E & H) | (s0 & s1 & s2 & -> & H)].
      * exists "", s1, s2. auto.
      * exists (String c s0), s1, s2. auto.
    + intros (s0 & s1 & s2 & E & H). destruct s0 as [|d s0]; simpl in E.
      * left. eauto.
      * injection E as <- ->. right. eauto.
Qed.

End RegexCorrect.

(** ** The message filter *)

Section FilterFacts.
Import Regex Filter.

Lemma array_includes_In (arr : list string) (x : string) :
  JS.array_includes arr x = true <-> In x arr.
Proof.
  unfold JS.array_includes. rewrite existsb_exists. split.
  - intros (y & Hy & E). apply String.eqb_eq in E. now subst.
  - intros H. exists x. split; [exact H | apply String.eqb_refl].
Qed.

(** The filter rejects a message exactly when the sender is a moderator,
    or the sender's lower-cased name is on the ignore list, or the body
    starts with [!], or some part of the body is in the language of the
    URL pattern the filter was built with. *)
Lemma filterEnqueueMessage_with_iff (uri : regex)
    (channel username message : string) (isModerator : bool) :
  filterEnqueueMessage_with uri channel username message isModerator = true <->
  isModerator = true \/
  In (JS.toLowerCase username) HYPE_USER_IGNORE_LIST \/
  JS.charAt message 0 = "!" \/
  (exists s0 s1 s2, message = s0 ++ s1 ++ s2 /\ lang uri s1).
Proof.
  unfold filterEnqueueMessage_with.
  rewrite <- array_includes_In, <- test_lang, <- String.eqb_eq.
  destruct isModerator,
    (JS.array_includes HYPE_USER_IGNORE_LIST (JS.toLowerCase username)),
    (String.eqb (JS.charAt message 0) "!"), (test uri message);
    cbn [orb]; intuition discriminate.
Qed.

(** What [new RegExp] makes of the two literals. *)
Lemma REGEX_CONTAINS_URI_read :
  JS.string_literal REGEX_CONTAINS_URI_text =
    "(http|ftp|https)://([w_-]+(?:.[w_-]+)+)([w.,@?^=%&:/~+#-]*[w@?^=%&/~+#-])" /\
  REGEX_CONTAINS_URI = uri_shape (Unit "w") Dot.
Proof. split; vm_compute; reflexivity. Qed.

Lemma REGEX_CONTAINS_URI_mongo_read :
  JS.string_literal REGEX_CONTAINS_URI_mongo_text =
    "(http|ftp|https):\/\/([\w_-]+(?:\.[\w_-]+)+)([\w.,@?^=%&:/~+#-]*[\w@?^=%&/~+#-])" /\
  REGEX_CONTAINS_URI_mongo = uri_shape Word (Class [Unit "."%char]).
Proof. split; vm_compute; reflexivity. Qed.

Lemma lang_LitThen s r t :
  lang (LitThen s r) t -> exists t', t = s ++ t' /\ lang r t'.
Proof.
  revert t. induction s as [|c s IH]; intros t H; cbn [LitThen] in H.
  - now exists t.
  - apply lang_Seq_inv in H as (s1 & s2 & -> & H1 & H2).
    inversion H1 as [ | | items d Hd | | | | | ]; subst.
    simpl in Hd. rewrite orb_false_r in Hd. apply Ascii.eqb_eq in Hd as ->.
    destruct (IH _ H2) as (t' & -> & Ht'). now exists t'.
Qed.

Lemma host_label_first s :
  lang (host_label (Unit "w")) s ->
  exists c t, s = String c t /\ (c = "w" \/ c = "_" \/ c = "-")%char.
Proof.
  intros H. apply lang_Seq_inv in H as (s1 & s2 & -> & H1 & _).
  inversion H1 as [ | | items c Hc | | | | | ]; subst.
  exists c, s2. split; [reflexivity |].
  simpl in Hc. rewrite !orb_true_iff in Hc.
  destruct Hc as [Hc | [Hc | [Hc | Hc]]]; try discriminate;
    apply Ascii.eqb_eq in Hc; auto.
Qed.

(** Every match of the SQLite revision's pattern has, right after
    [://], one of the three units [w], [_] and [-]: the pattern cannot
    see a host that starts with any other letter or digit. *)
Lemma REGEX_CONTAINS_URI_host s :
  lang REGEX_CONTAINS_URI s ->
  exists sch c t, s = sch ++ "://" ++ String c t /\
                  (c = "w" \/ c = "_" \/ c = "-")%char.
Proof.
  intros H. rewrite (proj2 REGEX_CONTAINS_URI_read) in H. unfold uri_shape in H.
  apply lang_Seq_inv in H as (sch & s1 & -> & _ & H).
  apply lang_LitThen in H as (s2 & -> & H).
  apply lang_Seq_inv in H as (host & s3 & -> & H & _).
  apply lang_Seq_inv in H as (h1 & h2 & -> & H & _).
  apply host_label_first in H as (c & t & -> & Hc).
  exists sch, c, ((t ++ h2) ++ s3). split; [| exact Hc].
  simpl. now rewrite !str_app_assoc.
Qed.

(** No body with [://] followed by anything but [w], [_] or [-] at each
    of its occurrences is rejected for its URL by the SQLite revision. *)
Lemma REGEX_CONTAINS_URI_test body :
  test REGEX_CONTAINS_URI body = true ->
  exists pre c post, body = pre ++ "://" ++ String c post /\
                     (c = "w" \/ c = "_" \/ c = "-")%char.
Proof.
  intros H. apply test_lang in H as (s0 & s1 & s2 & -> & H).
  apply REGEX_CONTAINS_URI_host in H as (sch & c & t & -> & Hc).
  exists (s0 ++ sch), c, (t ++ s2). split; [| exact Hc].
  simpl. now rewrite !str_app_assoc.
Qed.

End FilterFacts.

(** ** The detection scan *)

Section ScanFacts.
Import Bot.
Local Open Scope list_scope.

Lemma tally_empty m : tally ∅ m = 0.
Proof. unfold tally. now rewrite lookup_empty. Qed.

Lemma tally_insert_eq mc m n : tally (<[m := n]> mc) m = n.
Proof. unfold tally. now rewrite lookup_insert_eq. Qed.

Lemma tally_insert_ne mc m x n : m <> x -> tally (<[m := n]> mc) x = tally mc x.
Proof. intros H. unfold tally. now rewrite lookup_insert_ne. Qed.

(** One round of the loop of [detectHype]. *)
Lemma scan_cons T mc m rest :
  scan T mc (m :: rest) =
  if String.eqb m proto_key then scan T mc rest
  else if (T <=? S (tally mc m))%nat then Some m
       else scan T (<[m := S (tally mc m)]> mc) rest.
Proof.
  cbn [scan]. unfold counts_read, counts_write, tally.
  destruct (String.eqb m proto_key) eqn:E.
  - reflexivity.
  - destruct (mc !! m) as [n|] eqn:L.
    + rewrite L, lookup_insert_eq, Nat.add_1_r. reflexivity.
    + rewrite lookup_insert_eq, lookup_insert_eq, insert_insert_eq.
      reflexivity.
Qed.

Lemma replicate_snoc {X} (x : X) n : replicate n x ++ [x] = replicate (S n) x.
Proof. induction n as [|n IH]; simpl; [reflexivity | now rewrite IH]. Qed.

(** Copies of one message: the scan stops when the running count, which
    starts from what the table already holds, reaches the threshold. *)
Lemma scan_replicate T m : m <> proto_key ->
  forall j mc,
    scan T mc (replicate j m) =
    if (1 <=? j)%nat && (T <=? tally mc m + j)%nat then Some m else None.
Proof.
  intros Hm. apply String.eqb_neq in Hm.
  induction j as [|j IH]; intros mc; [reflexivity |].
  cbn [replicate]. rewrite scan_cons, Hm.
  destruct (T <=? S (tally mc m))%nat eqn:E.
  - apply Nat.leb_le in E. simpl.
    destruct (T <=? tally mc m + S j)%nat eqn:E2; [reflexivity |].
    apply Nat.leb_gt in E2. lia.
  - rewrite IH, tally_insert_eq. apply Nat.leb_gt in E.
    replace (S (tally mc m) + j)%nat with (tally mc m + S j)%nat by lia.
    destruct j as [|j]; [| reflexivity].
    cbn [Nat.leb andb].
    destruct (T <=? tally mc m + 1)%nat eqn:E2; [| reflexivity].
    apply Nat.leb_le in E2. lia.
Qed.

(** The key [__proto__] is never counted. *)
Lemma scan_proto_only T j : forall mc, scan T mc (replicate j proto_key) = None.
Proof.
  induction j as [|j IH]; intros mc; [reflexivity |].
  cbn [replicate]. rewrite scan_cons. apply IH.
Qed.

(** Distinct messages never reach a threshold of two or more. *)
Lemma scan_NoDup T : (2 <= T)%nat ->
  forall w mc, NoDup w -> (forall x, x ∈ w -> tally mc x = 0%nat) ->
    scan T mc w = None.
Proof.
  intros HT. induction w as [|m w IH]; intros mc Hnd H0; [reflexivity |].
  rewrite scan_cons. apply NoDup_cons in Hnd as [Hm Hnd].
  destruct (String.eqb m proto_key).
  - apply IH; [exact Hnd | intros x Hx; apply H0; now right].
  - rewrite (H0 m) by now left.
    destruct (T <=? 1)%nat eqn:E; [apply Nat.leb_le in E; lia |].
    apply IH; [exact Hnd |]. intros x Hx.
    rewrite tally_insert_ne; [apply H0; now right |].
    intros ->. contradiction.
Qed.

End ScanFacts.

Section ScanOrder.
Import Bot.
Local Open Scope list_scope.

Lemma tally_bump mc a x l :
  (tally (<[a := S (tally mc a)]> mc) x + occurrences l x =
   tally mc x + occurrences (a :: l) x)%nat.
Proof.
  destruct (String.string_dec a x) as [-> | Hne].
  - rewrite tally_insert_eq, count_occ_cons_eq by reflexivity. lia.
  - rewrite tally_insert_ne, count_occ_cons_neq by assumption. reflexivity.
Qed.

(** What the scan returns, for any window and any starting table: the
    message at the first position where the running count of a message
    other than [__proto__] reaches the threshold. *)
Lemma scan_Some_iff T : forall w mc m,
  scan T mc w = Some m <->
  exists p s,
    w = p ++ m :: s /\ m <> proto_key /\
    (T <= tally mc m + occurrences p m + 1)%nat /\
    (forall p1 x p2, p = p1 ++ x :: p2 -> x <> proto_key ->
       (tally mc x + occurrences p1 x + 1 < T)%nat).
Proof.
  induction w as [|a w IH]; intros mc m.
  { split; [discriminate |]. intros (p & s & E & _). now destruct p. }
  rewrite scan_cons. destruct (String.eqb_spec a proto_key) as [-> | Ha].
  - rewrite IH. split.
    + intros (p & s & -> & Hm & HT & Hp). exists (proto_key :: p), s.
      repeat split; try assumption.
      * rewrite count_occ_cons_neq by congruence. exact HT.
      * intros [|y p1] x p2 E Hx; injection E as E1 E2; [congruence |].
        subst y. rewrite count_occ_cons_neq by congruence. eapply Hp; eauto.
    + intros (p & s & E & Hm & HT & Hp). destruct p as [|y p].
      * injection E as E1 E2. congruence.
      * injection E as <- ->. exists p, s. repeat split; try assumption.
        -- rewrite count_occ_cons_neq in HT by congruence. exact HT.
        -- intros p1 x p2 -> Hx.
           specialize (Hp (proto_key :: p1) x p2 eq_refl Hx).
           rewrite count_occ_cons_neq in Hp by congruence. exact Hp.
  - destruct (T <=? S (tally mc a))%nat eqn:E.
    + apply Nat.leb_le in E. split.
      * intros [= <-]. exists [], w. repeat split; try assumption.
        -- simpl. lia.
        -- intros [|y p1] x p2 E'; discriminate.
      * intros (p & s & E' & Hm & HT & Hp). destruct p as [|y p].
        -- injection E' as -> _. reflexivity.
        -- injection E' as <- _. specialize (Hp [] a p eq_refl Ha).
           simpl in Hp. lia.
    + apply Nat.leb_gt in E. rewrite IH. split.
      * intros (p & s & -> & Hm & HT & Hp). exists (a :: p), s.
        repeat split; try assumption.
        -- rewrite <- tally_bump. exact HT.
        -- intros [|y p1] x p2 E' Hx; injection E' as E1 E2.
           ++ subst x. simpl. lia.
           ++ subst y. rewrite <- tally_bump. eapply Hp; eauto.
      * intros (p & s & E' & Hm & HT & Hp). destruct p as [|y p].
        -- injection E' as -> _. simpl in HT. lia.
        -- injection E' as <- ->. exists p, s. repeat split; try assumption.
           ++ rewrite tally_bump. exact HT.
           ++ intros p1 x p2 -> Hx. rewrite tally_bump.
              exact (Hp (a :: p1) x p2 eq_refl Hx).
Qed.

(** The scan reads the window front to back and no further than the
    message it stops at. *)
Lemma scan_short_circuit T mc p m s s' :
  scan T mc (p ++ m :: s) = Some m ->
  (T <= tally mc m + occurrences p m + 1)%nat ->
  (forall p1 x p2, p = p1 ++ x :: p2 -> x <> proto_key ->
     (tally mc x + occurrences p1 x + 1 < T)%nat) ->
  scan T mc (p ++ m :: s') = Some m.
Proof.
  intros H HT Hp. apply scan_Some_iff in H as (_ & _ & _ & Hm & _).
  apply scan_Some_iff. exists p, s'. auto.
Qed.

Lemma app_eq_app_shorter {X} (q p : list X) x m r s :
  q ++ x :: r = p ++ m :: s -> (length q < length p)%nat ->
  exists p2, p = q ++ x :: p2.
Proof.
  revert p. induction q as [|y q IH]; intros [|z p] E Hl; cbn in *; try lia.
  - injection E as -> _. now exists p.
  - injection E as -> E. destruct (IH p E ltac:(lia)) as [p2 ->]. now exists p2.
Qed.

(** The message the scan stops at is the one whose copy reaching the
    threshold comes first in the window: no other counted message has
    that many copies any earlier. *)
Lemma scan_earliest_qualifier T w m :
  scan T ∅ w = Some m ->
  exists p s,
    w = p ++ m :: s /\ (T <= occurrences p m + 1)%nat /\
    forall q x r, w = q ++ x :: r -> x <> proto_key ->
      (T <= occurrences q x + 1)%nat -> (length p <= length q)%nat.
Proof.
  intros H. apply scan_Some_iff in H as (p & s & -> & Hm & HT & Hp).
  rewrite tally_empty in HT. exists p, s. repeat split; [exact HT |].
  intros q x r E Hx Hq.
  destruct (Nat.le_gt_cases (length p) (length q)) as [Hle | Hlt]; [exact Hle |].
  symmetry in E. destruct (app_eq_app_shorter q p x m r s E Hlt) as [p2 ->].
  specialize (Hp q x p2 eq_refl Hx). rewrite tally_empty in Hp. lia.
Qed.

(** For a window without the body [__proto__], the scan stops exactly
    at the first place where the number of copies seen so far of the
    message at that place reaches the threshold. *)
Lemma scan_first_to_threshold T w m :
  proto_key ∉ w ->
  scan T ∅ w = Some m <->
  exists p s,
    w = p ++ m :: s /\ (T <= occurrences p m + 1)%nat /\
    forall p1 x p2, p = p1 ++ x :: p2 -> (occurrences p1 x + 1 < T)%nat.
Proof.
  intros Hw. rewrite scan_Some_iff. split.
  - intros (p & s & -> & Hm & HT & Hp). exists p, s.
    rewrite tally_empty in HT. repeat split; [exact HT |].
    intros p1 x p2 -> . specialize (Hp p1 x p2 eq_refl).
    rewrite tally_empty in Hp. apply Hp. intros ->. apply Hw.
    rewrite <- app_assoc. apply elem_of_app. right. now left.
  - intros (p & s & -> & HT & Hp). exists p, s. rewrite tally_empty.
    repeat split; [| exact HT |].
    + intros ->. apply Hw. apply elem_of_app. right. now left.
    + intros p1 x p2 E _. rewrite tally_empty. now apply (Hp p1 x p2).
Qed.

End ScanOrder.

(** ** One message, one channel *)

Section EngineFacts.
Import Bot.
Local Open Scope list_scope.
Variable cfg : Config.

Lemma detectHype_lookup channel st queue :
  messageQueues st !! channel = Some queue ->
  detectHype cfg channel st =
  match scan (HYPE_THRESHOLD cfg) ∅ queue with
  | Some message =>
      mkState (<[channel := []]> (messageQueues st))
              (hypeCalls st ++ [(channel, message)]) (statsCalls st)
  | None => st
  end.
Proof. intros H. unfold detectHype. now rewrite H. Qed.

(** The queues after [enqueue_unfiltered]: only the channel's array
    changes, to [window_after]. *)
Lemma enqueue_unfiltered_queues channel username message st :
  messageQueues (enqueue_unfiltered cfg channel username message st) =
  <[channel := window_after cfg message (window channel st)]> (messageQueues st).
Proof.
  unfold enqueue_unfiltered, window_after, hype_after, evict, window.
  destruct (in_length_bounds cfg message); [| reflexivity].
  erewrite detectHype_lookup by (cbn; apply lookup_insert_eq).
  destruct (scan _ _ _); cbn; [apply insert_insert_eq | reflexivity].
Qed.

(** The hype calls after [enqueue_unfiltered]: one more when the scan
    stops, for the channel and the message it stopped at. *)
Lemma enqueue_unfiltered_hype channel username message st :
  hypeCalls (enqueue_unfiltered cfg channel username message st) =
  hypeCalls st ++
  match hype_after cfg message (window channel st) with
  | Some hyped => [(channel, hyped)]
  | None => []
  end.
Proof.
  unfold enqueue_unfiltered, hype_after, evict, window.
  destruct (in_length_bounds cfg message); [| cbn; now rewrite app_nil_r].
  erewrite detectHype_lookup by (cbn; apply lookup_insert_eq).
  destruct (scan _ _ _); cbn; [reflexivity | now rewrite app_nil_r].
Qed.

Lemma window_enqueue_unfiltered channel username message st :
  window channel (enqueue_unfiltered cfg channel username message st) =
  window_after cfg message (window channel st).
Proof.
  unfold window at 1. now rewrite enqueue_unfiltered_queues, lookup_insert_eq.
Qed.

Lemma window_enqueue_unfiltered_other channel other username message st :
  channel <> other ->
  window other (enqueue_unfiltered cfg channel username message st) =
  window other st.
Proof.
  intros H. unfold window. now rewrite enqueue_unfiltered_queues, lookup_insert_ne.
Qed.

Lemma evict_length queue :
  (1 <= HYPE_MAX_QUEUE_LEN cfg)%nat ->
  (length queue <= HYPE_MAX_QUEUE_LEN cfg)%nat ->
  (length (evict cfg queue) < HYPE_MAX_QUEUE_LEN cfg)%nat.
Proof.
  intros HK Hq. unfold evict.
  destruct (HYPE_MAX_QUEUE_LEN cfg <=? length queue)%nat eqn:E.
  - apply Nat.leb_le in E. destruct queue; simpl in *; lia.
  - now apply Nat.leb_gt in E.
Qed.

Lemma window_after_length message queue :
  (1 <= HYPE_MAX_QUEUE_LEN cfg)%nat ->
  (length queue <= HYPE_MAX_QUEUE_LEN cfg)%nat ->
  (length (window_after cfg message queue) <= HYPE_MAX_QUEUE_LEN cfg)%nat.
Proof.
  intros HK Hq. pose proof (evict_length queue HK Hq) as He.
  unfold window_after.
  destruct (in_length_bounds cfg message); [| lia].
  destruct (hype_after cfg message queue); [simpl; lia |].
  rewrite length_app. simpl. lia.
Qed.

(** Every window stays within the capacity, whatever happens. *)
Lemma step_bounded st e :
  (1 <= HYPE_MAX_QUEUE_LEN cfg)%nat ->
  (forall channel, (length (window channel st) <= HYPE_MAX_QUEUE_LEN cfg)%nat) ->
  forall channel, (length (window channel (step cfg st e)) <= HYPE_MAX_QUEUE_LEN cfg)%nat.
Proof.
  intros HK Hst channel.
  destruct e as [ch username message isModerator emote |]; cbn [step].
  - unfold enqueueChatMessage.
    destruct (filterEnqueueMessage cfg _ _ _ _); [apply Hst |].
    destruct (String.string_dec ch channel) as [-> | Hne].
    + rewrite window_enqueue_unfiltered. now apply window_after_length.
    + rewrite window_enqueue_unfiltered_other by assumption. apply Hst.
  - unfold dequeueDisposal, window. cbn. rewrite lookup_empty. cbn. lia.
Qed.

Lemma run_bounded events : forall st,
  (1 <= HYPE_MAX_QUEUE_LEN cfg)%nat ->
  (forall channel, (length (window channel st) <= HYPE_MAX_QUEUE_LEN cfg)%nat) ->
  forall channel, (length (window channel (run cfg events st)) <= HYPE_MAX_QUEUE_LEN cfg)%nat.
Proof.
  induction events as [|e events IH]; intros st HK Hst; [exact Hst |].
  cbn [run fold_left]. apply IH; [exact HK |]. now apply step_bounded.
Qed.

End EngineFacts.

(** ** Copies of one message *)

Section Copies.
Import Bot.
Local Open Scope list_scope.
Variable cfg : Config.
Variables channel message : string.
Hypothesis counted : message <> proto_key.
Hypothesis bounded : in_length_bounds cfg message = true.
Hypothesis fits : (HYPE_THRESHOLD cfg <= HYPE_MAX_QUEUE_LEN cfg)%nat.

Lemma hype_after_copy j :
  (j < HYPE_THRESHOLD cfg)%nat ->
  hype_after cfg message (replicate j message) =
  if (HYPE_THRESHOLD cfg <=? S j)%nat then Some message else None.
Proof.
  intros Hj. unfold hype_after, evict. rewrite bounded, length_replicate.
  destruct (HYPE_MAX_QUEUE_LEN cfg <=? j)%nat eqn:E;
    [apply Nat.leb_le in E; lia |].
  rewrite replicate_snoc, scan_replicate, tally_empty by assumption.
  reflexivity.
Qed.

Lemma window_after_copy j :
  (j < HYPE_THRESHOLD cfg)%nat ->
  window_after cfg message (replicate j message) =
  if (HYPE_THRESHOLD cfg <=? S j)%nat then [] else replicate (S j) message.
Proof.
  intros Hj. unfold window_after. rewrite bounded, hype_after_copy by assumption.
  destruct (HYPE_THRESHOLD cfg <=? S j)%nat; [reflexivity |].
  unfold evict. rewrite length_replicate.
  destruct (HYPE_MAX_QUEUE_LEN cfg <=? j)%nat eqn:E;
    [apply Nat.leb_le in E; lia |].
  apply replicate_snoc.
Qed.

(** Fewer copies than the threshold: they pile up and nothing is sent. *)
Lemma copies_below_threshold senders : forall st j,
  window channel st = replicate j message ->
  (j + length senders < HYPE_THRESHOLD cfg)%nat ->
  (forall u, u ∈ senders -> filterEnqueueMessage cfg channel u message false = false) ->
  window channel (send_copies cfg channel message senders st) =
    replicate (j + length senders) message /\
  hypeCalls (send_copies cfg channel message senders st) = hypeCalls st.
Proof.
  induction senders as [|u senders IH]; intros st j Hw Hj Hf.
  { cbn. now rewrite Nat.add_0_r. }
  cbn [send_copies fold_left length] in *.
  unfold enqueueChatMessage at 2 4. cbn [effective_message].
  rewrite (Hf u) by now left.
  fold (send_copies cfg channel message senders
          (enqueue_unfiltered cfg channel u message st)).
  destruct (IH (enqueue_unfiltered cfg channel u message st) (S j)) as [IH1 IH2].
  - rewrite window_enqueue_unfiltered, Hw, window_after_copy by lia.
    destruct (HYPE_THRESHOLD cfg <=? S j)%nat eqn:E;
      [apply Nat.leb_le in E; lia | reflexivity].
  - lia.
  - intros v Hv. apply Hf. now right.
  - rewrite IH1, IH2, enqueue_unfiltered_hype, Hw, hype_after_copy by lia.
    destruct (HYPE_THRESHOLD cfg <=? S j)%nat eqn:E;
      [apply Nat.leb_le in E; lia |].
    rewrite app_nil_r. split; [f_equal; lia | reflexivity].
Qed.

(** As many copies as the threshold, into an empty window: the last one
    raises one hype call, for this channel and this message, and the
    window is empty right after it. *)
Lemma copies_reach_threshold senders st :
  window channel st = [] ->
  length senders = HYPE_THRESHOLD cfg ->
  (1 <= HYPE_THRESHOLD cfg)%nat ->
  (forall u, u ∈ senders -> filterEnqueueMessage cfg channel u message false = false) ->
  hypeCalls (send_copies cfg channel message senders st) =
    hypeCalls st ++ [(channel, message)] /\
  messageQueues (send_copies cfg channel message senders st) !! channel = Some [].
Proof.
  intros Hw Hlen HT Hf.
  destruct (exists_last (l := senders)) as (front & u & ->).
  { intros ->. simpl in Hlen. lia. }
  rewrite length_app in Hlen. simpl in Hlen.
  unfold send_copies. rewrite fold_left_app. cbn [fold_left].
  fold (send_copies cfg channel message front st).
  destruct (copies_below_threshold front st 0) as [Hw' Hh'];
    [exact Hw | lia | intros v Hv; apply Hf, elem_of_app; now left |].
  unfold enqueueChatMessage. cbn [effective_message].
  rewrite (Hf u) by (apply elem_of_app; right; now left).
  rewrite enqueue_unfiltered_hype, enqueue_unfiltered_queues, lookup_insert_eq.
  rewrite Hw', Hh', hype_after_copy, window_after_copy by lia.
  cbn [Nat.add].
  destruct (HYPE_THRESHOLD cfg <=? S (length front))%nat eqn:E;
    [auto | apply Nat.leb_gt in E; lia].
Qed.

(** Copies of [__proto__] are never counted: whatever their number and
    whatever the threshold, no hype call is made for them. *)
Lemma hype_after_proto j :
  hype_after cfg proto_key (replicate j proto_key) = None.
Proof.
  unfold hype_after, evict. destruct (in_length_bounds cfg proto_key); [| reflexivity].
  destruct (HYPE_MAX_QUEUE_LEN cfg <=? _)%nat.
  - destruct j; cbn [replicate tail]; [apply (scan_proto_only _ 1) |].
    rewrite replicate_snoc. apply scan_proto_only.
  - rewrite replicate_snoc. apply scan_proto_only.
Qed.

Lemma evict_replicate (x : string) j :
  exists j', evict cfg (replicate j x) = replicate j' x.
Proof.
  unfold evict. destruct (_ <=? _)%nat; [| now exists j].
  destruct j as [|j]; [now exists 0%nat | now exists j].
Qed.

Lemma window_after_proto j :
  exists j', window_after cfg proto_key (replicate j proto_key) = replicate j' proto_key.
Proof.
  unfold window_after. rewrite hype_after_proto.
  destruct (evict_replicate proto_key j) as [j' ->].
  destruct (in_length_bounds cfg proto_key); [| now exists j'].
  exists (S j'). apply replicate_snoc.
Qed.

Lemma proto_copies_never_hype senders : forall st j,
  window channel st = replicate j proto_key ->
  hypeCalls (send_copies cfg channel proto_key senders st) = hypeCalls st.
Proof.
  induction senders as [|u senders IH]; intros st j Hw; [reflexivity |].
  cbn [send_copies fold_left].
  fold (send_copies cfg channel proto_key senders
          (enqueueChatMessage cfg channel u proto_key false None st)).
  unfold enqueueChatMessage. cbn [effective_message].
  destruct (filterEnqueueMessage cfg channel u proto_key false); [now apply (IH st j) |].
  destruct (window_after_proto j) as [j' Hj].
  rewrite (IH _ j'), enqueue_unfiltered_hype, Hw, hype_after_proto;
    [apply app_nil_r |].
  now rewrite window_enqueue_unfiltered, Hw.
Qed.

End Copies.

(** ** Distinct messages: first in, first out *)

Section Fifo.
Import Bot.
Local Open Scope list_scope.
Variable cfg : Config.
Hypothesis capacity : (1 <= HYPE_MAX_QUEUE_LEN cfg)%nat.
Hypothesis threshold : (2 <= HYPE_THRESHOLD cfg)%nat.

Lemma evict_sublist queue : evict cfg queue `sublist_of` queue.
Proof.
  unfold evict. destruct (_ <=? _)%nat; [| reflexivity].
  destruct queue; [reflexivity |]. cbn. now apply sublist_cons.
Qed.

Lemma fresh_message_no_hype message queue :
  in_length_bounds cfg message = true ->
  NoDup (queue ++ [message]) ->
  hype_after cfg message queue = None /\
  window_after cfg message queue = evict cfg queue ++ [message].
Proof.
  intros Hb Hnd.
  assert (H : hype_after cfg message queue = None).
  { unfold hype_after. rewrite Hb. apply scan_NoDup; [exact threshold | |].
    - eapply sublist_NoDup; [exact Hnd |].
      apply sublist_app; [apply evict_sublist | reflexivity].
    - intros x _. apply tally_empty. }
  split; [exact H |]. unfold window_after. now rewrite Hb, H.
Qed.

(** Keeping the last [HYPE_MAX_QUEUE_LEN] of a list, one message later. *)
Lemma evict_last l message :
  evict cfg (drop (length l - HYPE_MAX_QUEUE_LEN cfg) l) ++ [message] =
  drop (length (l ++ [message]) - HYPE_MAX_QUEUE_LEN cfg) (l ++ [message]).
Proof.
  unfold evict. rewrite length_drop, length_app. cbn [length].
  destruct (HYPE_MAX_QUEUE_LEN cfg <=? _)%nat eqn:E.
  - apply Nat.leb_le in E.
    replace (tail (drop (length l - HYPE_MAX_QUEUE_LEN cfg) l))
      with (drop 1 (drop (length l - HYPE_MAX_QUEUE_LEN cfg) l))
      by now destruct (drop _ l).
    rewrite drop_drop, drop_app_le by lia. f_equal. f_equal. lia.
  - apply Nat.leb_gt in E.
    replace (length l - HYPE_MAX_QUEUE_LEN cfg)%nat with 0%nat by lia.
    replace (length l + 1 - HYPE_MAX_QUEUE_LEN cfg)%nat with 0%nat by lia.
    reflexivity.
Qed.

(** Distinct messages into a window that holds the last messages of
    [earlier]: the window then holds the last [HYPE_MAX_QUEUE_LEN] of
    all of them, oldest first, and no hype call is made. *)
Lemma send_posts_fifo channel posts : forall st earlier,
  window channel st = drop (length earlier - HYPE_MAX_QUEUE_LEN cfg) earlier ->
  NoDup (earlier ++ map snd posts) ->
  (forall post, post ∈ posts ->
     filterEnqueueMessage cfg channel (fst post) (snd post) false = false /\
     in_length_bounds cfg (snd post) = true) ->
  let all := earlier ++ map snd posts in
  window channel (send_posts cfg channel posts st) =
    drop (length all - HYPE_MAX_QUEUE_LEN cfg) all /\
  hypeCalls (send_posts cfg channel posts st) = hypeCalls st.
Proof.
  induction posts as [|[u m] posts IH]; intros st earlier Hw Hnd Hok.
  { cbn. now rewrite app_nil_r. }
  cbn [map snd] in *. cbn zeta.
  replace (earlier ++ m :: map snd posts)
    with ((earlier ++ [m]) ++ map snd posts) in * by now rewrite <- app_assoc.
  destruct (Hok (u, m)) as [Hf Hb]; [now left |]. cbn [fst snd] in Hf, Hb.
  assert (Hnd' : NoDup (window channel st ++ [m])).
  { rewrite Hw. apply NoDup_app in Hnd as [Hnd _].
    eapply sublist_NoDup; [exact Hnd |].
    apply sublist_app; [apply sublist_drop | reflexivity]. }
  destruct (fresh_message_no_hype m _ Hb Hnd') as [Hh Hwa].
  cbn [send_posts fold_left fst snd].
  unfold enqueueChatMessage at 2 4. cbn [effective_message]. rewrite Hf.
  fold (send_posts cfg channel posts (enqueue_unfiltered cfg channel u m st)).
  destruct (IH (enqueue_unfiltered cfg channel u m st) (earlier ++ [m]))
    as [IH1 IH2].
  - rewrite window_enqueue_unfiltered, Hwa, Hw. apply evict_last.
  - exact Hnd.
  - intros post Hp. apply Hok. now right.
  - split; [exact IH1 |].
    rewrite IH2, enqueue_unfiltered_hype, Hh. apply app_nil_r.
Qed.

End Fifo.

(** ** The window: capacity, eviction, emotes *)

Section WindowClaims.
Import Bot.
Local Open Scope list_scope.

(** Every revision has a capacity of at least one and a threshold of at
    least two that fits in the capacity. *)
Lemma revisions_configured :
  Forall (fun cfg => (1 <= HYPE_MAX_QUEUE_LEN cfg)%nat /\
                     (2 <= HYPE_THRESHOLD cfg)%nat /\
                     (HYPE_THRESHOLD cfg <= HYPE_MAX_QUEUE_LEN cfg)%nat)
         [cfg_app_js; cfg_sqlite; cfg_sqlite_early; cfg_mongo].
Proof. repeat constructor; cbn; lia. Qed.

(** [enqueueChatMessage] of [app.js], which has no filter, takes no
    emote and records no statistics. *)
Lemma enqueueChatMessage_app_js channel username message isModerator st :
  enqueueChatMessage cfg_app_js channel username message isModerator None st =
    enqueue_unfiltered cfg_app_js channel username message st /\
  statsCalls (enqueueChatMessage cfg_app_js channel username message isModerator None st) =
    statsCalls st.
Proof.
  split; [reflexivity |].
  unfold enqueueChatMessage, enqueue_unfiltered, detectHype. cbn.
  destruct (in_length_bounds cfg_app_js message); [| reflexivity].
  rewrite lookup_insert_eq. now destruct (scan _ _ _).
Qed.

(** C3. With a capacity of at least one and a threshold of at least two
    (every revision has both), no window is ever longer than
    [HYPE_MAX_QUEUE_LEN], whatever messages and disposals happen; and
    [HYPE_MAX_QUEUE_LEN + 1] distinct messages that pass the filter and
    the length bounds, sent to a channel whose window is empty, leave in
    it the last [HYPE_MAX_QUEUE_LEN] of them, oldest first. *)
Theorem window_bounded_and_fifo (cfg : Config) :
  (1 <= HYPE_MAX_QUEUE_LEN cfg)%nat ->
  (2 <= HYPE_THRESHOLD cfg)%nat ->
  (forall events channel,
     (length (window channel (run cfg events initial)) <= HYPE_MAX_QUEUE_LEN cfg)%nat) /\
  (forall channel posts st,
     window channel st = [] ->
     NoDup (map snd posts) ->
     length posts = S (HYPE_MAX_QUEUE_LEN cfg) ->
     (forall post, post ∈ posts ->
        filterEnqueueMessage cfg channel (fst post) (snd post) false = false /\
        in_length_bounds cfg (snd post) = true) ->
     window channel (send_posts cfg channel posts st) = tail (map snd posts) /\
     length (window channel (send_posts cfg channel posts st)) = HYPE_MAX_QUEUE_LEN cfg).
Proof.
  intros HK HT. split.
  - intros events channel. apply run_bounded; [exact HK |].
    intros ch. unfold window, initial. cbn. rewrite lookup_empty. cbn. lia.
  - intros channel posts st Hw Hnd Hlen Hok.
    destruct (send_posts_fifo cfg HK HT channel posts st []) as [H _];
      [now rewrite Hw | exact Hnd | exact Hok |].
    cbn [app] in H. rewrite H.
    assert (Hl : length (map snd posts) = S (HYPE_MAX_QUEUE_LEN cfg))
      by now rewrite length_map.
    rewrite Hl.
    replace (S (HYPE_MAX_QUEUE_LEN cfg) - HYPE_MAX_QUEUE_LEN cfg)%nat with 1%nat by lia.
    destruct (map snd posts) as [|m rest]; [discriminate |].
    cbn in *. rewrite drop_0. split; [reflexivity | lia].
Qed.

(** C8. A message that passes the filter but whose body is outside the
    length bounds, arriving when the channel's window is at capacity,
    still evicts the oldest entry: the window loses its head, gains
    nothing, and no hype call is made. *)
Theorem out_of_range_message_evicts (cfg : Config)
    (channel username message : string) (isModerator : bool)
    (emote : option string) (st : state) (queue : list string) :
  (1 <= HYPE_MAX_QUEUE_LEN cfg)%nat ->
  filterEnqueueMessage cfg channel username
    (effective_message message emote) isModerator = false ->
  in_length_bounds cfg (effective_message message emote) = false ->
  messageQueues st !! channel = Some queue ->
  (HYPE_MAX_QUEUE_LEN cfg <= length queue)%nat ->
  let st' := enqueueChatMessage cfg channel username message isModerator emote st in
  messageQueues st' !! channel = Some (tail queue) /\
  S (length (tail queue)) = length queue /\
  hypeCalls st' = hypeCalls st.
Proof.
  intros HK Hf Hb Hq Hfull st'. subst st'. unfold enqueueChatMessage.
  rewrite Hf, enqueue_unfiltered_queues, enqueue_unfiltered_hype, lookup_insert_eq.
  unfold window_after, hype_after, window, evict. rewrite Hb, Hq. cbn [default from_option id].
  apply Nat.leb_le in Hfull as E. rewrite E.
  repeat split; [| apply app_nil_r].
  destruct queue; cbn in *; lia.
Qed.

Lemma substring_length s : forall n m,
  (n + m <= String.length s)%nat -> String.length (String.substring n m s) = m.
Proof.
  induction s as [|c s IH]; intros n m H; cbn in H.
  - assert (n = 0 /\ m = 0)%nat as [-> ->] by lia. reflexivity.
  - destruct n as [|n]; [destruct m as [|m] |]; cbn; [reflexivity | |].
    + f_equal. apply (IH 0%nat). lia.
    + apply IH. lia.
Qed.

Lemma substring_zero s : forall n, String.substring n 0 s = "".
Proof.
  induction s as [|c s IH]; intros [|n]; cbn; try reflexivity. apply IH.
Qed.

(** [substring(start, end + 1)] on a span that lies in the string. *)
Lemma substring_span s start end_ :
  (start <= end_)%nat -> (end_ < String.length s)%nat ->
  JS.substring s start (end_ + 1) = String.substring start (end_ - start + 1) s /\
  JS.truthy (JS.substring s start (end_ + 1)) = true.
Proof.
  intros H1 H2. unfold JS.substring.
  assert (E : JS.substring s start (end_ + 1) =
              String.substring start (end_ - start + 1) s).
  { unfold JS.substring.
    rewrite (Nat.min_l start), (Nat.min_l (end_ + 1)), Nat.min_l, Nat.max_r by lia.
    f_equal. lia. }
  fold (JS.substring s start (end_ + 1)). split; [exact E |].
  unfold JS.truthy. rewrite E.
  destruct (String.substring start (end_ - start + 1) s) eqn:Es; [| reflexivity].
  apply (f_equal String.length) in Es. rewrite substring_length in Es by lia.
  cbn in Es. lia.
Qed.

(** C9. When a chat event carries an emote whose span lies in the body,
    the text of the first emote's span takes the place of the body before
    anything else is done: the filter, the length check, the window and
    the detector see the emote text, and the event is handled exactly
    as an event without emotes whose body is that text. *)
Theorem emote_replaces_message (cfg : Config) (msg : PRIVMSG)
    (start end_ : nat) (others : list (nat * nat)) (st : state) :
  msg_emotes msg = (start, end_) :: others ->
  (start <= end_)%nat ->
  (end_ < String.length (msg_message msg))%nat ->
  let emote := String.substring start (end_ - start + 1) (msg_message msg) in
  let channel := JS.remove_first "#" (msg_channel msg) in
  String.length emote = (end_ - start + 1)%nat /\
  on_PRIVMSG cfg msg st =
    (if filterEnqueueMessage cfg channel (msg_username msg) emote (msg_isModerator msg)
     then st
     else enqueue_unfiltered cfg channel (msg_username msg) emote st) /\
  on_PRIVMSG cfg msg st =
    on_PRIVMSG cfg
      (mkPRIVMSG (msg_channel msg) (msg_username msg) emote (msg_isModerator msg) [])
      st /\
  (filterEnqueueMessage cfg channel (msg_username msg) emote (msg_isModerator msg) = false ->
   window channel (on_PRIVMSG cfg msg st) = window_after cfg emote (window channel st)).
Proof.
  intros He H1 H2 emote channel.
  destruct (substring_span (msg_message msg) start end_ H1 H2) as [E Ht].
  assert (Hon : on_PRIVMSG cfg msg st =
    (if filterEnqueueMessage cfg channel (msg_username msg) emote (msg_isModerator msg)
     then st
     else enqueue_unfiltered cfg channel (msg_username msg) emote st)).
  { unfold on_PRIVMSG, enqueueChatMessage, effective_message.
    rewrite He, Ht, E. reflexivity. }
  repeat split.
  - apply substring_length. lia.
  - exact Hon.
  - rewrite Hon. reflexivity.
  - intros Hf. rewrite Hon, Hf. apply window_enqueue_unfiltered.
Qed.

(** An emote whose span starts at or after the end of the body gives
    the empty string, which is falsy: the body is kept. *)
Lemma emote_empty_span_ignored (cfg : Config) (msg : PRIVMSG)
    (start end_ : nat) (others : list (nat * nat)) (st : state) :
  msg_emotes msg = (start, end_) :: others ->
  (String.length (msg_message msg) <= start)%nat ->
  (start <= end_)%nat ->
  on_PRIVMSG cfg msg st =
  on_PRIVMSG cfg
    (mkPRIVMSG (msg_channel msg) (msg_username msg) (msg_message msg)
       (msg_isModerator msg) [])
    st.
Proof.
  intros He H Hse. unfold on_PRIVMSG, enqueueChatMessage, effective_message.
  rewrite He. cbn [msg_emotes msg_message msg_channel msg_username msg_isModerator].
  assert (E : JS.substring (msg_message msg) start (end_ + 1) = "").
  { unfold JS.substring.
    rewrite (Nat.min_r start), (Nat.min_r (end_ + 1)), Nat.min_id, Nat.max_id,
      Nat.sub_diag by lia.
    apply substring_zero. }
  rewrite E. reflexivity.
Qed.

End WindowClaims.

(** ** Worked cases *)

Section WorkedCases.
Import Bot.
Local Open Scope list_scope.

Lemma window_bounded_and_fifo_witness :
  (length (window "squishy_life"
     (run cfg_sqlite
        [Chat "squishy_life" "ann" "POG" false None; Disposal;
         Chat "squishy_life" "bob" "POG" false None] initial)) <= 8)%nat /\
  window "squishy_life"
    (send_posts cfg_sqlite "squishy_life"
       [("ann", "m1"); ("bob", "m2"); ("cat", "m3"); ("dan", "m4"); ("eve", "m5");
        ("fay", "m6"); ("gus", "m7"); ("hal", "m8"); ("ivy", "m9")] initial) =
  ["m2"; "m3"; "m4"; "m5"; "m6"; "m7"; "m8"; "m9"].
Proof.
  destruct (window_bounded_and_fifo cfg_sqlite) as [Hb Hf];
    [cbn; lia | cbn; lia |].
  split; [apply Hb |].
  apply Hf.
  - reflexivity.
  - apply (bool_decide_unpack _). vm_compute. exact I.
  - reflexivity.
  - intros post Hp.
    repeat (apply elem_of_cons in Hp as [-> | Hp]; [vm_compute; auto |]).
    inversion Hp.
Defined.

Lemma out_of_range_message_evicts_witness :
  let st := mkState {["squishy_life" := ["a"; "b"; "c"; "d"; "e"; "f"; "g"; "h"]]} [] [] in
  let st' := enqueueChatMessage cfg_sqlite "squishy_life" "ann" "" false None st in
  messageQueues st' !! "squishy_life" = Some ["b"; "c"; "d"; "e"; "f"; "g"; "h"] /\
  S (length ["b"; "c"; "d"; "e"; "f"; "g"; "h"]) =
    length ["a"; "b"; "c"; "d"; "e"; "f"; "g"; "h"] /\
  hypeCalls st' = [].
Proof.
  apply (out_of_range_message_evicts cfg_sqlite "squishy_life" "ann" "" false None
           (mkState {["squishy_life" := ["a"; "b"; "c"; "d"; "e"; "f"; "g"; "h"]]} [] [])
           ["a"; "b"; "c"; "d"; "e"; "f"; "g"; "h"]).
  - cbn. lia.
  - vm_compute. reflexivity.
  - vm_compute. reflexivity.
  - vm_compute. reflexivity.
  - cbn. lia.
Defined.

Lemma emote_replaces_message_witness :
  let msg := mkPRIVMSG "#squishy_life" "ann" "hello Kappa friends" false [(6, 10)] in
  on_PRIVMSG cfg_sqlite msg initial =
    on_PRIVMSG cfg_sqlite (mkPRIVMSG "#squishy_life" "ann" "Kappa" false []) initial /\
  window "squishy_life" (on_PRIVMSG cfg_sqlite msg initial) = ["Kappa"].
Proof.
  destruct (emote_replaces_message cfg_sqlite
              (mkPRIVMSG "#squishy_life" "ann" "hello Kappa friends" false [(6, 10)])
              6 10 [] initial) as (_ & _ & H1 & H2).
  - reflexivity.
  - lia.
  - cbn. lia.
  - split; [exact H1 |].
    refine (eq_trans (H2 _) _); vm_compute; reflexivity.
Defined.

(** C1. Three users post the body [__proto__] in a channel of the
    SQLite revision, whose threshold is three. The body passes the filter
    and the length bounds, yet no hype call is made and the three copies
    stay in the window; the same three posts with the body [POG] raise
    one hype call and leave the window empty. *)
Theorem proto_copies_raise_no_hype :
  let senders := ["ann"; "bob"; "cat"] in
  let st := send_copies cfg_sqlite "squishy_life" "__proto__" senders initial in
  let st' := send_copies cfg_sqlite "squishy_life" "POG" senders initial in
  length senders = HYPE_THRESHOLD cfg_sqlite /\
  forallb (fun u => negb (filterEnqueueMessage cfg_sqlite "squishy_life" u "__proto__" false))
    senders = true /\
  in_length_bounds cfg_sqlite "__proto__" = true /\
  hypeCalls st = [] /\
  messageQueues st !! "squishy_life" = Some ["__proto__"; "__proto__"; "__proto__"] /\
  hypeCalls st' = [("squishy_life", "POG")] /\
  messageQueues st' !! "squishy_life" = Some [].
Proof. vm_compute. repeat split. Qed.

(** C2. In the window of three [__proto__] followed by three [a], the
    body [__proto__] has its third copy at the third place and [a] at the
    sixth, and the scan of the SQLite revision stops at [a]: the body
    that reached three copies first is passed over. The window arises
    from six posts, and the sixth raises the hype call for [a]. *)
Theorem scan_passes_over_proto :
  let w := ["__proto__"; "__proto__"; "__proto__"; "a"; "a"; "a"] in
  let st := send_posts cfg_sqlite "squishy_life"
              [("ann", "__proto__"); ("bob", "__proto__"); ("cat", "__proto__");
               ("dan", "a"); ("eve", "a")] initial in
  occurrences (take 3 w) "__proto__" = HYPE_THRESHOLD cfg_sqlite /\
  occurrences (take 5 w) "a" = 2%nat /\
  scan (HYPE_THRESHOLD cfg_sqlite) ∅ w = Some "a" /\
  window "squishy_life" st = take 5 w /\
  hypeCalls st = [] /\
  hypeCalls (enqueueChatMessage cfg_sqlite "squishy_life" "fay" "a" false None st) =
    [("squishy_life", "a")].
Proof. vm_compute. repeat split. Qed.

(** C6. The body [http://google.com/x], from a user who is neither a
    moderator nor on the ignore list, is not rejected by the filter of
    the SQLite revision, whose pattern lost its backslashes; the filter
    of the MongoDB revisions, whose pattern kept them, rejects it, the
    whole body being in the language of that pattern. The same goes for
    a link to a video on the chat's own site. *)
Theorem uri_pattern_misses_plain_url :
  Filter.filterEnqueueMessage "squishy_life" "ann" "http://google.com/x" false = false /\
  Regex.test Filter.REGEX_CONTAINS_URI "http://google.com/x" = false /\
  Filter.filterEnqueueMessage_mongo "squishy_life" "ann" "http://google.com/x" false = true /\
  Regex.lang Filter.REGEX_CONTAINS_URI_mongo "http://google.com/x" /\
  Filter.filterEnqueueMessage "squishy_life" "ann" "https://www.twitch.tv/videos/1" false = false /\
  Filter.filterEnqueueMessage_mongo "squishy_life" "ann" "https://www.twitch.tv/videos/1" false = true.
Proof.
  split; [vm_compute; reflexivity |]. split; [vm_compute; reflexivity |].
  split; [vm_compute; reflexivity |].
  split; [apply matches_lang; vm_compute; reflexivity |].
  split; vm_compute; reflexivity.
Qed.

End WorkedCases.

(** ** The throttle *)

Section ThrottleFacts.
Import Throttle.
Local Open Scope Z_scope.
Local Open Scope list_scope.
Variable A : Type.
Variable wait : Z.

Local Abbreviation state := (Throttle.state A).
Local Abbreviation event := (Throttle.event A).

(** A timer never calls the throttled function, and leaves the two
    times the decision uses as they are. *)
Lemma timer_keeps (st : state) (time : Z) :
  invoked (step wait st (Timer time)) = invoked st /\
  lastInvokeTime (step wait st (Timer time)) = lastInvokeTime st /\
  lastCallTime (step wait st (Timer time)) = lastCallTime st.
Proof.
  cbn [step]. destruct (timerId st); [| auto].
  unfold timerExpired, trailingEdge, trailing.
  destruct (shouldInvoke wait time st); cbn; auto.
Qed.

Lemma timers_never_invoke (later : list event) : forall st : state,
  forallb is_timer later = true ->
  invoked (run wait later st) = invoked st.
Proof.
  induction later as [|e later IH]; intros st H; [reflexivity |].
  cbn in H. apply andb_true_iff in H as [He H].
  destruct e as [|time]; [discriminate |].
  cbn [run fold_left]. fold (run wait later (step wait st (Timer time))).
  rewrite IH by exact H. apply timer_keeps.
Qed.

(** A call that [shouldInvoke] accepts runs the function at once. *)
Lemma call_dispatched (st : state) (time : Z) (args : A) :
  shouldInvoke wait time st = true ->
  invoked (debounced wait time args st) = invoked st ++ [(time, args)] /\
  lastInvokeTime (debounced wait time args st) = time /\
  lastCallTime (debounced wait time args st) = Some time.
Proof.
  intros H. unfold debounced. rewrite H. cbn.
  destruct (timerId st); cbn; auto.
Qed.

(** A call made [wait] or more after the last run of the function is
    accepted. *)
Lemma call_after_window (st : state) (time : Z) :
  lastInvokeTime st + wait <= time -> shouldInvoke wait time st = true.
Proof.
  intros H. unfold shouldInvoke, maxWait. rewrite Z.max_id.
  destruct (lastCallTime st); [| reflexivity].
  assert (E : (wait <=? time - lastInvokeTime st) = true) by (apply Z.leb_le; lia).
  rewrite E. apply orb_true_r.
Qed.

(** A call made less than [wait] after the last run of the function,
    the clock not having gone back, is dropped: nothing runs and the
    time of the last run stays. *)
Lemma call_dropped (st : state) (time lastCall : Z) (args : A) :
  lastCallTime st = Some lastCall ->
  lastInvokeTime st <= lastCall <= time ->
  time < lastInvokeTime st + wait ->
  invoked (debounced wait time args st) = invoked st /\
  lastInvokeTime (debounced wait time args st) = lastInvokeTime st /\
  lastCallTime (debounced wait time args st) = Some time.
Proof.
  intros Hc Ho Hw.
  assert (H : shouldInvoke wait time st = false).
  { unfold shouldInvoke, maxWait. rewrite Hc, Z.max_id.
    rewrite !orb_false_iff. repeat split; [apply Z.leb_gt | apply Z.ltb_ge | apply Z.leb_gt]; lia. }
  unfold debounced. rewrite H. cbn. destruct (timerId st); cbn; auto.
Qed.

(** Events in the window that follows a run of the function. *)
Lemma window_is_quiet (within : list event) : forall (st : state) (last lastCall : Z),
  lastCallTime st = Some lastCall ->
  lastInvokeTime st <= lastCall <= last ->
  in_time_order last within ->
  (forall e, e ∈ within -> time_of e < lastInvokeTime st + wait) ->
  invoked (run wait within st) = invoked st.
Proof.
  induction within as [|e within IH]; intros st last lastCall Hc Ho Hord Hw;
    [reflexivity |].
  cbn [in_time_order] in Hord. destruct Hord as [Hle Hord].
  assert (Hwe : time_of e < lastInvokeTime st + wait) by (apply Hw; now left).
  cbn [run fold_left]. fold (run wait within (step wait st e)).
  destruct e as [time args | time]; cbn [time_of] in *.
  - destruct (call_dropped st time lastCall args Hc ltac:(lia) Hwe) as (Hi & Hl & Hc').
    cbn [step]. rewrite (IH _ time time Hc'), Hi; [reflexivity | lia | exact Hord |].
    intros e He. rewrite Hl. apply Hw. now right.
  - destruct (timer_keeps st time) as (Hi & Hl & Hc').
    rewrite (IH _ time lastCall), Hi; [reflexivity | congruence | lia | exact Hord |].
    intros e He. rewrite Hl. apply Hw. now right.
Qed.

Lemma run_app (es1 es2 : list event) (st : state) :
  run wait (es1 ++ es2) st = run wait es2 (run wait es1 st).
Proof. apply fold_left_app. Qed.

End ThrottleFacts.

Section ThrottleClaim.
Import Throttle.
Local Open Scope Z_scope.
Local Open Scope list_scope.

(** C4. Once a hype call has run the function at time [t], every call
    made before [t + wait] (the clock not going back) is dropped, and no
    timer, then or later, runs the function in its place: the log of runs
    stays what it was right after [t]. In particular, of two calls less
    than [wait] apart made on a fresh throttle, the first runs and the
    second never does. *)
Theorem throttle_drops_calls_in_window (A : Type) (wait : Z) :
  (forall (before : list (event A)) (t : Z) (args : A)
          (within later : list (event A)),
     shouldInvoke wait t (run wait before initial) = true ->
     in_time_order t within ->
     (forall e, e ∈ within -> time_of e < t + wait) ->
     forallb is_timer later = true ->
     invoked (run wait (before ++ Call t args :: within ++ later) initial) =
     invoked (run wait before initial) ++ [(t, args)]) /\
  (forall (t1 t2 : Z) (args1 args2 : A) (later : list (event A)),
     t1 <= t2 -> t2 < t1 + wait ->
     forallb is_timer later = true ->
     invoked (run wait (Call t1 args1 :: Call t2 args2 :: later) initial) =
     [(t1, args1)]).
Proof.
  assert (G : forall (before : list (event A)) (t : Z) (args : A)
          (within later : list (event A)),
     shouldInvoke wait t (run wait before initial) = true ->
     in_time_order t within ->
     (forall e, e ∈ within -> time_of e < t + wait) ->
     forallb is_timer later = true ->
     invoked (run wait (before ++ Call t args :: within ++ later) initial) =
     invoked (run wait before initial) ++ [(t, args)]).
  { intros before t args within later Hs Hord Hw Hl.
    rewrite run_app. cbn [run fold_left].
    fold (run wait (within ++ later)
            (step wait (run wait before initial) (Call t args))).
    rewrite run_app, timers_never_invoke by exact Hl.
    destruct (call_dispatched A wait (run wait before initial) t args Hs)
      as (Hi & Hli & Hc).
    cbn [step]. rewrite (window_is_quiet A wait within _ t t Hc), Hi;
      [reflexivity | lia | exact Hord |].
    intros e He. rewrite Hli. now apply Hw. }
  split; [exact G |].
  intros t1 t2 args1 args2 later H1 H2 Hl.
  apply (G [] t1 args1 [Call t2 args2] later).
  - reflexivity.
  - cbn. auto.
  - intros e He. apply list_elem_of_singleton in He as ->. exact H2.
  - exact Hl.
Qed.

Lemma throttle_drops_calls_in_window_witness :
  invoked (run 20000
    (Call 1000 ("squishy_life", "POG") :: Call 9000 ("northernlion", "LUL") ::
     [Timer 21000; Timer 33000]) initial) =
  [(1000, ("squishy_life", "POG"))].
Proof.
  apply (proj2 (throttle_drops_calls_in_window (string * string) 20000)).
  - lia.
  - lia.
  - reflexivity.
Defined.

End ThrottleClaim.

(** ** The limiter *)

Section LimiterFacts.
Import Limiter.
Local Open Scope Z_scope.
Local Open Scope list_scope.
Variable A : Type.
Variable throws : A -> bool.
Variable wait : Z.

Local Abbreviation state := (Limiter.state A).
Local Abbreviation event := (Limiter.event A).

Lemma spaced_snoc (w : Z) (times : list Z) (now : Z) :
  spaced w times ->
  (forall t, last times = Some t -> t + w <= now) ->
  spaced w (times ++ [now]).
Proof.
  induction times as [|t1 [|t2 times] IH]; intros Hs Hl.
  - exact I.
  - cbn. split; [apply Hl; reflexivity | exact I].
  - cbn [app spaced] in *. destruct Hs as [H12 Hs]. split; [exact H12 |].
    apply IH; [exact Hs | exact Hl].
Qed.

Lemma spaced_weaken (w d : Z) (times : list Z) :
  w <= d -> spaced d times -> spaced w times.
Proof.
  intros Hle. induction times as [|t1 [|t2 times] IH]; intros Hs; [exact I | exact I |].
  cbn [spaced] in *. destruct Hs as [H12 Hs]. split; [lia | now apply IH].
Qed.

(** [setTimeout] waits as long as it is asked to, unless it is asked
    for more than [TIMEOUT_MAX]. *)
Lemma setTimeout_delay_ge : wait <= TIMEOUT_MAX -> wait <= setTimeout_delay wait.
Proof.
  unfold setTimeout_delay. intros H.
  destruct (Z.ltb_spec wait 1); [cbn; lia |].
  destruct (Z.ltb_spec TIMEOUT_MAX wait); cbn; lia.
Qed.

Lemma last_time_snoc (st : state) (now : Z) (call : A) :
  last (map fst (executed st ++ [(now, call)])) = Some now.
Proof. rewrite map_app. cbn. apply last_snoc. Qed.

Lemma initial_invariant (start : Z) : invariant throws wait [] (initial start : state).
Proof. cbn. repeat split; auto. discriminate. Qed.

(** Every event that can happen keeps the invariant; a submitted call
    joins the submitted ones. *)
Lemma step_invariant (submitted : list A) (st st' : state) (e : event) :
  invariant throws wait submitted st ->
  step throws wait st e = Some st' ->
  invariant throws wait (submitted ++ enqueued [e]) st' /\ clock st' = time_of e.
Proof.
  intros (Hq & Hs & Hb) Hstep. unfold step in Hstep.
  destruct (time_of e <? clock st) eqn:Hclock; [discriminate |].
  apply Z.ltb_ge in Hclock.
  destruct e as [now call | now]; cbn [time_of enqueued] in *.
  - injection Hstep as <-. unfold enqueue, caller. cbn.
    destruct (isCalled st) eqn:Hbusy.
    + destruct (calls st ++ [call]) eqn:Ec; [now destruct (calls st) |].
      rewrite <- Ec. cbn. unfold invariant. cbn.
      rewrite app_assoc, Hq. repeat split; auto.
    + destruct Hb as (Ht & Hc & Hl). rewrite Hc in *. cbn.
      rewrite app_nil_r in Hq.
      assert (Hsp : spaced (setTimeout_delay wait)
                      (map fst (executed st ++ [(now, call)]))).
      { rewrite map_app. apply spaced_snoc; [exact Hs |]. intros t Hlast.
        specialize (Hl t Hlast). cbn. lia. }
      destruct (throws call) eqn:Hthrow; unfold invariant, last_time;
        cbn [isCalled calls timers executed clock].
      * split; [| reflexivity].
        split; [rewrite map_app, app_nil_r; cbn; now rewrite Hq |].
        split; [exact Hsp |].
        right. split; [exact Ht |]. exists (now, call).
        split; [apply last_snoc | exact Hthrow].
      * split; [| reflexivity].
        split; [rewrite map_app, app_nil_r; cbn; now rewrite Hq |].
        split; [exact Hsp |].
        left. exists now. split; [apply last_time_snoc | now rewrite Ht].
  - destruct (timers st) as [|due rest] eqn:Ht; [discriminate |].
    destruct (due <=? now) eqn:Hdue; [| discriminate].
    apply Z.leb_le in Hdue. injection Hstep as <-.
    destruct (isCalled st) eqn:Hbusy; [| now destruct Hb].
    destruct Hb as [(t & Hlast & Hd) | (Hd & _)]; [| discriminate].
    injection Hd as -> ->.
    unfold timeout_callback, caller. cbn. rewrite app_nil_r.
    destruct (calls st) as [|call queue] eqn:Ec; cbn.
    + unfold invariant, last_time. cbn.
      repeat split; auto. intros t' Ht'.
      unfold last_time in Hlast. rewrite Hlast in Ht'. injection Ht' as <-. exact Hdue.
    + assert (Hsp : spaced (setTimeout_delay wait)
                      (map fst (executed st ++ [(now, call)]))).
      { rewrite map_app. apply spaced_snoc; [exact Hs |]. intros t' Ht'.
        unfold last_time in Hlast. rewrite Hlast in Ht'. injection Ht' as <-.
        exact Hdue. }
      destruct (throws call) eqn:Hthrow; unfold invariant, last_time;
        cbn [isCalled calls timers executed clock].
      * split; [| reflexivity].
        split; [rewrite map_app, <- app_assoc; exact Hq |].
        split; [exact Hsp |].
        right. split; [reflexivity |]. exists (now, call).
        split; [apply last_snoc | exact Hthrow].
      * split; [| reflexivity].
        split; [rewrite map_app, <- app_assoc; exact Hq |].
        split; [exact Hsp |].
        left. exists now. split; [apply last_time_snoc | reflexivity].
Qed.

Lemma enqueued_app (es1 es2 : list event) :
  enqueued (es1 ++ es2) = enqueued es1 ++ enqueued es2.
Proof.
  induction es1 as [|[now call | now] es1 IH]; cbn; [reflexivity | | exact IH].
  now rewrite IH.
Qed.

Lemma run_invariant (events : list event) : forall (submitted : list A) (st st' : state),
  invariant throws wait submitted st ->
  run throws wait events st = Some st' ->
  invariant throws wait (submitted ++ enqueued events) st'.
Proof.
  induction events as [|e events IH]; intros submitted st st' Hinv Hrun.
  - injection Hrun as <-. cbn. now rewrite app_nil_r.
  - cbn [run] in Hrun.
    destruct (step throws wait st e) as [st1|] eqn:Hstep; [| discriminate].
    destruct (step_invariant submitted st st1 e Hinv Hstep) as [Hinv1 _].
    change (e :: events) with ([e] ++ events).
    rewrite enqueued_app, app_assoc. now apply (IH _ st1).
Qed.

Lemma run_app_Some (es1 es2 : list event) (st st1 : state) :
  run throws wait es1 st = Some st1 ->
  run throws wait (es1 ++ es2) st = run throws wait es2 st1.
Proof.
  revert st. induction es1 as [|e es1 IH]; intros st H; cbn in *.
  - now injection H as <-.
  - destruct (step throws wait st e); [now apply IH | discriminate].
Qed.

(** When every submitted call returns, a busy limiter has its timer. *)
Lemma invariant_returns (submitted : list A) (st : state) :
  invariant throws wait submitted st ->
  Forall (fun call => throws call = false) submitted ->
  isCalled st = true ->
  exists t, last_time st = Some t /\ timers st = [t + setTimeout_delay wait].
Proof.
  intros (Hq & _ & Hb) Hret Hbusy. rewrite Hbusy in Hb.
  destruct Hb as [Hb | (_ & made & Hlast & Hthrow)]; [exact Hb |]. exfalso.
  rewrite Forall_forall in Hret. rewrite (Hret (snd made)) in Hthrow; [discriminate |].
  rewrite <- Hq. apply elem_of_app. left.
  apply list_elem_of_fmap_2. apply last_Some in Hlast as (l' & ->).
  apply elem_of_app. right. now left.
Qed.

(** A limiter that is busy without a timer stays so: the calls
    submitted to it join the queue and none is made. *)
Lemma stuck_for_ever (later : list event) : forall st st' : state,
  isCalled st = true -> timers st = [] ->
  run throws wait later st = Some st' ->
  executed st' = executed st /\ calls st' = calls st ++ enqueued later /\
  isCalled st' = true /\ timers st' = [].
Proof.
  induction later as [|e later IH]; intros st st' Hbusy Ht Hrun; cbn [run] in Hrun.
  { injection Hrun as <-. cbn. now rewrite app_nil_r. }
  destruct (step throws wait st e) as [st1|] eqn:Hstep; [| discriminate].
  unfold step in Hstep. destruct (time_of e <? clock st); [discriminate |].
  destruct e as [now call | now]; [| rewrite Ht in Hstep; discriminate].
  injection Hstep as <-.
  assert (E : enqueue throws wait now call
                (mkState A (isCalled st) (calls st) (timers st) (executed st) now) =
              mkState A true (calls st ++ [call]) [] (executed st) now).
  { unfold enqueue, caller. cbn. rewrite Hbusy, Ht. cbn.
    now destruct (calls st ++ [call]). }
  rewrite E in Hrun.
  destruct (IH (mkState A true (calls st ++ [call]) [] (executed st) now) st'
              eq_refl eq_refl Hrun) as (H1 & H2 & H3 & H4).
  cbn in H1, H2. cbn [enqueued]. rewrite <- app_assoc in H2. auto.
Qed.

Lemma enqueued_drain (n : nat) : forall st : state,
  enqueued (drain throws wait n st) = [].
Proof.
  induction n as [|n IH]; intros st; cbn; [reflexivity |].
  destruct (timers st); [reflexivity |].
  destruct (step throws wait st _); [cbn; apply IH | reflexivity].
Qed.

(** When every submitted call returns, a limiter with calls queued is
    busy, its timer does fire, and as many timers as there are calls
    queued make all of them. *)
Lemma drain_runs (n : nat) : forall (submitted : list A) (st : state),
  Forall (fun call => throws call = false) submitted ->
  invariant throws wait submitted st ->
  length (calls st) = n ->
  exists st', run throws wait (drain throws wait n st) st = Some st' /\
              invariant throws wait submitted st' /\ calls st' = [].
Proof.
  induction n as [|n IH]; intros submitted st Hret Hinv Hlen.
  - exists st. split; [reflexivity |]. split; [exact Hinv |].
    now destruct (calls st).
  - destruct (isCalled st) eqn:Hbusy.
    2:{ destruct Hinv as (_ & _ & Hb). rewrite Hbusy in Hb.
        destruct Hb as (_ & Hc & _). rewrite Hc in Hlen. discriminate. }
    destruct (invariant_returns submitted st Hinv Hret Hbusy) as (t & Hlast & Ht).
    cbn [drain]. rewrite Ht.
    set (now := Z.max (t + setTimeout_delay wait) (clock st)).
    destruct (step throws wait st (Timeout now)) as [st1|] eqn:Hstep.
    + destruct (step_invariant submitted st st1 _ Hinv Hstep) as [Hinv1 _].
      cbn [enqueued] in Hinv1. rewrite app_nil_r in Hinv1.
      assert (Hlen1 : length (calls st1) = n).
      { unfold step in Hstep. cbn [time_of] in Hstep.
        destruct (now <? clock st); [discriminate |].
        rewrite Ht in Hstep.
        destruct (t + setTimeout_delay wait <=? now); [| discriminate].
        injection Hstep as <-. unfold timeout_callback, caller. cbn.
        destruct (calls st) as [|call queue]; [discriminate |]. cbn in *.
        destruct (throws call); cbn; lia. }
      destruct (IH submitted st1 Hret Hinv1 Hlen1) as (st' & Hrun & Hinv' & Hc').
      exists st'. cbn [run]. rewrite Hstep. auto.
    + exfalso. unfold step in Hstep. cbn [time_of] in Hstep.
      destruct (now <? clock st) eqn:E1; [apply Z.ltb_lt in E1; lia |].
      rewrite Ht in Hstep.
      destruct (t + setTimeout_delay wait <=? now) eqn:E2;
        [discriminate | apply Z.leb_gt in E2; lia].
Qed.

End LimiterFacts.

Section LimiterClaim.
Import Limiter.
Local Open Scope Z_scope.
Local Open Scope list_scope.

(** C5. Whatever calls are submitted to a limiter and whenever, with a
    wait that [setTimeout] takes as it is and the timers firing no
    earlier than they are due: the calls it has made, followed by the
    calls it still holds, are the submitted calls in the order of
    submission; calls made one after the other are at least [wait]
    apart; it has at most one timer pending, and none and nothing queued
    when it is not busy; and when every submitted call returns, letting
    its timer fire as many times as it holds calls makes every submitted
    call, in order, none lost. *)
Theorem limiter_in_order_spaced_lossless (A : Type) (throws : A -> bool)
    (wait start : Z) (events : list (event A)) (st : state A) :
  wait <= TIMEOUT_MAX ->
  run throws wait events (initial start) = Some st ->
  map snd (executed st) ++ calls st = enqueued events /\
  spaced wait (map fst (executed st)) /\
  (length (timers st) <= 1)%nat /\
  (isCalled st = false -> timers st = [] /\ calls st = []) /\
  (Forall (fun call => throws call = false) (enqueued events) ->
   (calls st <> [] -> isCalled st = true /\ length (timers st) = 1%nat) /\
   exists st',
     run throws wait (events ++ drain throws wait (length (calls st)) st)
         (initial start) = Some st' /\
     map snd (executed st') = enqueued events /\
     calls st' = [] /\
     spaced wait (map fst (executed st'))).
Proof.
  intros Hwait Hrun.
  pose proof (run_invariant A throws wait events [] _ st
                (initial_invariant A throws wait start) Hrun) as Hinv.
  cbn [app] in Hinv.
  pose proof (setTimeout_delay_ge wait Hwait) as Hge.
  pose proof Hinv as (Hq & Hs & Hb).
  split; [exact Hq |]. split; [exact (spaced_weaken _ _ _ Hge Hs) |].
  split; [| split].
  - destruct (isCalled st);
      [destruct Hb as [(t & _ & ->) | (-> & _)]; cbn; lia |].
    destruct Hb as (-> & _); cbn; lia.
  - intros Hidle. rewrite Hidle in Hb. now destruct Hb as (Ht & Hc & _).
  - intros Hret.
    destruct (drain_runs A throws wait (length (calls st)) _ st Hret Hinv eq_refl)
      as (st' & Hrun' & Hinv' & Hc').
    split.
    + intros Hne. destruct (isCalled st) eqn:Hbusy.
      * destruct (invariant_returns A throws wait _ st Hinv Hret Hbusy) as (t & _ & ->).
        auto.
      * destruct Hb as (_ & Hc & _). contradiction.
    + exists st'. rewrite (run_app_Some A throws wait _ _ _ _ Hrun).
      split; [exact Hrun' |].
      destruct Hinv' as (Hq' & Hs' & _). rewrite Hc', app_nil_r in Hq'.
      split; [exact Hq' |]. split; [exact Hc' |]. exact (spaced_weaken _ _ _ Hge Hs').
Qed.

Lemma limiter_in_order_spaced_lossless_witness :
  exists st,
    run (fun _ => false) 1500
        [Enqueue 0 "a"; Enqueue 10 "b"; Enqueue 20 "c"; Timeout 1500]
        (initial 0) = Some st /\
    executed st = [(0, "a"); (1500, "b")] /\
    calls st = ["c"] /\
    exists st',
      run (fun _ => false) 1500
          ([Enqueue 0 "a"; Enqueue 10 "b"; Enqueue 20 "c"; Timeout 1500] ++
           drain (fun _ => false) 1500 1 st) (initial 0) = Some st' /\
      map snd (executed st') = ["a"; "b"; "c"].
Proof.
  eexists. split; [reflexivity |]. split; [reflexivity |]. split; [reflexivity |].
  destruct (limiter_in_order_spaced_lossless string (fun _ => false) 1500 0
              [Enqueue 0 "a"; Enqueue 10 "b"; Enqueue 20 "c"; Timeout 1500] _
              ltac:(unfold TIMEOUT_MAX; lia) eq_refl)
    as (_ & _ & _ & _ & H).
  destruct H as (_ & st' & H1 & H2 & _); [repeat constructor |].
  exists st'. split; [exact H1 | exact H2].
Defined.

(** C5, the two cases left out above. A call that raises an exception
    leaves the limiter busy with no timer: the call submitted after it
    joins the queue and is never made, whatever comes later. And a wait
    above [TIMEOUT_MAX] is one millisecond to [setTimeout]: two calls
    are made one millisecond apart. *)
Lemma limiter_stuck_after_a_throw :
  let throws := fun call : string => String.eqb call "boom" in
  run throws 1500 [Enqueue 0 "boom"; Enqueue 10 "b"] (initial 0) =
    Some (mkState string true ["b"] [] [(0, "boom")] 10) /\
  (forall later st',
     run throws 1500 ([Enqueue 0 "boom"; Enqueue 10 "b"] ++ later) (initial 0) =
       Some st' ->
     executed st' = [(0, "boom")] /\ calls st' = "b" :: enqueued later) /\
  run (fun _ : string => false) 2147483648
      [Enqueue 0 "a"; Enqueue 0 "b"; Timeout 1] (initial 0) =
    Some (mkState string true [] [2] [(0, "a"); (1, "b")] 1) /\
  ~ spaced 2147483648 [0; 1].
Proof.
  cbv zeta. split; [reflexivity |]. split; [| split; [reflexivity |]].
  - intros later st' Hrun.
    rewrite (run_app_Some string (fun call => String.eqb call "boom") 1500
               [Enqueue 0 "boom"; Enqueue 10 "b"] later
               (initial 0) (mkState string true ["b"] [] [(0, "boom")] 10) eq_refl)
      in Hrun.
    destruct (stuck_for_ever string (fun call => String.eqb call "boom") 1500 later
                (mkState string true ["b"] [] [(0, "boom")] 10) st' eq_refl eq_refl Hrun)
      as (H1 & H2 & _).
    split; [exact H1 | exact H2].
  - cbn. lia.
Qed.

End LimiterClaim.

(** ** The sentiment window *)

Section SentimentFacts.
Import Sentiment.
Local Open Scope list_scope.

Lemma prefix_iff (needle hay : string) :
  String.prefix needle hay = true <-> exists post, hay = (needle ++ post)%string.
Proof.
  revert hay. induction needle as [|c needle IH]; intros hay.
  - split; [intros _; now exists hay | now destruct hay].
  - destruct hay as [|d hay]; cbn;
      [split; [discriminate | intros (post & E); discriminate] |].
    destruct (Ascii.ascii_dec c d) as [<- | Hne].
    + rewrite IH. split; intros (post & E); exists post;
        [now rewrite E | now injection E].
    + split; [discriminate | intros (post & E); congruence].
Qed.

(** [includes] finds the needle anywhere in the string. *)
Lemma includes_iff (hay needle : string) :
  JS.includes hay needle = true <->
  exists pre post, hay = (pre ++ needle ++ post)%string.
Proof.
  induction hay as [|c hay IH]; cbn [JS.includes];
    rewrite orb_true_iff, prefix_iff.
  - split.
    + intros [(post & E) | H]; [| discriminate]. now exists "", post.
    + intros (pre & post & E). left. symmetry in E.
      apply str_app_eq_nil in E as [-> E]. eauto.
  - rewrite IH. split.
    + intros [(post & E) | (pre & post & ->)].
      * now exists "", post.
      * now exists (String c pre), post.
    + intros (pre & post & E). destruct pre as [|d pre]; cbn in E.
      * left. eauto.
      * injection E as <- ->. right. eauto.
Qed.

Lemma count_types_spec (window : list (Z * string)) : forall p n,
  count_types window (p, n) =
  (p + count_kind "+2" window, n + count_kind "-2" window)%nat.
Proof.
  unfold count_kind.
  induction window as [|[time type] window IH]; intros p n; cbn [count_types snd].
  - cbn. now rewrite !Nat.add_0_r.
  - cbn [List.filter snd].
    destruct (String.eqb_spec type "+2") as [-> | Hp].
    + rewrite IH. cbn. f_equal. lia.
    + destruct (String.eqb_spec type "-2") as [-> | Hn]; rewrite IH; cbn;
        f_equal; lia.
Qed.

Lemma count_kind_filter (kind : string) (keep : Z * string -> bool)
    (window : list (Z * string)) :
  (count_kind kind (List.filter keep window) <= count_kind kind window)%nat.
Proof.
  unfold count_kind. induction window as [|msg window IH]; cbn; [lia |].
  destruct (keep msg); cbn; destruct (String.eqb (snd msg) kind); cbn; lia.
Qed.

Lemma count_kind_app (kind : string) (w1 w2 : list (Z * string)) :
  count_kind kind (w1 ++ w2) = (count_kind kind w1 + count_kind kind w2)%nat.
Proof. unfold count_kind. now rewrite List.filter_app, length_app. Qed.

(** The window after an evaluation, and the moving average it records. *)
Lemma updateMessageWindow_spec (now : Z) (type : string) (st : state) :
  let st' := updateMessageWindow now type st in
  messageWindow st' =
    List.filter (fun msg => (now - WINDOW_SIZE_MS <=? fst msg)%Z)
      (messageWindow st ++ [(now, type)]) /\
  movingAverages st' =
    movingAverages st ++
    [(2 * Z.of_nat (count_kind "+2" (messageWindow st')) -
      2 * Z.of_nat (count_kind "-2" (messageWindow st')))%Z].
Proof.
  intros st'. subst st'. unfold updateMessageWindow.
  rewrite count_types_spec. cbn [messageWindow movingAverages Nat.add].
  assert (E : List.filter (fun msg => (now - fst msg <=? WINDOW_SIZE_MS)%Z)
                (messageWindow st ++ [(now, type)]) =
              List.filter (fun msg => (now - WINDOW_SIZE_MS <=? fst msg)%Z)
                (messageWindow st ++ [(now, type)])).
  { apply List.filter_ext. intros msg.
    destruct (Z.leb_spec (now - fst msg) WINDOW_SIZE_MS),
             (Z.leb_spec (now - WINDOW_SIZE_MS) (fst msg)); try reflexivity; lia. }
  rewrite E. split; [reflexivity |]. f_equal. f_equal. lia.
Qed.

(** C7. An evaluation at [now], for a new event or for the periodic
    tick, first appends its own entry, then keeps exactly the entries
    whose time is not before [now - WINDOW_SIZE_MS], in their order, and
    records as moving average twice the number of [+2] entries kept minus
    twice the number of [-2] entries kept. *)
Theorem sentiment_window_pruned_and_scored (now : Z) (type : string) (st : state) :
  let st' := updateMessageWindow now type st in
  messageWindow st' =
    List.filter (fun msg => (now - WINDOW_SIZE_MS <=? fst msg)%Z)
      (messageWindow st ++ [(now, type)]) /\
  (forall msg, In msg (messageWindow st') <->
     In msg (messageWindow st ++ [(now, type)]) /\
     ~ (fst msg < now - WINDOW_SIZE_MS)%Z) /\
  movingAverages st' =
    movingAverages st ++
    [(2 * Z.of_nat (count_kind "+2" (messageWindow st')) -
      2 * Z.of_nat (count_kind "-2" (messageWindow st')))%Z] /\
  tick now st = updateMessageWindow now "" st.
Proof.
  intros st'. destruct (updateMessageWindow_spec now type st) as [Hw Ha].
  fold st' in Hw, Ha.
  split; [exact Hw |]. split; [| split; [exact Ha | reflexivity]].
  intros msg. rewrite Hw, List.filter_In, Z.leb_le.
  split; intros [H1 H2]; (split; [exact H1 | lia]).
Qed.

(** An evaluation leaves the daily counters alone. *)
Lemma updateMessageWindow_counters (now : Z) (type : string) (st : state) :
  dailyPositiveCount (updateMessageWindow now type st) = dailyPositiveCount st /\
  dailyNegativeCount (updateMessageWindow now type st) = dailyNegativeCount st.
Proof.
  unfold updateMessageWindow. destruct (count_types _ _). split; reflexivity.
Qed.

(** C10. A message that passes the filter and whose lower-cased body
    holds both [+2] and [-2] counts as positive only: the daily positive
    counter goes up by one, the negative one stays, and the one entry
    the window gains is a [+2] at the current time. *)
Theorem positive_marker_has_priority (now : Z)
    (channel username message : string) (isModerator : bool)
    (emote : option string) (st : Bot.state * state) :
  let body := Bot.effective_message message emote in
  Bot.filterEnqueueMessage Bot.cfg_mongo channel username body isModerator = false ->
  JS.includes (JS.toLowerCase body) "+2" = true ->
  JS.includes (JS.toLowerCase body) "-2" = true ->
  let st' := enqueueChatMessage now channel username message isModerator emote st in
  dailyPositiveCount (snd st') = S (dailyPositiveCount (snd st)) /\
  dailyNegativeCount (snd st') = dailyNegativeCount (snd st) /\
  messageWindow (snd st') =
    List.filter (fun msg => (now - WINDOW_SIZE_MS <=? fst msg)%Z)
      (messageWindow (snd st) ++ [(now, "+2")]) /\
  In (now, "+2") (messageWindow (snd st')) /\
  (count_kind "-2" (messageWindow (snd st')) <=
   count_kind "-2" (messageWindow (snd st)))%nat.
Proof.
  intros body Hf Hp Hn st'. subst st' body. unfold enqueueChatMessage.
  rewrite Hf, Hp. cbn [snd].
  destruct (updateMessageWindow_spec now "+2"
              (mkState (S (dailyPositiveCount (snd st))) (dailyNegativeCount (snd st))
                       (messageWindow (snd st)) (movingAverages (snd st))))
    as (Hw & _).
  cbn [messageWindow] in Hw.
  destruct (updateMessageWindow_counters now "+2"
              (mkState (S (dailyPositiveCount (snd st))) (dailyNegativeCount (snd st))
                       (messageWindow (snd st)) (movingAverages (snd st))))
    as (Hcp & Hcn).
  split; [exact Hcp |]. split; [exact Hcn |]. split; [exact Hw |]. split.
  - rewrite Hw. apply List.filter_In. split; [apply in_or_app; right; now left |].
    cbn [fst]. apply Z.leb_le. unfold WINDOW_SIZE_MS. lia.
  - rewrite Hw. etransitivity; [apply count_kind_filter |].
    rewrite count_kind_app. cbn. lia.
Qed.

Lemma positive_marker_has_priority_witness :
  let st := enqueueChatMessage 5000 "northernlion" "ann" "+2 no wait -2" false None
              (Bot.initial, initial) in
  dailyPositiveCount (snd st) = 1%nat /\
  dailyNegativeCount (snd st) = 0%nat /\
  messageWindow (snd st) = [(5000%Z, "+2")].
Proof.
  destruct (positive_marker_has_priority 5000 "northernlion" "ann" "+2 no wait -2"
              false None (Bot.initial, initial)) as (H1 & H2 & H3 & _).
  - vm_compute. reflexivity.
  - vm_compute. reflexivity.
  - vm_compute. reflexivity.
  - exact (conj H1 (conj H2 H3)).
Defined.

End SentimentFacts.

(** * Further properties *)

(** ** The scan and the window over whole runs *)

Section MoreScan.
Import Bot.
Local Open Scope list_scope.

Lemma scan_member T : forall w mc m, scan T mc w = Some m -> m ∈ w.
Proof.
  intros w mc m H. apply scan_Some_iff in H as (p & s & -> & _).
  apply elem_of_app. right. now left.
Qed.

(** The scan finds nothing exactly when no counted message has, with
    what the table already holds, as many copies as the threshold. *)
Lemma scan_None_iff T : forall w mc,
  scan T mc w = None <->
  forall x, x <> proto_key -> x ∈ w -> (tally mc x + occurrences w x < T)%nat.
Proof.
  induction w as [|a w IH]; intros mc.
  { split; [intros _ x _ Hx; inversion Hx | reflexivity]. }
  rewrite scan_cons. destruct (String.eqb_spec a proto_key) as [-> | Ha].
  - rewrite IH. split; intros H x Hx Hin.
    + rewrite count_occ_cons_neq by congruence. apply H; [exact Hx |].
      apply elem_of_cons in Hin as [-> | Hin]; [contradiction | exact Hin].
    + specialize (H x Hx ltac:(now right)).
      rewrite count_occ_cons_neq in H by congruence. exact H.
  - destruct (T <=? S (tally mc a))%nat eqn:E.
    + apply Nat.leb_le in E. split; [discriminate |]. intros H.
      specialize (H a Ha ltac:(now left)).
      rewrite count_occ_cons_eq in H by reflexivity. lia.
    + apply Nat.leb_gt in E. rewrite IH. split; intros H x Hx Hin.
      * rewrite <- tally_bump.
        destruct (decide (x ∈ w)) as [Hw | Hw]; [now apply H |].
        apply elem_of_cons in Hin as [-> | Hin]; [| contradiction].
        rewrite tally_insert_eq.
        assert (E0 : occurrences w a = 0%nat)
          by (apply count_occ_not_In; rewrite <- list_elem_of_In; exact Hw).
        rewrite E0. lia.
      * rewrite tally_bump. apply H; [exact Hx | now right].
Qed.

Lemma occurrences_sublist (l1 l2 : list string) x :
  l1 `sublist_of` l2 -> (occurrences l1 x <= occurrences l2 x)%nat.
Proof.
  induction 1 as [| a l1 l2 _ IH | a l1 l2 _ IH]; [reflexivity | |].
  - destruct (String.string_dec a x) as [-> | Hne].
    + rewrite !count_occ_cons_eq by reflexivity. lia.
    + rewrite !count_occ_cons_neq by assumption. exact IH.
  - destruct (String.string_dec a x) as [-> | Hne].
    + rewrite count_occ_cons_eq by reflexivity. lia.
    + rewrite count_occ_cons_neq by assumption. exact IH.
Qed.

Lemma scan_None_sublist T (l1 l2 : list string) :
  l1 `sublist_of` l2 -> scan T ∅ l2 = None -> scan T ∅ l1 = None.
Proof.
  intros Hs H. apply scan_None_iff. intros x Hx Hin.
  rewrite scan_None_iff in H. specialize (H x Hx (elem_of_sublist _ _ _ Hin Hs)).
  pose proof (occurrences_sublist l1 l2 x Hs). lia.
Qed.

(** One more message on a window in which the scan finds nothing: the
    scan can only stop at that message, at the end. *)
Lemma scan_after_quiet T (q : list string) m x :
  scan T ∅ q = None -> scan T ∅ (q ++ [m]) = Some x ->
  x = m /\ x <> proto_key /\ (T <= occurrences q m + 1)%nat.
Proof.
  intros Hq H. apply scan_Some_iff in H as (p & s & E & Hx & HT & _).
  rewrite tally_empty in HT. cbn in HT.
  destruct s as [|y s _] using rev_ind.
  - apply app_inj_tail in E as [-> ->]. auto.
  - exfalso. rewrite app_comm_cons, app_assoc in E.
    apply app_inj_tail in E as [-> _].
    rewrite scan_None_iff in Hq.
    specialize (Hq x Hx ltac:(apply elem_of_app; right; now left)).
    rewrite tally_empty, count_occ_app, count_occ_cons_eq in Hq by reflexivity.
    cbn in Hq. lia.
Qed.

End MoreScan.

Section MoreWindows.
Import Bot.
Local Open Scope list_scope.
Variable cfg : Config.

Lemma run_snoc events e st :
  run cfg (events ++ [e]) st = step cfg (run cfg events st) e.
Proof. unfold run. now rewrite fold_left_app. Qed.

Lemma window_initial channel : window channel initial = [].
Proof. unfold window, initial. cbn. now rewrite lookup_empty. Qed.

Lemma in_window_after message queue x :
  x ∈ window_after cfg message queue ->
  x ∈ queue \/ (x = message /\ in_length_bounds cfg message = true).
Proof.
  unfold window_after. destruct (in_length_bounds cfg message) eqn:Hb.
  - destruct (hype_after cfg message queue); [intros H; inversion H |].
    intros H. apply elem_of_app in H as [H | H].
    + left. exact (elem_of_sublist _ _ _ H (evict_sublist cfg queue)).
    + right. apply list_elem_of_singleton in H. auto.
  - intros H. left. exact (elem_of_sublist _ _ _ H (evict_sublist cfg queue)).
Qed.

Lemma in_hype_after message queue x :
  hype_after cfg message queue = Some x ->
  in_length_bounds cfg message = true /\ (x ∈ queue \/ x = message).
Proof.
  unfold hype_after. destruct (in_length_bounds cfg message); [| discriminate].
  intros H. split; [reflexivity |]. apply scan_member in H.
  apply elem_of_app in H as [H | H].
  - left. exact (elem_of_sublist _ _ _ H (evict_sublist cfg queue)).
  - right. now apply list_elem_of_singleton in H.
Qed.

(** In a state where the scan finds nothing in a window, a message can
    only raise a hype call for its own body. *)
Lemma hype_after_quiet message queue x :
  scan (HYPE_THRESHOLD cfg) ∅ queue = None ->
  hype_after cfg message queue = Some x ->
  x = message /\ x <> proto_key /\
  (HYPE_THRESHOLD cfg <= occurrences queue message + 1)%nat.
Proof.
  intros Hq H. unfold hype_after in H.
  destruct (in_length_bounds cfg message); [| discriminate].
  pose proof (scan_None_sublist _ _ _ (evict_sublist cfg queue) Hq) as Hq'.
  destruct (scan_after_quiet _ _ _ _ Hq' H) as (-> & Hx & HT).
  repeat split; [exact Hx |].
  pose proof (occurrences_sublist _ _ message (evict_sublist cfg queue)). lia.
Qed.

Lemma window_after_quiet message queue :
  scan (HYPE_THRESHOLD cfg) ∅ queue = None ->
  scan (HYPE_THRESHOLD cfg) ∅ (window_after cfg message queue) = None.
Proof.
  intros Hq. unfold window_after.
  destruct (in_length_bounds cfg message) eqn:Hb.
  - destruct (hype_after cfg message queue) eqn:Hh; [reflexivity |].
    unfold hype_after in Hh. now rewrite Hb in Hh.
  - exact (scan_None_sublist _ _ _ (evict_sublist cfg queue) Hq).
Qed.

(** After every run, the scan finds nothing in any window. *)
Lemma run_quiet events : forall channel,
  scan (HYPE_THRESHOLD cfg) ∅ (window channel (run cfg events initial)) = None.
Proof.
  induction events as [|e events IH] using rev_ind; intros channel.
  { now rewrite window_initial. }
  rewrite run_snoc. set (st := run cfg events initial) in *.
  destruct e as [ch u msg isMod emote |]; cbn [step].
  - unfold enqueueChatMessage.
    destruct (filterEnqueueMessage cfg _ _ _ _); [apply IH |].
    destruct (String.string_dec ch channel) as [-> | Hne].
    + rewrite window_enqueue_unfiltered. apply window_after_quiet, IH.
    + rewrite window_enqueue_unfiltered_other by assumption. apply IH.
  - unfold dequeueDisposal, window. cbn. now rewrite lookup_empty.
Qed.

End MoreWindows.

Section WindowProperties.
Import Bot.
Local Open Scope list_scope.

(** X1. For every body other than [__proto__] that passes the filter
    and the length bounds, with a threshold of at least one that fits in
    the capacity: as many copies as the threshold, sent to a channel
    whose window is empty, raise exactly one hype call, for that channel
    and that body, and leave the window empty. *)
Theorem threshold_copies_raise_one_hype (cfg : Config)
    (channel message : string) (senders : list string) (st : state) :
  message <> proto_key ->
  in_length_bounds cfg message = true ->
  (1 <= HYPE_THRESHOLD cfg)%nat ->
  (HYPE_THRESHOLD cfg <= HYPE_MAX_QUEUE_LEN cfg)%nat ->
  window channel st = [] ->
  length senders = HYPE_THRESHOLD cfg ->
  (forall u, u ∈ senders -> filterEnqueueMessage cfg channel u message false = false) ->
  hypeCalls (send_copies cfg channel message senders st) =
    hypeCalls st ++ [(channel, message)] /\
  messageQueues (send_copies cfg channel message senders st) !! channel = Some [].
Proof.
  intros Hm Hb HT Hfit Hw Hlen Hf.
  exact (copies_reach_threshold cfg channel message Hm Hb Hfit senders st Hw Hlen HT Hf).
Qed.

Lemma threshold_copies_raise_one_hype_witness :
  hypeCalls (send_copies cfg_mongo "northernlion" "LUL"
               ["ann"; "bob"; "cat"; "dan"; "eve"] initial) =
    [("northernlion", "LUL")] /\
  messageQueues (send_copies cfg_mongo "northernlion" "LUL"
                   ["ann"; "bob"; "cat"; "dan"; "eve"] initial) !! "northernlion" =
    Some [].
Proof.
  apply (threshold_copies_raise_one_hype cfg_mongo "northernlion" "LUL"
           ["ann"; "bob"; "cat"; "dan"; "eve"] initial).
  - vm_compute. discriminate.
  - vm_compute. reflexivity.
  - cbn. lia.
  - cbn. lia.
  - reflexivity.
  - reflexivity.
  - intros u Hu.
    repeat (apply elem_of_cons in Hu as [-> | Hu]; [vm_compute; reflexivity |]).
    inversion Hu.
Defined.

(** X2. Fewer copies of a body than the threshold, whatever the body,
    sent to a channel whose window is empty, raise no hype call and are
    all kept in the window. *)
Theorem fewer_copies_raise_no_hype (cfg : Config)
    (channel message : string) (senders : list string) (st : state) :
  in_length_bounds cfg message = true ->
  (HYPE_THRESHOLD cfg <= HYPE_MAX_QUEUE_LEN cfg)%nat ->
  window channel st = [] ->
  (length senders < HYPE_THRESHOLD cfg)%nat ->
  (forall u, u ∈ senders -> filterEnqueueMessage cfg channel u message false = false) ->
  hypeCalls (send_copies cfg channel message senders st) = hypeCalls st /\
  window channel (send_copies cfg channel message senders st) =
    replicate (length senders) message.
Proof.
  intros Hb Hfit Hw Hlen Hf.
  destruct (String.string_dec message proto_key) as [-> | Hm].
  - split; [now apply (proto_copies_never_hype cfg channel senders st 0%nat) |].
    assert (G : forall senders st j,
      window channel st = replicate j proto_key ->
      (j + length senders < HYPE_THRESHOLD cfg)%nat ->
      (forall u, u ∈ senders ->
         filterEnqueueMessage cfg channel u proto_key false = false) ->
      window channel (send_copies cfg channel proto_key senders st) =
        replicate (j + length senders) proto_key).
    { clear senders st Hw Hlen Hf.
      induction senders as [|u senders IH]; intros st j Hw Hj Hf.
      { cbn. now rewrite Nat.add_0_r. }
      cbn [send_copies fold_left length] in *.
      unfold enqueueChatMessage at 2. cbn [effective_message].
      rewrite (Hf u) by now left.
      fold (send_copies cfg channel proto_key senders
              (enqueue_unfiltered cfg channel u proto_key st)).
      rewrite (IH _ (S j)); [f_equal; lia | | lia | intros v Hv; apply Hf; now right].
      rewrite window_enqueue_unfiltered, Hw. unfold window_after.
      rewrite Hb, hype_after_proto. unfold evict. rewrite length_replicate.
      destruct (HYPE_MAX_QUEUE_LEN cfg <=? j)%nat eqn:E;
        [apply Nat.leb_le in E; lia |].
      apply replicate_snoc. }
    now apply (G senders st 0%nat).
  - destruct (copies_below_threshold cfg channel message Hm Hb Hfit senders st 0%nat)
      as [H1 H2]; auto.
Qed.

Lemma fewer_copies_raise_no_hype_witness :
  hypeCalls (send_copies cfg_sqlite "squishy_life" "POG" ["ann"; "bob"] initial) = [] /\
  window "squishy_life" (send_copies cfg_sqlite "squishy_life" "POG" ["ann"; "bob"] initial) =
    ["POG"; "POG"].
Proof.
  apply (fewer_copies_raise_no_hype cfg_sqlite "squishy_life" "POG" ["ann"; "bob"] initial).
  - vm_compute. reflexivity.
  - cbn. lia.
  - reflexivity.
  - cbn. lia.
  - intros u Hu.
    repeat (apply elem_of_cons in Hu as [-> | Hu]; [vm_compute; reflexivity |]).
    inversion Hu.
Defined.

(** X3. On a window that does not hold the body [__proto__], the scan
    of [detectHype] finds nothing exactly when every body has fewer
    copies than the threshold, and otherwise returns the body at the
    first place where the number of copies seen so far reaches the
    threshold: no other body has that many copies any earlier, and what
    comes after that place is not looked at. *)
Theorem scan_returns_first_to_threshold (T : nat) (w : list string) :
  proto_key ∉ w ->
  (scan T ∅ w = None <-> forall x, x ∈ w -> (occurrences w x < T)%nat) /\
  (forall m,
     scan T ∅ w = Some m <->
     exists p s,
       w = p ++ m :: s /\ (T <= occurrences p m + 1)%nat /\
       forall p1 x p2, p = p1 ++ x :: p2 -> (occurrences p1 x + 1 < T)%nat) /\
  (forall m p s s',
     w = p ++ m :: s -> scan T ∅ w = Some m ->
     (T <= occurrences p m + 1)%nat ->
     proto_key ∉ s' ->
     scan T ∅ (p ++ m :: s') = Some m).
Proof.
  intros Hw. split; [| split].
  - rewrite scan_None_iff. split; intros H x.
    + intros Hx. specialize (H x). rewrite tally_empty in H. apply H; [| exact Hx].
      intros ->. contradiction.
    + intros _ Hx. rewrite tally_empty. now apply H.
  - intros m. now apply scan_first_to_threshold.
  - intros m p s s' -> H HT Hs'.
    apply scan_first_to_threshold in H as (p' & s0 & E & HT' & Hp'); [| exact Hw].
    apply scan_first_to_threshold.
    + intros Hin. apply elem_of_app in Hin as [Hin | Hin].
      * apply Hw. apply elem_of_app. now left.
      * apply elem_of_cons in Hin as [Hin | Hin]; [| contradiction].
        apply Hw. apply elem_of_app. right. rewrite Hin. now left.
    + destruct (Nat.lt_trichotomy (length p) (length p')) as [Hlt | [Heq | Hgt]].
      * destruct (app_eq_app_shorter p p' m m s s0 E Hlt) as [p2 ->].
        specialize (Hp' p m p2 eq_refl). lia.
      * assert (p = p') as <-.
        { apply (f_equal (take (length p))) in E.
          rewrite take_app_length in E. rewrite Heq in E.
          now rewrite take_app_length in E. }
        exists p, s'. auto.
      * symmetry in E.
        destruct (app_eq_app_shorter p' p m m s0 s E Hgt) as [p2 ->].
        exists p', (p2 ++ m :: s'). split; [now rewrite <- app_assoc | auto].
Qed.

Lemma scan_returns_first_to_threshold_witness :
  scan 2 ∅ ["a"; "b"; "b"; "a"] = Some "b" /\
  scan 2 ∅ ["a"; "b"; "c"] = None.
Proof.
  assert (H1 : proto_key ∉ ["a"; "b"; "b"; "a"])
    by (apply (bool_decide_unpack _); vm_compute; exact I).
  assert (H2 : proto_key ∉ ["a"; "b"; "c"])
    by (apply (bool_decide_unpack _); vm_compute; exact I).
  split.
  - apply (proj1 (proj2 (scan_returns_first_to_threshold 2 ["a"; "b"; "b"; "a"] H1)) "b").
    exists ["a"; "b"], ["a"]. split; [reflexivity |]. split; [cbn; lia |].
    intros [|y [|z p1]] x p2 E; inversion E; subst; cbn; try lia.
    destruct p1; discriminate.
  - apply (proj1 (scan_returns_first_to_threshold 2 ["a"; "b"; "c"] H2)).
    intros x Hx.
    repeat (apply elem_of_cons in Hx as [-> | Hx]; [cbn; lia |]).
    inversion Hx.
Defined.

End WindowProperties.

Section RunProperties.
Import Bot.
Local Open Scope list_scope.

(** X4. Whatever chat messages and disposals happen, every body held
    in a window and every body a hype call was made for was posted in
    that very channel, as the body (or first emote) of a message that
    passed the filter and the length bounds: nothing that the filter
    rejects, and no empty or over-long body, is ever counted or echoed. *)
Theorem windows_and_hype_hold_posted_bodies (cfg : Config) (events : list event)
    (channel body : string) :
  body ∈ window channel (run cfg events initial) \/
  (channel, body) ∈ hypeCalls (run cfg events initial) ->
  exists username message isModerator emote,
    Chat channel username message isModerator emote ∈ events /\
    effective_message message emote = body /\
    filterEnqueueMessage cfg channel username body isModerator = false /\
    in_length_bounds cfg body = true.
Proof.
  revert channel body.
  induction events as [|e events IH] using rev_ind; intros channel body H.
  { rewrite window_initial in H. destruct H as [H | H]; inversion H. }
  assert (Hold : body ∈ window channel (run cfg events initial) \/
                 (channel, body) ∈ hypeCalls (run cfg events initial) ->
    exists username message isModerator emote,
      Chat channel username message isModerator emote ∈ events ++ [e] /\
      effective_message message emote = body /\
      filterEnqueueMessage cfg channel username body isModerator = false /\
      in_length_bounds cfg body = true).
  { intros H'. destruct (IH channel body H') as (u & m & md & em & Hin & Hrest).
    exists u, m, md, em. split; [apply elem_of_app; now left | exact Hrest]. }
  rewrite run_snoc in H. set (st := run cfg events initial) in *.
  destruct e as [ch u msg isMod emote |]; cbn [step] in H.
  - unfold enqueueChatMessage in H.
    destruct (filterEnqueueMessage cfg ch u (effective_message msg emote) isMod) eqn:Hf;
      [now apply Hold |].
    assert (Hnew : ch = channel -> body = effective_message msg emote ->
                   in_length_bounds cfg body = true ->
      exists username message isModerator emote0,
        Chat channel username message isModerator emote0 ∈ events ++ [Chat ch u msg isMod emote] /\
        effective_message message emote0 = body /\
        filterEnqueueMessage cfg channel username body isModerator = false /\
        in_length_bounds cfg body = true).
    { intros -> -> Hb. exists u, msg, isMod, emote.
      split; [apply elem_of_app; right; now left | auto]. }
    destruct H as [H | H].
    + destruct (String.string_dec ch channel) as [-> | Hne].
      * rewrite window_enqueue_unfiltered in H.
        apply in_window_after in H as [H | [-> Hb]]; [apply Hold; now left |].
        now apply Hnew.
      * rewrite window_enqueue_unfiltered_other in H by assumption.
        apply Hold. now left.
    + rewrite enqueue_unfiltered_hype in H. apply elem_of_app in H as [H | H];
        [apply Hold; now right |].
      destruct (hype_after cfg (effective_message msg emote) (window ch st)) as [x|] eqn:Hh;
        [| inversion H].
      apply list_elem_of_singleton in H. injection H as -> ->.
      apply in_hype_after in Hh as [Hb [Hx | ->]]; [apply Hold; now left |].
      now apply Hnew.
  - apply Hold. destruct H as [H | H]; [| now right].
    unfold dequeueDisposal, window in H. cbn in H. rewrite lookup_empty in H.
    inversion H.
Qed.

Lemma windows_and_hype_hold_posted_bodies_witness :
  exists username message isModerator emote,
    Chat "squishy_life" username message isModerator emote ∈
      [Chat "squishy_life" "ann" "hello Kappa" false (Some "Kappa");
       Chat "squishy_life" "mod" "Kappa" true None] /\
    effective_message message emote = "Kappa" /\
    filterEnqueueMessage cfg_sqlite "squishy_life" username "Kappa" isModerator = false /\
    in_length_bounds cfg_sqlite "Kappa" = true.
Proof.
  apply (windows_and_hype_hold_posted_bodies cfg_sqlite
           [Chat "squishy_life" "ann" "hello Kappa" false (Some "Kappa");
            Chat "squishy_life" "mod" "Kappa" true None]
           "squishy_life" "Kappa").
  left. vm_compute. left.
Defined.

(** X5. In every state the bot can reach, a chat message either raises
    no hype call or raises exactly one, for its own channel and its own
    body: the bot only ever echoes the message just posted, and only
    when the window already held at least threshold minus one copies of
    it; the channel's window is empty right after. *)
Theorem hype_echoes_the_message_just_posted (cfg : Config) (events : list event)
    (channel username message : string) (isModerator : bool) (emote : option string) :
  let st := run cfg events initial in
  let st' := step cfg st (Chat channel username message isModerator emote) in
  let body := effective_message message emote in
  hypeCalls st' = hypeCalls st \/
  (hypeCalls st' = hypeCalls st ++ [(channel, body)] /\
   window channel st' = [] /\
   (HYPE_THRESHOLD cfg <= occurrences (window channel st) body + 1)%nat /\
   body <> proto_key /\
   filterEnqueueMessage cfg channel username body isModerator = false /\
   in_length_bounds cfg body = true).
Proof.
  intros st st' body. subst st'. cbn [step]. unfold enqueueChatMessage. fold body.
  destruct (filterEnqueueMessage cfg channel username body isModerator) eqn:Hf;
    [now left |].
  rewrite enqueue_unfiltered_hype, window_enqueue_unfiltered.
  destruct (hype_after cfg body (window channel st)) as [x|] eqn:Hh;
    [| left; apply app_nil_r].
  right.
  destruct (hype_after_quiet cfg body _ x (run_quiet cfg events channel) Hh)
    as (-> & Hx & HT).
  destruct (in_hype_after cfg _ _ _ Hh) as [Hb _].
  unfold window_after. rewrite Hb, Hh.
  split; [reflexivity |]. split; [reflexivity |]. split; [exact HT |].
  split; [exact Hx |]. split; reflexivity.
Qed.

(** X6. Windows are per channel: the window of a channel and the hype
    calls made for it after a run are those of the run restricted to the
    channel's own messages and the disposals. *)
Theorem channels_do_not_interfere (cfg : Config) (events : list event)
    (channel : string) (st : state) :
  window channel (run cfg events st) =
    window channel (run cfg (List.filter (about channel) events) st) /\
  hype_for channel (run cfg events st) =
    hype_for channel (run cfg (List.filter (about channel) events) st).
Proof.
  assert (G : forall events st1 st2,
    window channel st1 = window channel st2 ->
    hype_for channel st1 = hype_for channel st2 ->
    window channel (run cfg events st1) =
      window channel (run cfg (List.filter (about channel) events) st2) /\
    hype_for channel (run cfg events st1) =
      hype_for channel (run cfg (List.filter (about channel) events) st2)).
  { clear events st. induction events as [|e events IH]; intros st1 st2 Hw Hh.
    { auto. }
    cbn [List.filter run fold_left].
    fold (run cfg events (step cfg st1 e)).
    destruct e as [ch u msg isMod emote |]; cbn [about step].
    - destruct (String.eqb_spec ch channel) as [-> | Hne].
      + cbn [run fold_left step].
        fold (run cfg (List.filter (about channel) events)
                (enqueueChatMessage cfg channel u msg isMod emote st2)).
        unfold enqueueChatMessage.
        destruct (filterEnqueueMessage cfg channel u _ isMod); [now apply IH |].
        apply IH.
        * now rewrite !window_enqueue_unfiltered, Hw.
        * unfold hype_for in *.
          rewrite !enqueue_unfiltered_hype, !List.filter_app, Hh, Hw. reflexivity.
      + unfold enqueueChatMessage.
        destruct (filterEnqueueMessage cfg ch u _ isMod); [now apply IH |].
        apply IH.
        * now rewrite window_enqueue_unfiltered_other.
        * unfold hype_for in *. rewrite enqueue_unfiltered_hype, List.filter_app, Hh.
          destruct (hype_after cfg _ _); [| apply app_nil_r].
          cbn. apply String.eqb_neq in Hne. rewrite Hne. apply app_nil_r.
    - cbn [run fold_left step].
      fold (run cfg (List.filter (about channel) events) (dequeueDisposal st2)).
      apply IH; [| exact Hh].
      unfold window, dequeueDisposal. cbn. now rewrite !lookup_empty. }
  now apply G.
Qed.

End RunProperties.

(** ** The filters *)

Section FilterProperties.
Import Regex Filter.

(** X7. The filters of the SQLite and of the MongoDB revisions reject a
    message exactly when its sender is a moderator, or the sender's
    lower-cased name is [nightbot], or the body starts with [!], or some
    part of the body is in the language of the revision's own pattern;
    the first filter rejects exactly the moderators and the bodies that
    start with [!]. The channel plays no part. *)
Theorem filters_reject_exactly (channel username message : string)
    (isModerator : bool) :
  (filterEnqueueMessage channel username message isModerator = true <->
   isModerator = true \/ JS.toLowerCase username = "nightbot" \/
   JS.charAt message 0 = "!" \/
   exists s0 s1 s2, message = s0 ++ s1 ++ s2 /\ lang REGEX_CONTAINS_URI s1) /\
  (filterEnqueueMessage_mongo channel username message isModerator = true <->
   isModerator = true \/ JS.toLowerCase username = "nightbot" \/
   JS.charAt message 0 = "!" \/
   exists s0 s1 s2, message = s0 ++ s1 ++ s2 /\ lang REGEX_CONTAINS_URI_mongo s1) /\
  (filterEnqueueMessage_early channel username message isModerator = true <->
   isModerator = true \/ JS.charAt message 0 = "!").
Proof.
  assert (Hn : In (JS.toLowerCase username) HYPE_USER_IGNORE_LIST <->
               JS.toLowerCase username = "nightbot").
  { cbn. split; [intros [H | []]; now symmetry | intros H; left; now symmetry]. }
  split; [| split].
  - unfold filterEnqueueMessage. rewrite filterEnqueueMessage_with_iff, Hn. reflexivity.
  - unfold filterEnqueueMessage_mongo. rewrite filterEnqueueMessage_with_iff, Hn.
    reflexivity.
  - unfold filterEnqueueMessage_early. rewrite <- String.eqb_eq.
    destruct isModerator, (String.eqb (JS.charAt message 0) "!"); intuition discriminate.
Qed.

(** X8. The SQLite revision rejects a body for its URL only where the
    body has [://] followed by one of the units [w], [_] and [-]: the
    pattern, read from a literal with single backslashes, knows no other
    start of a host. *)
Theorem sqlite_pattern_needs_w_after_scheme (body : string) :
  test REGEX_CONTAINS_URI body = true ->
  exists pre c post, body = pre ++ "://" ++ String c post /\
                     (c = "w" \/ c = "_" \/ c = "-")%char.
Proof. apply REGEX_CONTAINS_URI_test. Qed.

Lemma sqlite_pattern_needs_w_after_scheme_witness :
  exists pre c post, "see http://w-w/w" = pre ++ "://" ++ String c post /\
                     (c = "w" \/ c = "_" \/ c = "-")%char.
Proof.
  apply (sqlite_pattern_needs_w_after_scheme "see http://w-w/w").
  vm_compute. reflexivity.
Defined.

End FilterProperties.

(** ** The throttle over whole runs *)

Section ThrottleRuns.
Import Throttle.
Local Open Scope Z_scope.
Local Open Scope list_scope.
Variable A : Type.
Variable wait : Z.

Local Abbreviation state := (Throttle.state A).
Local Abbreviation event := (Throttle.event A).

Lemma calls_of_app (es1 es2 : list event) :
  calls_of (es1 ++ es2) = calls_of es1 ++ calls_of es2.
Proof.
  induction es1 as [|[t a | t] es1 IH]; cbn; [reflexivity | | exact IH].
  now rewrite IH.
Qed.

(** A call that [shouldInvoke] refuses runs nothing. *)
Lemma call_refused (st : state) (time : Z) (args : A) :
  shouldInvoke wait time st = false ->
  invoked (debounced wait time args st) = invoked st /\
  lastInvokeTime (debounced wait time args st) = lastInvokeTime st /\
  lastCallTime (debounced wait time args st) = Some time.
Proof.
  intros H. unfold debounced. rewrite H. cbn. destruct (timerId st); cbn; auto.
Qed.

(** When a call is accepted, [wait] has passed since the last run. *)
Lemma throttle_ok_accepts (made : list (Z * A)) (clock time : Z) (st : state) :
  clock <= time -> throttle_ok wait made clock st ->
  shouldInvoke wait time st = true ->
  forall t, last (map fst (invoked st)) = Some t -> t + wait <= time.
Proof.
  intros Hle (_ & _ & Hlast & Hnone & Hlc) Hs t Ht.
  rewrite (Hlast t Ht). unfold shouldInvoke, maxWait in Hs.
  destruct (lastCallTime st) as [lc|] eqn:Elc.
  - specialize (Hlc lc eq_refl). rewrite Z.max_id in Hs.
    rewrite !orb_true_iff, !Z.leb_le, Z.ltb_lt in Hs. lia.
  - rewrite (Hnone eq_refl) in Ht. discriminate.
Qed.

Lemma throttle_ok_call (made : list (Z * A)) (clock time : Z) (args : A) (st : state) :
  clock <= time -> throttle_ok wait made clock st ->
  throttle_ok wait (made ++ [(time, args)]) time (debounced wait time args st).
Proof.
  intros Hle Hok. pose proof (throttle_ok_accepts made clock time st Hle Hok) as Hacc.
  destruct Hok as (Hsub & Hsp & Hlast & Hnone & Hlc).
  destruct (shouldInvoke wait time st) eqn:Hs.
  - destruct (call_dispatched A wait st time args Hs) as (Hi & Hli & Hlc').
    unfold throttle_ok. rewrite Hi, Hli, Hlc'.
    split; [now apply sublist_app |]. split; [| split; [| split]].
    + rewrite map_app. apply spaced_snoc; [exact Hsp | now apply Hacc].
    + intros t Ht. rewrite map_app in Ht. cbn [map fst] in Ht.
      rewrite last_snoc in Ht. now injection Ht as <-.
    + discriminate.
    + intros lc [= <-]. lia.
  - destruct (call_refused st time args Hs) as (Hi & Hli & Hlc').
    unfold throttle_ok. rewrite Hi, Hli, Hlc'.
    split; [now apply sublist_inserts_r |].
    split; [exact Hsp |]. split; [exact Hlast |]. split; [discriminate |].
    intros lc [= <-]. unfold shouldInvoke in Hs.
    destruct (lastCallTime st) as [lc|] eqn:Elc; [| discriminate].
    specialize (Hlc lc eq_refl). lia.
Qed.

Lemma throttle_ok_later (made : list (Z * A)) (clock time : Z) (st : state) :
  clock <= time -> throttle_ok wait made clock st -> throttle_ok wait made time st.
Proof.
  intros Hle (Hsub & Hsp & Hlast & Hnone & Hlc).
  split; [exact Hsub |]. split; [exact Hsp |]. split; [exact Hlast |].
  split; [exact Hnone |]. intros lc Hl. specialize (Hlc lc Hl). lia.
Qed.

Lemma throttle_ok_step (made : list (Z * A)) (clock : Z) (st : state) (e : event) :
  clock <= time_of e -> throttle_ok wait made clock st ->
  throttle_ok wait (made ++ calls_of [e]) (time_of e) (step wait st e).
Proof.
  intros Hle Hok. destruct e as [time args | time]; cbn [time_of calls_of] in *.
  - now apply (throttle_ok_call made clock).
  - rewrite app_nil_r.
    destruct (timer_keeps A wait st time) as (Hi & Hli & Hlc').
    destruct Hok as (Hsub & Hsp & Hlast & Hnone & Hlc).
    unfold throttle_ok. rewrite Hi, Hli, Hlc'.
    split; [exact Hsub |]. split; [exact Hsp |]. split; [exact Hlast |].
    split; [exact Hnone |]. intros lc Hl. specialize (Hlc lc Hl). lia.
Qed.

Lemma throttle_ok_run (events : list event) : forall (made : list (Z * A)) (clock : Z)
    (st : state),
  in_time_order clock events -> throttle_ok wait made clock st ->
  exists clock', throttle_ok wait (made ++ calls_of events) clock' (run wait events st).
Proof.
  induction events as [|e events IH]; intros made clock st Hord Hok.
  { exists clock. cbn. now rewrite app_nil_r. }
  destruct Hord as [Hle Hord]. cbn [run fold_left]. fold (run wait events (step wait st e)).
  change (e :: events) with ([e] ++ events). rewrite calls_of_app, app_assoc.
  apply (IH _ (time_of e)); [exact Hord | now apply (throttle_ok_step made clock)].
Qed.

Lemma throttle_ok_initial (clock : Z) : throttle_ok wait [] clock (initial : state).
Proof.
  unfold throttle_ok. cbn. repeat split; try discriminate. reflexivity.
Qed.

End ThrottleRuns.

Section ThrottleProperties.
Import Throttle.
Local Open Scope Z_scope.
Local Open Scope list_scope.

(** X9. With a clock that does not run backwards, whatever calls are
    made and whenever the timer fires, the runs of the throttled
    function are calls that were made, in the order they were made, and
    two runs are never less than [wait] apart: at most one hype message
    per throttle interval, over all channels together. *)
Theorem throttle_runs_are_calls_wait_apart (A : Type) (wait start : Z)
    (events : list (event A)) :
  in_time_order start events ->
  invoked (run wait events initial) `sublist_of` calls_of events /\
  Limiter.spaced wait (map fst (invoked (run wait events initial))).
Proof.
  intros Hord.
  destruct (throttle_ok_run A wait events [] start initial Hord
              (throttle_ok_initial A wait start)) as (clock & Hsub & Hsp & _).
  split; [exact Hsub | exact Hsp].
Qed.

Lemma throttle_runs_are_calls_wait_apart_witness :
  invoked (run 20000
             [Call 0 "a"; Timer 20000; Call 20000 "b"; Call 25000 "c"; Call 40000 "d"]
             initial) `sublist_of`
    [(0, "a"); (20000, "b"); (25000, "c"); (40000, "d")] /\
  Limiter.spaced 20000
    (map fst (invoked (run 20000
       [Call 0 "a"; Timer 20000; Call 20000 "b"; Call 25000 "c"; Call 40000 "d"]
       initial))).
Proof.
  apply (throttle_runs_are_calls_wait_apart string 20000 0
           [Call 0 "a"; Timer 20000; Call 20000 "b"; Call 25000 "c"; Call 40000 "d"]).
  cbn. lia.
Defined.

(** X10. The throttle loses nothing of a slow caller: when the calls
    are at least [wait] apart, each of them runs the function, at the
    time it is made, whenever the timer fires in between. *)
Theorem throttle_runs_every_slow_call (A : Type) (wait : Z) (events : list (event A)) :
  Limiter.spaced wait (map fst (calls_of events)) ->
  invoked (run wait events initial) = calls_of events.
Proof.
  assert (G : forall events (st : state A),
    Limiter.spaced wait (map fst (calls_of events)) ->
    (forall t, head (map fst (calls_of events)) = Some t ->
       forall lc, lastCallTime st = Some lc -> lc + wait <= t) ->
    invoked (run wait events st) = invoked st ++ calls_of events).
  { clear events. induction events as [|e events IH]; intros st Hsp Hfirst.
    { cbn. now rewrite app_nil_r. }
    cbn [run fold_left]. fold (run wait events (step wait st e)).
    destruct e as [time args | time]; cbn [calls_of map fst] in *.
    - assert (Hs : shouldInvoke wait time st = true).
      { unfold shouldInvoke. destruct (lastCallTime st) as [lc|] eqn:Elc; [| reflexivity].
        specialize (Hfirst time eq_refl lc eq_refl).
        assert (E : (wait <=? time - lc) = true) by (apply Z.leb_le; lia).
        now rewrite E. }
      destruct (call_dispatched A wait st time args Hs) as (Hi & _ & Hlc).
      cbn [step]. rewrite IH, Hi; [now rewrite <- app_assoc | |].
      + destruct (calls_of events); [exact I | now destruct Hsp].
      + intros t Ht lc Hl. rewrite Hlc in Hl. injection Hl as <-.
        destruct (calls_of events) as [|[t' a'] l]; [discriminate |].
        cbn in Ht. injection Ht as <-. now destruct Hsp.
    - destruct (timer_keeps A wait st time) as (Hi & _ & Hlc).
      rewrite IH, Hi; [reflexivity | exact Hsp |].
      intros t Ht lc Hl. rewrite Hlc in Hl. now apply (Hfirst t Ht). }
  intros Hsp. rewrite (G events initial Hsp); [reflexivity |].
  intros t _ lc Hl. discriminate.
Qed.

Lemma throttle_runs_every_slow_call_witness :
  invoked (run 10000 [Call 0 "a"; Call 10000 "b"; Timer 12000; Call 25000 "c"] initial) =
  [(0, "a"); (10000, "b"); (25000, "c")].
Proof.
  apply (throttle_runs_every_slow_call string 10000
           [Call 0 "a"; Call 10000 "b"; Timer 12000; Call 25000 "c"]).
  cbn. lia.
Defined.

End ThrottleProperties.

(** ** Disposal and the statistics calls over whole runs *)

Section RunFrames.
Import Bot.
Local Open Scope list_scope.
Variable cfg : Config.

Lemma bot_run_app (es1 es2 : list event) (st : state) :
  run cfg (es1 ++ es2) st = run cfg es2 (run cfg es1 st).
Proof. unfold run. apply fold_left_app. Qed.


(** A run only reads the windows of the state it starts from: the
    windows it leaves and the hype calls it adds are the same from two
    states with the same windows. *)
Lemma run_frame (events : list event) : forall st1 st2,
  messageQueues st1 = messageQueues st2 ->
  messageQueues (run cfg events st1) = messageQueues (run cfg events st2) /\
  exists new, hypeCalls (run cfg events st1) = hypeCalls st1 ++ new /\
              hypeCalls (run cfg events st2) = hypeCalls st2 ++ new.
Proof.
  induction events as [|e events IH]; intros st1 st2 Hq.
  { split; [exact Hq |]. exists []. now rewrite !app_nil_r. }
  cbn [run fold_left].
  fold (run cfg events (step cfg st1 e)). fold (run cfg events (step cfg st2 e)).
  assert (Hstep : messageQueues (step cfg st1 e) = messageQueues (step cfg st2 e) /\
                  exists new, hypeCalls (step cfg st1 e) = hypeCalls st1 ++ new /\
                              hypeCalls (step cfg st2 e) = hypeCalls st2 ++ new).
  { destruct e as [ch u msg isMod emote |]; cbn [step].
    - unfold enqueueChatMessage.
      destruct (filterEnqueueMessage cfg ch u _ isMod).
      + split; [exact Hq |]. exists []. now rewrite !app_nil_r.
      + rewrite !enqueue_unfiltered_queues, !enqueue_unfiltered_hype.
        unfold window. rewrite Hq. split; [reflexivity | eauto].
    - split; [reflexivity |]. exists []. cbn. now rewrite !app_nil_r. }
  destruct Hstep as (Hq' & new1 & H1 & H2).
  destruct (IH _ _ Hq') as (Hq'' & new2 & H3 & H4).
  split; [exact Hq'' |]. exists (new1 ++ new2).
  now rewrite H3, H4, H1, H2, <- !app_assoc.
Qed.


End RunFrames.

Section DisposalProperties.
Import Bot.
Local Open Scope list_scope.

(** X11. The disposal timer makes the bot forget: after a disposal the
    windows are those of a bot that has only seen what came after it,
    and the hype calls of the whole run are those raised before the
    disposal followed by those a fresh bot raises on the rest. Copies
    sent before a disposal never count together with copies sent after
    it. *)
Theorem disposal_restarts_the_count (cfg : Config) (before after : list event)
    (channel : string) :
  window channel (run cfg (before ++ Disposal :: after) initial) =
    window channel (run cfg after initial) /\
  hypeCalls (run cfg (before ++ Disposal :: after) initial) =
    hypeCalls (run cfg before initial) ++ hypeCalls (run cfg after initial).
Proof.
  rewrite bot_run_app. cbn [run fold_left step].
  fold (run cfg after (dequeueDisposal (run cfg before initial))).
  destruct (run_frame cfg after (dequeueDisposal (run cfg before initial)) initial
              eq_refl) as (Hq & new & H1 & H2).
  unfold window. rewrite Hq. split; [reflexivity |].
  rewrite H1. cbn in H2. rewrite H2. reflexivity.
Qed.

End DisposalProperties.

(** ** What the URL patterns accept *)

Section PatternShape.
Import Regex Filter.

Lemma lang_LitThen_intro s r t : lang r t -> lang (LitThen s r) (s ++ t).
Proof.
  intros H. induction s as [|c s IH]; cbn [LitThen]; [exact H |].
  change (String c s ++ t) with (String c "" ++ (s ++ t)).
  constructor; [| exact IH]. constructor. cbn. now rewrite Ascii.eqb_refl.
Qed.

Lemma lang_Star_units items l :
  all_units (fun c => class_mem c items) l = true -> lang (Star (Class items)) l.
Proof.
  induction l as [|c l IH]; cbn [all_units]; intros H; [constructor |].
  apply andb_true_iff in H as [Hc Hl].
  change (String c l) with (String c "" ++ l).
  constructor; [now constructor | now apply IH].
Qed.

Lemma lang_host_label w l : is_label w l = true -> lang (host_label w) l.
Proof.
  unfold is_label, host_label, Plus. intros H.
  apply andb_true_iff in H as [Hne H].
  destruct l as [|c l]; [discriminate |]. cbn [all_units] in H.
  apply andb_true_iff in H as [Hc Hl].
  change (String c l) with (String c "" ++ l).
  constructor; [now constructor | now apply lang_Star_units].
Qed.

Lemma lang_scheme s : In s ["http"; "ftp"; "https"] -> lang scheme s.
Proof.
  intros [<- | [<- | [<- | []]]]; unfold scheme.
  - apply L_AltL. rewrite <- (str_app_nil_r "http"). apply lang_LitThen_intro. constructor.
  - apply L_AltR, L_AltL. rewrite <- (str_app_nil_r "ftp").
    apply lang_LitThen_intro. constructor.
  - apply L_AltR, L_AltR. rewrite <- (str_app_nil_r "https").
    apply lang_LitThen_intro. constructor.
Qed.

(** A scheme, [://], two labels with a separator between them and one
    closing unit make a match. *)
Lemma lang_uri_shape w dot s l1 d l2 c :
  In s ["http"; "ftp"; "https"] ->
  is_label w l1 = true -> lang dot d -> is_label w l2 = true ->
  class_mem c (closing w) = true ->
  lang (uri_shape w dot) (s ++ "://" ++ l1 ++ d ++ l2 ++ String c "").
Proof.
  intros Hs H1 Hd H2 Hc. unfold uri_shape.
  constructor; [now apply lang_scheme |].
  apply lang_LitThen_intro.
  replace (l1 ++ d ++ l2 ++ String c "")
    with ((l1 ++ ((d ++ (l2 ++ "")) ++ "") ++ "") ++ (("" ++ (String c "" ++ "")) ++ "")).
  2:{ cbn. rewrite ?str_app_nil_r, ?str_app_assoc. reflexivity. }
  constructor.
  - constructor; [now apply lang_host_label |].
    constructor; [| constructor]. unfold Plus. constructor; [| constructor].
    constructor; [exact Hd |]. constructor; [now apply lang_host_label | constructor].
  - constructor; [| constructor]. constructor; [constructor |].
    constructor; [| constructor]. constructor. exact Hc.
Qed.

End PatternShape.

Section PatternProperties.
Import Regex Filter.

(** X13. The filter of the MongoDB revisions rejects every body in
    which a scheme ([http], [ftp] or [https]) and [://] are followed by
    two labels of word units, [_] and [-] with a full stop between them
    and by one more unit of the closing class, whoever sends it and
    whatever stands before and after. *)
Theorem mongo_filter_rejects_urls (channel username pre s l1 l2 post : string)
    (c : ascii) (isModerator : bool) :
  In s ["http"; "ftp"; "https"] ->
  is_label Word l1 = true ->
  is_label Word l2 = true ->
  class_mem c (closing Word) = true ->
  filterEnqueueMessage_mongo channel username
    (pre ++ s ++ "://" ++ l1 ++ "." ++ l2 ++ String c post) isModerator = true.
Proof.
  intros Hs H1 H2 Hc. unfold filterEnqueueMessage_mongo.
  apply filterEnqueueMessage_with_iff. right. right. right.
  exists pre, (s ++ "://" ++ l1 ++ "." ++ l2 ++ String c ""), post. split.
  - f_equal. rewrite ?str_app_assoc. cbn. rewrite ?str_app_assoc. cbn.
    rewrite ?str_app_assoc. reflexivity.
  - destruct REGEX_CONTAINS_URI_mongo_read as [_ ->].
    apply lang_uri_shape; try assumption. constructor. reflexivity.
Qed.

Lemma mongo_filter_rejects_urls_witness :
  filterEnqueueMessage_mongo "squishy_life" "ann"
    ("see " ++ "http" ++ "://" ++ "google" ++ "." ++ "com" ++ String "/" "x") false = true.
Proof.
  apply (mongo_filter_rejects_urls "squishy_life" "ann" "see " "http" "google" "com" "x"
           "/" false).
  - left. reflexivity.
  - reflexivity.
  - reflexivity.
  - reflexivity.
Defined.

End PatternProperties.

(** ** The limiter, one call at a time *)

Section LimiterCalls.
Import Limiter.
Local Open Scope Z_scope.
Local Open Scope list_scope.

(** X14. In every state a limiter can reach, a call submitted while it
    is idle is made at once, at the time of its submission, and nothing
    is left queued; if the call returns it starts the one timer, due
    the delay of [setTimeout] later, and if it raises an exception no
    timer is set and the limiter stays busy. A call submitted while it
    is busy is not made: it goes to the end of the queue, and no timer
    is added. *)
Theorem limiter_runs_a_call_at_once_iff_idle (A : Type) (throws : A -> bool)
    (wait start now : Z) (events : list (event A)) (call : A) (st st' : state A) :
  run throws wait events (initial start) = Some st ->
  step throws wait st (Enqueue now call) = Some st' ->
  (isCalled st = false ->
   executed st' = executed st ++ [(now, call)] /\ calls st' = [] /\
   timers st' = (if throws call then [] else [now + setTimeout_delay wait]) /\
   isCalled st' = true) /\
  (isCalled st = true ->
   executed st' = executed st /\ calls st' = calls st ++ [call] /\
   timers st' = timers st /\ isCalled st' = true).
Proof.
  intros Hrun Hstep.
  pose proof (run_invariant A throws wait events [] _ st
                (initial_invariant A throws wait start) Hrun) as (_ & _ & Hb).
  unfold step in Hstep. cbn [time_of] in Hstep.
  destruct (now <? clock st); [discriminate |]. injection Hstep as <-.
  unfold enqueue, caller. cbn.
  destruct (isCalled st) eqn:Ec.
  - split; [discriminate |]. intros _.
    destruct (calls st ++ [call]) eqn:E; [now destruct (calls st) |].
    cbn. auto.
  - split; [| discriminate]. intros _. destruct Hb as (Ht & Hc & _).
    rewrite Hc, Ht. cbn. destruct (throws call); cbn; auto.
Qed.

Lemma limiter_runs_a_call_at_once_iff_idle_witness :
  let throws := fun call : string => String.eqb call "boom" in
  let st := mkState string false [] [] [(0, "a")] 1500 in
  let st' := mkState string true [] [] [(0, "a"); (2000, "boom")] 2000 in
  (isCalled st = false ->
   executed st' = executed st ++ [(2000, "boom")] /\ calls st' = [] /\
   timers st' = (if throws "boom" then [] else [2000 + setTimeout_delay 1500]) /\
   isCalled st' = true) /\
  (isCalled st = true ->
   executed st' = executed st /\ calls st' = calls st ++ ["boom"] /\
   timers st' = timers st /\ isCalled st' = true).
Proof.
  apply (limiter_runs_a_call_at_once_iff_idle string
           (fun call => String.eqb call "boom") 1500 0 2000
           [Enqueue 0 "a"; Timeout 1500] "boom").
  - reflexivity.
  - reflexivity.
Defined.

End LimiterCalls.

(** ** The statistics table *)

Section StatsFacts.
Import Stats.
Local Open Scope list_scope.

Lemma row_of_app username t1 t2 :
  row_of username (t1 ++ t2) =
  match row_of username t1 with
  | Some r => Some r
  | None => row_of username t2
  end.
Proof.
  unfold row_of. induction t1 as [|r t1 IH]; cbn; [reflexivity |].
  destruct (named username r); [reflexivity | exact IH].
Qed.

Lemma row_of_None username t :
  row_of username t = None <-> existsb (named username) t = false.
Proof.
  unfold row_of. induction t as [|r t IH]; cbn; [tauto |].
  destruct (named username r); cbn; [split; discriminate | exact IH].
Qed.

Lemma row_of_named username t r : row_of username t = Some r -> UserName r = username.
Proof.
  unfold row_of. intros H. apply find_some in H as [_ H]. now apply String.eqb_eq in H.
Qed.

Lemma row_of_UPDATE username other t :
  row_of other (UPDATE username t) =
  if String.eqb other username then option_map bump (row_of other t)
  else row_of other t.
Proof.
  unfold row_of, UPDATE. induction t as [|r t IH]; cbn [map List.find].
  { now destruct (String.eqb other username). }
  assert (Hn : named other (if named username r then bump r else r) = named other r)
    by (destruct (named username r); reflexivity).
  rewrite Hn. destruct (named other r) eqn:En; [| exact IH].
  apply String.eqb_eq in En. unfold named. rewrite En.
  now destruct (String.eqb other username).
Qed.

(** One call of the SQLite [recordUserChatStats]: the user's row gains
    one message and keeps its channel, or is made with the call's
    channel and one message; the other rows stay. *)
Lemma recordUserChatStats_row channel username other t :
  row_of other (recordUserChatStats channel username t) =
  if String.eqb other username then
    match row_of username t with
    | Some r => Some (bump r)
    | None => Some (mkRow channel username 1)
    end
  else row_of other t.
Proof.
  unfold recordUserChatStats. rewrite row_of_UPDATE.
  unfold INSERT. destruct (existsb (named username) t) eqn:E.
  - destruct (String.eqb_spec other username) as [-> | _]; [| reflexivity].
    destruct (row_of username t) eqn:R; [reflexivity |].
    apply row_of_None in R. congruence.
  - rewrite row_of_app. apply row_of_None in E.
    destruct (String.eqb_spec other username) as [-> | Hne].
    + rewrite E. unfold row_of. cbn. unfold named. cbn. now rewrite String.eqb_refl.
    + destruct (row_of other t); [reflexivity |].
      unfold row_of. cbn. unfold named. cbn.
      now rewrite (proj2 (String.eqb_neq _ _) (not_eq_sym Hne)).
Qed.

Lemma calls_by_cons username call calls :
  calls_by username (call :: calls) =
  ((if String.eqb (snd call) username then 1 else 0) + calls_by username calls)%nat.
Proof. unfold calls_by. cbn. now destruct (String.eqb (snd call) username). Qed.

Lemma calls_in_cons channel username call calls :
  calls_in channel username (call :: calls) =
  ((if String.eqb (fst call) channel && String.eqb (snd call) username then 1 else 0) +
   calls_in channel username calls)%nat.
Proof.
  unfold calls_in. cbn.
  now destruct (String.eqb (fst call) channel && String.eqb (snd call) username).
Qed.

Lemma replay_cons record call calls t :
  replay record (call :: calls) t = replay record calls (record (fst call) (snd call) t).
Proof. reflexivity. Qed.

(** The SQLite table after a log of calls, row by row. *)
Lemma replay_row username (calls : list (string * string)) : forall t,
  row_of username (replay recordUserChatStats calls t) =
  match row_of username t, first_channel username calls with
  | Some r, _ =>
      Some (mkRow (Channel r) (UserName r) (MessageCount r + calls_by username calls))
  | None, Some channel => Some (mkRow channel username (calls_by username calls))
  | None, None => None
  end.
Proof.
  induction calls as [|[c u] calls IH]; intros t.
  { unfold replay, first_channel, calls_by.
    cbn [fold_left List.find List.filter length option_map].
    destruct (row_of username t) as [[ch un n]|]; [| reflexivity].
    cbn [Channel UserName MessageCount]. now rewrite Nat.add_0_r. }
  rewrite replay_cons. cbn [fst snd].
  rewrite IH, recordUserChatStats_row, calls_by_cons. unfold first_channel.
  cbn [List.find snd fst]. rewrite (String.eqb_sym u username).
  destruct (String.eqb_spec username u) as [-> | Hne].
  - destruct (row_of u t) as [[ch un n]|] eqn:R; cbn.
    + do 2 f_equal. lia.
    + reflexivity.
  - cbn [Nat.add]. reflexivity.
Qed.

Lemma inc_first_row channel username other t :
  row_of other (inc_first (selected channel username) t) =
  if String.eqb other username then
    match row_of username t with
    | Some r => Some (if String.eqb (Channel r) channel then bump r else r)
    | None => None
    end
  else row_of other t.
Proof.
  unfold row_of. induction t as [|r t IH]; cbn [inc_first List.find].
  { now destruct (String.eqb other username). }
  destruct (selected channel username r) eqn:Es.
  - apply andb_true_iff in Es as [Ec Eu]. apply String.eqb_eq in Eu.
    cbn [List.find].
    replace (named username r) with true
      by (unfold named; rewrite Eu; symmetry; apply String.eqb_refl).
    replace (named other (bump r)) with (String.eqb other username)
      by (unfold named; cbn [bump UserName]; rewrite Eu; apply String.eqb_sym).
    replace (named other r) with (String.eqb other username)
      by (unfold named; rewrite Eu; apply String.eqb_sym).
    rewrite Ec. now destruct (String.eqb other username).
  - cbn [List.find]. destruct (named other r) eqn:En.
    + destruct (String.eqb_spec other username) as [-> | Hne]; [| reflexivity].
      rewrite En. unfold selected in Es. unfold named in En.
      rewrite En, andb_true_r in Es. now rewrite Es.
    + rewrite IH. destruct (String.eqb_spec other username) as [-> | Hne];
        [now rewrite En | reflexivity].
Qed.

Lemma selected_row_of channel username t :
  existsb (selected channel username) t = true -> row_of username t <> None.
Proof.
  intros H E. apply row_of_None in E.
  apply existsb_exists in H as (r & Hin & Hr). unfold selected in Hr.
  apply andb_true_iff in Hr as [_ Hr].
  assert (existsb (named username) t = true)
    by (apply existsb_exists; exists r; auto).
  congruence.
Qed.

Lemma unselected_row_of channel username t r :
  existsb (selected channel username) t = false ->
  row_of username t = Some r -> String.eqb (Channel r) channel = false.
Proof.
  intros H R. destruct (String.eqb (Channel r) channel) eqn:Ec; [| reflexivity].
  assert (existsb (selected channel username) t = true); [| congruence].
  apply existsb_exists. exists r. unfold row_of in R.
  apply find_some in R as [Hin Hn]. split; [exact Hin |].
  unfold selected. unfold named in Hn. now rewrite Ec, Hn.
Qed.

(** One call of the MongoDB [recordUserChatStats]: the user's document
    gains one message when the call is for the document's channel and
    stays as it is when the call is for another channel, or is made with
    the call's channel and one message; the other documents stay. *)
Lemma recordUserChatStats_mongo_row channel username other t :
  row_of other (recordUserChatStats_mongo channel username t) =
  if String.eqb other username then
    match row_of username t with
    | Some r => Some (if String.eqb (Channel r) channel then bump r else r)
    | None => Some (mkRow channel username 1)
    end
  else row_of other t.
Proof.
  unfold recordUserChatStats_mongo.
  destruct (existsb (selected channel username) t) eqn:Es.
  - rewrite inc_first_row. destruct (String.eqb other username); [| reflexivity].
    destruct (row_of username t) eqn:R; [reflexivity |].
    now apply selected_row_of in Es.
  - destruct (existsb (named username) t) eqn:En.
    + destruct (String.eqb_spec other username) as [-> | _]; [| reflexivity].
      destruct (row_of username t) as [r|] eqn:R.
      * now rewrite (unselected_row_of _ _ _ _ Es R).
      * apply row_of_None in R. congruence.
    + rewrite row_of_app. apply row_of_None in En.
      destruct (String.eqb_spec other username) as [-> | Hne].
      * rewrite En. unfold row_of. cbn. unfold named. cbn. now rewrite String.eqb_refl.
      * destruct (row_of other t); [reflexivity |].
        unfold row_of. cbn. unfold named. cbn.
        now rewrite (proj2 (String.eqb_neq _ _) (not_eq_sym Hne)).
Qed.

(** The MongoDB collection after a log of calls, document by document. *)
Lemma replay_mongo_row username (calls : list (string * string)) : forall t,
  row_of username (replay recordUserChatStats_mongo calls t) =
  match row_of username t, first_channel username calls with
  | Some r, _ =>
      Some (mkRow (Channel r) (UserName r)
                  (MessageCount r + calls_in (Channel r) username calls))
  | None, Some channel =>
      Some (mkRow channel username (calls_in channel username calls))
  | None, None => None
  end.
Proof.
  induction calls as [|[c u] calls IH]; intros t.
  { unfold replay, first_channel, calls_in.
    cbn [fold_left List.find List.filter length option_map].
    destruct (row_of username t) as [[ch un n]|]; [| reflexivity].
    cbn [Channel UserName MessageCount]. now rewrite Nat.add_0_r. }
  rewrite replay_cons. cbn [fst snd].
  rewrite IH, recordUserChatStats_mongo_row. unfold first_channel.
  cbn [List.find snd fst]. rewrite (String.eqb_sym u username).
  destruct (String.eqb_spec username u) as [-> | Hne].
  - destruct (row_of u t) as [[ch un n]|] eqn:R; cbn [option_map fst].
    + rewrite calls_in_cons. cbn [fst snd Channel]. rewrite String.eqb_refl, andb_true_r.
      rewrite (String.eqb_sym c ch).
      destruct (String.eqb ch c); cbn [bump Channel UserName MessageCount];
        do 2 f_equal; lia.
    + cbn [Channel UserName MessageCount]. rewrite calls_in_cons. cbn [fst snd].
      rewrite !String.eqb_refl. cbn. first [reflexivity | do 2 f_equal; lia].
  - destruct (row_of username t) as [[ch un n]|] eqn:R.
    + rewrite calls_in_cons. cbn [fst snd Channel].
      rewrite (proj2 (String.eqb_neq _ _) (not_eq_sym Hne)), andb_false_r. reflexivity.
    + destruct (List.find _ calls) as [[c0 u0]|]; cbn [option_map fst]; [| reflexivity].
      rewrite calls_in_cons. cbn [fst snd].
      rewrite (proj2 (String.eqb_neq _ _) (not_eq_sym Hne)), andb_false_r. reflexivity.
Qed.

End StatsFacts.

Section StatsProperties.
Import Stats.
Local Open Scope list_scope.

(** X15. The SQLite statistics are per user, not per channel: after any
    log of [recordUserChatStats] calls, a user who had a row keeps its
    channel and has gained one message for each of the calls with that
    user name, in whatever channel; a user who had none has a row with
    the channel of the first such call and the number of such calls;
    a user no call names has what the table had. *)
Theorem sqlite_stats_count_a_user_over_all_channels (username : string)
    (calls : list (string * string)) (t : table) :
  row_of username (replay recordUserChatStats calls t) =
  match row_of username t, first_channel username calls with
  | Some r, _ =>
      Some (mkRow (Channel r) (UserName r) (MessageCount r + calls_by username calls))
  | None, Some channel => Some (mkRow channel username (calls_by username calls))
  | None, None => None
  end.
Proof. apply replay_row. Qed.

(** X16. In the MongoDB revisions a user is counted in one channel
    only: after any log of [recordUserChatStats] calls, the user's
    document has the channel it had, or that of the first call naming
    the user, and has gained one message for each call with that user
    name and that very channel; the calls that name the user in another
    channel change nothing. *)
Theorem mongo_stats_count_a_user_in_one_channel (username : string)
    (calls : list (string * string)) (t : table) :
  row_of username (replay recordUserChatStats_mongo calls t) =
  match row_of username t, first_channel username calls with
  | Some r, _ =>
      Some (mkRow (Channel r) (UserName r)
                  (MessageCount r + calls_in (Channel r) username calls))
  | None, Some channel =>
      Some (mkRow channel username (calls_in channel username calls))
  | None, None => None
  end.
Proof. apply replay_mongo_row. Qed.

End StatsProperties.

(** ** The console lines of the message handlers *)

Section ConsoleFacts.
Import Console.
Local Open Scope list_scope.

Lemma split_nonempty sep s : split sep s <> [].
Proof.
  destruct s as [|c s]; cbn; [discriminate |].
  destruct (Ascii.eqb c sep); [discriminate |]. destruct (split sep s); discriminate.
Qed.

Lemma split_cons sep c s :
  split sep (String c s) =
  if Ascii.eqb c sep then "" :: split sep s
  else String c (hd "" (split sep s)) :: tl (split sep s).
Proof.
  cbn [split]. destruct (Ascii.eqb c sep); [reflexivity |].
  pose proof (split_nonempty sep s). now destruct (split sep s).
Qed.

Lemma toLowerCase_unit_space c :
  Ascii.eqb (JS.toLowerCase_unit c) " " = Ascii.eqb c " ".
Proof.
  destruct c as [[] [] [] [] [] [] [] []]; vm_compute; reflexivity.
Qed.

Lemma toLowerCase_unit_lower c : is_upper (JS.toLowerCase_unit c) = false.
Proof.
  destruct c as [[] [] [] [] [] [] [] []]; vm_compute; reflexivity.
Qed.

Lemma toLowerCase_app a b :
  JS.toLowerCase (a ++ b) = (JS.toLowerCase a ++ JS.toLowerCase b)%string.
Proof. induction a as [|c a IH]; cbn; [reflexivity | now rewrite IH]. Qed.

Lemma split_toLowerCase s :
  split " " (JS.toLowerCase s) = map JS.toLowerCase (split " " s).
Proof.
  induction s as [|c s IH]; [reflexivity |].
  cbn [JS.toLowerCase]. rewrite !split_cons, toLowerCase_unit_space, IH.
  destruct (Ascii.eqb c " "); [reflexivity |].
  pose proof (split_nonempty " " s). destruct (split " " s); [contradiction |].
  reflexivity.
Qed.

Lemma all_units_app p a b :
  all_units p (a ++ b) = all_units p a && all_units p b.
Proof.
  induction a as [|c a IH]; cbn [all_units String.append]; [reflexivity |].
  now rewrite IH, andb_assoc.
Qed.

(** The first word of a split string starts the string. *)
Lemma split_hd sep s : exists b, s = (hd "" (split sep s) ++ b)%string.
Proof.
  induction s as [|c s (b & IH)]; [now exists "" |].
  rewrite split_cons. destruct (Ascii.eqb c sep); cbn [hd].
  - now exists (String c s).
  - exists b. cbn. now rewrite <- IH.
Qed.

(** A word of a split string is a part of the string. *)
Lemma split_part sep s : forall w,
  w ∈ split sep s -> exists a b, s = (a ++ w ++ b)%string.
Proof.
  induction s as [|c s IH]; intros w Hin.
  { cbn in Hin. apply list_elem_of_singleton in Hin as ->. now exists "", "". }
  rewrite split_cons in Hin. destruct (Ascii.eqb_spec c sep) as [-> | Hne].
  - apply elem_of_cons in Hin as [-> | Hin].
    + now exists "", (String sep s).
    + destruct (IH w Hin) as (a & b & ->). now exists (String sep a), b.
  - apply elem_of_cons in Hin as [-> | Hin].
    + destruct (split_hd sep s) as (b & Hb). exists "", b. cbn. now rewrite <- Hb.
    + assert (Hin' : w ∈ split sep s).
      { destruct (split sep s); [inversion Hin | now right]. }
      destruct (IH w Hin') as (a & b & ->). now exists (String c a), b.
Qed.

(** A part of a string without the separator lies in one word. *)
Lemma part_split sep needle :
  all_units (fun c => negb (Ascii.eqb c sep)) needle = true ->
  forall pre post, exists w a b,
    w ∈ split sep (pre ++ needle ++ post)%string /\ w = (a ++ needle ++ b)%string.
Proof.
  intros Hn.
  assert (Hd : forall post, exists b,
             hd "" (split sep (needle ++ post)%string) = (needle ++ b)%string).
  { intros post. induction needle as [|c n IH]; cbn [String.append].
    - now exists (hd "" (split sep post)).
    - cbn [all_units] in Hn. apply andb_true_iff in Hn as [Hc Hn].
      destruct (IH Hn) as (b & Hb). exists b.
      rewrite split_cons. apply negb_true_iff in Hc. rewrite Hc. cbn [hd].
      now rewrite Hb. }
  induction pre as [|c pre IH]; intros post.
  - destruct (Hd post) as (b & Hb). exists (needle ++ b)%string, "", b.
    split; [| reflexivity]. cbn [String.append]. rewrite <- Hb.
    pose proof (split_nonempty sep (needle ++ post)%string).
    destruct (split sep (needle ++ post)%string); [contradiction | now left].
  - destruct (IH post) as (w & a & b & Hin & ->).
    cbn [String.append]. rewrite split_cons.
    destruct (Ascii.eqb c sep).
    + exists (a ++ needle ++ b)%string, a, b. split; [now right | reflexivity].
    + destruct (split sep (pre ++ needle ++ post)%string) as [|w0 ws];
        [inversion Hin |].
      cbn [hd tl]. apply elem_of_cons in Hin as [<- | Hin].
      * exists (String c (a ++ needle ++ b))%string, (String c a), b.
        split; [now left | reflexivity].
      * exists (a ++ needle ++ b)%string, a, b. split; [now right | reflexivity].
Qed.

End ConsoleFacts.

Section ConsoleProperties.
Import Console.
Local Open Scope list_scope.

(** X17. The loop of [handleOtherMessage] puts back what [split] took
    apart: with a highlighter that returns its word as it is (colours
    off), the rebuilt text is the message itself, for every message and
    every user name. *)
Theorem rebuild_restores_the_message (credentials_username message : string) :
  rebuild credentials_username (fun word => word) 0 (split " " message) "" = message.
Proof.
  assert (G : forall words index acc,
    rebuild credentials_username (fun word => word) index words acc =
    fold_left (fun acc p => ((if (0 <? fst p)%nat then acc ++ " " else acc) ++ snd p)%string)
              (combine (seq index (length words)) words) acc).
  { induction words as [|w words IH]; intros index acc; [reflexivity |].
    cbn [rebuild length seq combine fold_left fst snd]. rewrite IH.
    now destruct (mentions credentials_username w). }
  rewrite G. clear G.
  assert (H : forall s acc index,
    fold_left (fun acc p => ((if (0 <? fst p)%nat then acc ++ " " else acc) ++ snd p)%string)
              (combine (seq (S index) (length (tl (split " " s)))) (tl (split " " s)))
              (acc ++ hd "" (split " " s))%string = (acc ++ s)%string).
  { induction s as [|c s IH]; intros acc index; [reflexivity |].
    rewrite split_cons. destruct (Ascii.eqb_spec c " ") as [-> | Hne]; cbn [hd tl].
    - pose proof (split_nonempty " " s) as Hs.
      destruct (split " " s) as [|w0 ws] eqn:E; [contradiction |].
      cbn [length seq combine fold_left fst snd Nat.ltb Nat.leb].
      specialize (IH ((acc ++ "") ++ " ")%string (S index)). cbn [hd tl] in IH.
      transitivity (((acc ++ "") ++ " ") ++ s)%string; [exact IH |].
      rewrite str_app_nil_r, str_app_assoc. reflexivity.
    - specialize (IH (acc ++ String c "")%string index).
      rewrite !str_app_assoc in IH. cbn [String.append] in IH. exact IH. }
  pose proof (split_nonempty " " message) as Hs.
  specialize (H message "" 0%nat).
  destruct (split " " message) as [|w0 ws] eqn:E; [contradiction |].
  cbn [hd tl] in H. cbn [length seq combine fold_left fst snd Nat.ltb Nat.leb].
  exact H.
Qed.

(** X18. When the configured user name has no space, a line is printed
    for a message exactly when one of its words (the parts between
    spaces) mentions the user: every printed line has a highlighted
    word, and no mention in a word goes unnoticed. *)
Theorem mention_line_has_a_mentioning_word
    (credentials_username time : string) (bold bgRed : string -> string)
    (channel username message : string) :
  all_units (fun c => negb (Ascii.eqb c " ")) credentials_username = true ->
  handleOtherMessage credentials_username time bold bgRed channel username message <> None <->
  exists word, word ∈ split " " message /\ mentions credentials_username word = true.
Proof.
  intros Hu.
  assert (Hm : all_units (fun c => negb (Ascii.eqb c " "))
                 (mention credentials_username) = true).
  { unfold mention. cbn [String.append all_units]. now rewrite Hu. }
  unfold handleOtherMessage.
  destruct (mentions credentials_username message) eqn:E.
  - split; [intros _ | discriminate].
    unfold mentions in E. apply includes_iff in E as (pre & post & E).
    destruct (part_split " " _ Hm pre post) as (w & a & b & Hin & ->).
    rewrite <- E, split_toLowerCase in Hin.
    apply (list_elem_of_fmap_1 JS.toLowerCase) in Hin as (word & Hw & Hin).
    exists word. split; [exact Hin |]. unfold mentions. rewrite <- Hw.
    apply includes_iff. eauto.
  - split; [congruence |]. intros (word & Hin & Hw). exfalso.
    apply split_part in Hin as (a & b & ->).
    unfold mentions in *. apply includes_iff in Hw as (pre & post & Hw).
    assert (JS.includes (JS.toLowerCase (a ++ word ++ b)) (mention credentials_username)
            = true); [| congruence].
    apply includes_iff. rewrite !toLowerCase_app, Hw.
    exists (JS.toLowerCase a ++ pre)%string, (post ++ JS.toLowerCase b)%string.
    now rewrite !str_app_assoc.
Qed.

Lemma mention_line_has_a_mentioning_word_witness :
  handleOtherMessage "hypebot" "[2:47:10 AM]" (fun w => w) (fun w => w)
    "squishy_life" "ann" "hello @HypeBot, hi" <> None <->
  exists word, word ∈ split " " "hello @HypeBot, hi" /\ mentions "hypebot" word = true.
Proof.
  apply (mention_line_has_a_mentioning_word "hypebot" "[2:47:10 AM]"
           (fun w => w) (fun w => w) "squishy_life" "ann" "hello @HypeBot, hi").
  reflexivity.
Defined.

(** X19. The message is lower-cased before the mention is looked for
    and the configured user name is not: where the name is used as it
    is configured ([app.js] and the SQLite revision), a name with an
    upper-case letter makes [handleOtherMessage] print nothing, whatever
    the message. *)
Theorem mention_of_capitalised_name_is_never_seen
    (credentials_username time : string) (bold bgRed : string -> string)
    (channel username message : string) :
  all_units (fun c => negb (is_upper c)) credentials_username = false ->
  handleOtherMessage credentials_username time bold bgRed channel username message = None.
Proof.
  intros Hu. unfold handleOtherMessage.
  destruct (mentions credentials_username message) eqn:E; [| reflexivity].
  exfalso. unfold mentions, mention in E.
  apply includes_iff in E as (pre & post & E).
  assert (Hl : forall s, all_units (fun c => negb (is_upper c)) (JS.toLowerCase s) = true).
  { induction s as [|c s IH]; [reflexivity |].
    cbn [JS.toLowerCase all_units]. now rewrite toLowerCase_unit_lower, IH. }
  specialize (Hl message). rewrite E, !all_units_app in Hl.
  apply andb_true_iff in Hl as [_ Hl]. apply andb_true_iff in Hl as [Hl _].
  apply andb_true_iff in Hl as [_ Hl]. congruence.
Qed.

Lemma mention_of_capitalised_name_is_never_seen_witness :
  handleOtherMessage "HypeBot" "[2:47:10 AM]" (fun w => w) (fun w => w)
    "squishy_life" "ann" "hello @HypeBot" = None.
Proof.
  apply (mention_of_capitalised_name_is_never_seen "HypeBot" "[2:47:10 AM]"
           (fun w => w) (fun w => w) "squishy_life" "ann" "hello @HypeBot").
  reflexivity.
Defined.

End ConsoleProperties.

(** ** The sentiment revision over whole runs *)

Section SentimentRuns.
Import Sentiment SentimentBot.
Local Open Scope list_scope.
Local Open Scope Z_scope.

(** What holds of the sentiment window at time [clock]: no entry is
    later than [clock], the entries are in time order, and each of them
    is at most [WINDOW_SIZE_MS] older than the last one. *)
Lemma updateMessageWindow_window (now clock : Z) (type : string) (st : state) :
  clock <= now ->
  Forall (fun msg => fst msg <= clock) (messageWindow st) ->
  StronglySorted Z.le (map fst (messageWindow st)) ->
  let st' := updateMessageWindow now type st in
  Forall (fun msg => now - WINDOW_SIZE_MS <= fst msg <= now) (messageWindow st') /\
  StronglySorted Z.le (map fst (messageWindow st')) /\
  last (messageWindow st') = Some (now, type).
Proof.
  intros Hc Hle Hs st'. destruct (updateMessageWindow_spec now type st) as [Hw _].
  fold st' in Hw. rewrite Hw. clear Hw st'.
  assert (Hle' : Forall (fun msg => fst msg <= now) (messageWindow st ++ [(now, type)])).
  { apply Forall_app. split.
    - eapply Forall_impl; [exact Hle |]. cbn. intros. lia.
    - repeat constructor. cbn. lia. }
  split; [| split].
  - apply Forall_forall. intros msg Hin. apply list_elem_of_In in Hin.
    apply List.filter_In in Hin as [Hin Hk]. apply Z.leb_le in Hk.
    rewrite Forall_forall in Hle'. apply list_elem_of_In in Hin.
    specialize (Hle' msg Hin). cbn in Hle'. lia.
  - induction (messageWindow st) as [|m w IH]; cbn [app List.filter].
    + cbn. destruct (now - WINDOW_SIZE_MS <=? now); repeat constructor.
    + cbn [map] in Hs. apply StronglySorted_inv in Hs as [Hs Hm].
      apply Forall_cons in Hle as [Hm' Hle].
      assert (IH' : StronglySorted Z.le
                (map fst (List.filter (fun msg => now - WINDOW_SIZE_MS <=? fst msg)
                            (w ++ [(now, type)])))).
      { apply IH; [exact Hle | exact Hs |].
        apply Forall_app. split.
        - eapply Forall_impl; [exact Hle |]. cbn. intros. lia.
        - repeat constructor. cbn. lia. }
      destruct (now - WINDOW_SIZE_MS <=? fst m); [| exact IH'].
      cbn [map]. constructor; [exact IH' |].
      apply Forall_forall. intros t Ht. apply list_elem_of_In in Ht.
      apply in_map_iff in Ht as (msg & <- & Hin).
      apply List.filter_In in Hin as [Hin _]. apply in_app_or in Hin as [Hin | Hin].
      * rewrite Forall_forall in Hm. apply Hm. apply list_elem_of_In.
        now apply in_map.
      * destruct Hin as [<- | []]. cbn. lia.
  - rewrite List.filter_app. cbn [List.filter fst].
    assert (E : (now - WINDOW_SIZE_MS <=? now) = true)
      by (apply Z.leb_le; unfold WINDOW_SIZE_MS; lia).
    rewrite E. apply last_snoc.
Qed.

Lemma window_ok_later (clock now : Z) (st : state) :
  clock <= now -> window_ok clock st -> window_ok now st.
Proof.
  intros Hc (H1 & H2 & H3). split; [| split; assumption].
  eapply Forall_impl; [exact H1 |]. cbn. intros. lia.
Qed.

Lemma window_ok_update (clock now : Z) (type : string) (st : state) :
  clock <= now -> window_ok clock st -> window_ok now (updateMessageWindow now type st).
Proof.
  intros Hc (H1 & H2 & _).
  destruct (updateMessageWindow_window now clock type st Hc H1 H2) as (Hb & Hs & Hl).
  split; [| split].
  - eapply Forall_impl; [exact Hb |]. cbn. intros. lia.
  - exact Hs.
  - intros t type' E. rewrite Hl in E. injection E as <- <-. exact Hb.
Qed.

Lemma step_window_ok (clock : Z) (e : event) (st : Bot.state * state) :
  clock <= time_of e -> window_ok clock (snd st) -> window_ok (time_of e) (snd (step st e)).
Proof.
  intros Hc Hok. destruct e as [now msg | now | now]; cbn [step time_of snd] in *.
  - unfold on_PRIVMSG, enqueueChatMessage.
    destruct (Bot.filterEnqueueMessage _ _ _ _ _); [now apply (window_ok_later clock) |].
    destruct (JS.includes _ "+2").
    + cbn [snd]. apply (window_ok_update clock); [exact Hc | exact Hok].
    + destruct (JS.includes _ "-2"); cbn [snd].
      * apply (window_ok_update clock); [exact Hc | exact Hok].
      * now apply (window_ok_later clock).
  - unfold tick. now apply (window_ok_update clock).
  - now apply (window_ok_later clock).
Qed.

Lemma run_window_ok (events : list event) : forall clock st,
  in_time_order clock events -> window_ok clock (snd st) ->
  exists clock', window_ok clock' (snd (run events st)).
Proof.
  induction events as [|e events IH]; intros clock st Hord Hok; [now exists clock |].
  destruct Hord as [Hc Hord]. cbn [run fold_left]. fold (run events (step st e)).
  apply (IH (time_of e)); [exact Hord | now apply (step_window_ok clock)].
Qed.

(** Every evaluation records one moving average, and only the marker
    messages and the ticks evaluate. *)
Lemma step_averages (e : event) (st : Bot.state * state) :
  (length (movingAverages (snd (step st e))) +
   dailyPositiveCount (snd st) + dailyNegativeCount (snd st) +
   (if e is Tick _ then 0 else 1) =
   length (movingAverages (snd st)) +
   dailyPositiveCount (snd (step st e)) + dailyNegativeCount (snd (step st e)) + 1)%nat.
Proof.
  assert (U : forall now type s,
    length (movingAverages (updateMessageWindow now type s)) =
    S (length (movingAverages s)) /\
    dailyPositiveCount (updateMessageWindow now type s) = dailyPositiveCount s /\
    dailyNegativeCount (updateMessageWindow now type s) = dailyNegativeCount s).
  { intros now type s. destruct (updateMessageWindow_spec now type s) as [_ Ha].
    destruct (updateMessageWindow_counters now type s) as [Hp Hn].
    cbn zeta in Ha. rewrite Ha, length_app. cbn. split; [lia | auto]. }
  destruct e as [now msg | now | now]; cbn [step snd].
  - unfold on_PRIVMSG, enqueueChatMessage.
    destruct (Bot.filterEnqueueMessage _ _ _ _ _); [lia |].
    destruct (JS.includes _ "+2").
    + cbn [snd]. destruct (U now "+2"
        (mkState (S (dailyPositiveCount (snd st))) (dailyNegativeCount (snd st))
                 (messageWindow (snd st)) (movingAverages (snd st)))) as (-> & -> & ->).
      cbn. lia.
    + destruct (JS.includes _ "-2"); cbn [snd]; [| lia].
      destruct (U now "-2"
        (mkState (dailyPositiveCount (snd st)) (S (dailyNegativeCount (snd st)))
                 (messageWindow (snd st)) (movingAverages (snd st)))) as (-> & -> & ->).
      cbn. lia.
  - unfold tick. destruct (U now "" (snd st)) as (-> & -> & ->). lia.
  - lia.
Qed.

End SentimentRuns.

Section SentimentProperties.
Import Sentiment SentimentBot.
Local Open Scope list_scope.
Local Open Scope Z_scope.

(** X20. With a clock that does not run backwards, after any run of
    chat messages, ticks and disposals the sentiment window is in time
    order and no entry of it is more than [WINDOW_SIZE_MS] older than
    its last entry, the one of the latest evaluation. *)
Theorem sentiment_window_is_ordered_and_recent (start : Z) (events : list event) :
  in_time_order start events ->
  let st := snd (run events (Bot.initial, initial)) in
  StronglySorted Z.le (map fst (messageWindow st)) /\
  forall t type, last (messageWindow st) = Some (t, type) ->
    Forall (fun msg => t - WINDOW_SIZE_MS <= fst msg <= t) (messageWindow st).
Proof.
  intros Hord st.
  destruct (run_window_ok events start (Bot.initial, initial) Hord) as (clock & _ & Hs & Hl).
  - split; [constructor | split; [constructor | discriminate]].
  - split; [exact Hs | exact Hl].
Qed.

Lemma sentiment_window_is_ordered_and_recent_witness :
  let st := snd (run [Message 1000 (Bot.mkPRIVMSG "#northernlion" "ann" "+2" false []);
                      Message 30000 (Bot.mkPRIVMSG "#northernlion" "bob" "-2 lol" false []);
                      Tick 60000;
                      Message 70000 (Bot.mkPRIVMSG "#northernlion" "cat" "+2" false [])]
                   (Bot.initial, initial)) in
  StronglySorted Z.le (map fst (messageWindow st)) /\
  forall t type, last (messageWindow st) = Some (t, type) ->
    Forall (fun msg => t - WINDOW_SIZE_MS <= fst msg <= t) (messageWindow st).
Proof.
  apply (sentiment_window_is_ordered_and_recent 0
           [Message 1000 (Bot.mkPRIVMSG "#northernlion" "ann" "+2" false []);
            Message 30000 (Bot.mkPRIVMSG "#northernlion" "bob" "-2 lol" false []);
            Tick 60000;
            Message 70000 (Bot.mkPRIVMSG "#northernlion" "cat" "+2" false [])]).
  cbn. lia.
Defined.

(** X21. Between two resets of the daily tallies, the moving averages
    recorded are as many as the messages counted, positive and negative,
    and the ticks together: every counted message and every tick records
    exactly one, and nothing else does. *)
Theorem one_average_per_count_and_tick (events : list event) :
  let st := snd (run events (Bot.initial, initial)) in
  length (movingAverages st) =
  (dailyPositiveCount st + dailyNegativeCount st +
   length (List.filter (fun e => if e is Tick _ then true else false) events))%nat.
Proof.
  assert (G : forall events st0,
    (length (movingAverages (snd (run events st0))) +
     dailyPositiveCount (snd st0) + dailyNegativeCount (snd st0) =
     length (movingAverages (snd st0)) +
     dailyPositiveCount (snd (run events st0)) +
     dailyNegativeCount (snd (run events st0)) +
     length (List.filter (fun e => if e is Tick _ then true else false) events))%nat).
  { clear events. induction events as [|e events IH]; intros st0; [cbn; lia |].
    cbn [run fold_left List.filter]. fold (run events (step st0 e)).
    specialize (IH (step st0 e)). pose proof (step_averages e st0) as Hs.
    destruct e; cbn [length] in *; lia. }
  intros st. specialize (G events (Bot.initial, initial)). cbn in G. subst st. lia.
Qed.

(** X22. The markers are looked for in the text of the first emote
    when the message has one: a message whose first emote spans a text
    without [+2] and [-2] changes neither the counters nor the window
    nor the averages, whatever else the message says. *)
Theorem emote_hides_the_markers (now : Z) (msg : Bot.PRIVMSG)
    (start end_ : nat) (rest : list (nat * nat)) (st : Bot.state * state) :
  Bot.msg_emotes msg = (start, end_) :: rest ->
  let emote := JS.substring (Bot.msg_message msg) start (end_ + 1) in
  JS.truthy emote = true ->
  JS.includes (JS.toLowerCase emote) "+2" = false ->
  JS.includes (JS.toLowerCase emote) "-2" = false ->
  snd (on_PRIVMSG now msg st) = snd st.
Proof.
  intros He emote Ht Hp Hn. unfold on_PRIVMSG, enqueueChatMessage. rewrite He.
  fold emote. unfold Bot.effective_message. rewrite Ht, Hp, Hn.
  now destruct (Bot.filterEnqueueMessage _ _ _ _ _).
Qed.

Lemma emote_hides_the_markers_witness :
  snd (on_PRIVMSG 5000 (Bot.mkPRIVMSG "#northernlion" "ann" "+2 Kappa" false [(3, 7)%nat])
         (Bot.initial, initial)) = initial.
Proof.
  apply (emote_hides_the_markers 5000
           (Bot.mkPRIVMSG "#northernlion" "ann" "+2 Kappa" false [(3, 7)%nat])
           3 7 [] (Bot.initial, initial)).
  - reflexivity.
  - reflexivity.
  - reflexivity.
  - reflexivity.
Defined.

(** X23. The line printed for a moving average has a sign of its own
    before the number: a negative average, which is what an evaluation
    records when the [-2] entries kept outnumber the [+2] ones, is
    printed with two minus signs. *)
Theorem negative_average_is_printed_with_two_signs (time : string) (now : Z)
    (type : string) (st : state) :
  let st' := updateMessageWindow now type st in
  (count_kind "+2" (messageWindow st') < count_kind "-2" (messageWindow st'))%nat ->
  exists movingAverage,
    last (movingAverages st') = Some movingAverage /\
    movingAverage < 0 /\
    moving_average_line time movingAverage =
      (time ++ " Moving Average: --" ++ Number_toString (- movingAverage))%string.
Proof.
  intros st' Hlt. destruct (updateMessageWindow_spec now type st) as [_ Ha].
  fold st' in Ha. rewrite Ha.
  set (avg := 2 * Z.of_nat (count_kind "+2" (messageWindow st')) -
              2 * Z.of_nat (count_kind "-2" (messageWindow st'))).
  assert (Hneg : avg < 0) by (subst avg; lia).
  exists avg. split; [apply last_snoc |]. split; [exact Hneg |].
  unfold moving_average_line.
  assert (E : (0 <=? avg) = false) by (apply Z.leb_gt; exact Hneg). rewrite E.
  destruct avg as [|p|p]; try lia. reflexivity.
Qed.

Lemma negative_average_is_printed_with_two_signs_witness :
  exists movingAverage,
    last (movingAverages (updateMessageWindow 5000 "-2" initial)) = Some movingAverage /\
    movingAverage < 0 /\
    moving_average_line "[2:47:10 AM]" movingAverage =
      ("[2:47:10 AM]" ++ " Moving Average: --" ++
       Number_toString (- movingAverage))%string.
Proof.
  apply (negative_average_is_printed_with_two_signs "[2:47:10 AM]" 5000 "-2" initial).
  vm_compute. lia.
Defined.

End SentimentProperties.

(** ** From the hype call to the chat *)

Section SystemFacts.
Import System.
Local Open Scope Z_scope.
Local Open Scope list_scope.
Variable cfg : Bot.Config.
Variable HYPE_THROTTLE : Z.
Variable username : string.

Local Abbreviation step := (System.step cfg HYPE_THROTTLE username).
Local Abbreviation run := (System.run cfg HYPE_THROTTLE username).
Local Abbreviation wired_ok := (System.wired_ok HYPE_THROTTLE).

Lemma since_app {A : Type} (l new : list A) : since l (l ++ new) = new.
Proof. apply drop_app_length. Qed.

Lemma since_same {A : Type} (l : list A) : since l l = [].
Proof. unfold since. now apply drop_ge. Qed.

Lemma at_time_same {A : Type} (l : Limiter.state A) : at_time (Limiter.clock l) l = l.
Proof. now destruct l. Qed.

Lemma invariant_at_time {A : Type} (throws : A -> bool) (wait now : Z)
    (submitted : list A) (l : Limiter.state A) :
  Limiter.clock l <= now ->
  Limiter.invariant throws wait submitted l ->
  Limiter.invariant throws wait submitted (at_time now l).
Proof.
  intros Hle (Hq & Hs & Hb). unfold Limiter.invariant, Limiter.last_time in *. cbn.
  split; [exact Hq |]. split; [exact Hs |].
  destruct (Limiter.isCalled l); [exact Hb |].
  destruct Hb as (Ht & Hc & Hl). repeat split; auto.
  intros t Ht'. specialize (Hl t Ht'). lia.
Qed.

Lemma limiter_step_enqueue {A : Type} (throws : A -> bool) (wait : Z) (call : A)
    (l : Limiter.state A) :
  Limiter.step throws wait l (Limiter.Enqueue (Limiter.clock l) call) =
  Some (Limiter.enqueue throws wait (Limiter.clock l) call l).
Proof.
  unfold Limiter.step. cbn [Limiter.time_of]. rewrite Z.ltb_irrefl.
  now destruct l.
Qed.

Lemma enqueue_clock {A : Type} (throws : A -> bool) (wait now : Z) (call : A)
    (l : Limiter.state A) :
  Limiter.clock (Limiter.enqueue throws wait now call l) = Limiter.clock l.
Proof.
  unfold Limiter.enqueue, Limiter.caller. cbn.
  destruct (Limiter.calls l ++ [call]) as [|first rest]; [reflexivity |].
  destruct (negb (Limiter.isCalled l)); [| reflexivity].
  now destruct (throws first).
Qed.

(** A chat message raises no hype call or one. *)
Lemma on_PRIVMSG_hype (msg : Bot.PRIVMSG) (b : Bot.state) :
  exists new, Bot.hypeCalls (Bot.on_PRIVMSG cfg msg b) = Bot.hypeCalls b ++ new /\
              (new = [] \/ exists call, new = [call]).
Proof.
  unfold Bot.on_PRIVMSG, Bot.enqueueChatMessage.
  destruct (Bot.filterEnqueueMessage cfg _ _ _ _).
  - exists []. rewrite app_nil_r. auto.
  - rewrite enqueue_unfiltered_hype.
    destruct (Bot.hype_after cfg _ _); eauto.
Qed.

(** One call of the throttled function: the throttle has one more
    call, the limiter is given the run the call makes, if any, and the
    bot keeps its windows and its hype calls. *)
Lemma sendHypeMessageThrottled_ok (st : state) (call : string * string)
    (calls : list (string * string)) :
  wired_ok calls (throttle st) (say st) ->
  let st' := sendHypeMessageThrottled HYPE_THROTTLE username (Limiter.clock (say st))
               st call in
  wired_ok (calls ++ [call]) (throttle st') (say st') /\
  Limiter.clock (say st') = Limiter.clock (say st) /\
  Bot.hypeCalls (bot st') = Bot.hypeCalls (bot st) /\
  Bot.messageQueues (bot st') = Bot.messageQueues (bot st).
Proof.
  intros (Hinv & made & Hmade & Hok) st'. subst st'.
  pose proof (throttle_ok_call _ HYPE_THROTTLE made (Limiter.clock (say st)) (Limiter.clock (say st)) call (throttle st)
                (Z.le_refl _) Hok) as Hok'.
  unfold sendHypeMessageThrottled.
  destruct (Throttle.shouldInvoke HYPE_THROTTLE (Limiter.clock (say st)) (throttle st)) eqn:Hs.
  - destruct (call_dispatched _ HYPE_THROTTLE (throttle st) (Limiter.clock (say st)) call Hs) as (Hi & _).
    rewrite Hi, since_app. cbn [map snd fold_left].
    destruct call as [channel message]. cbn [sendHypeMessage bot throttle say].
    destruct (step_invariant _ say_throws SAY_WAIT _ (say st) _
                (Limiter.Enqueue (Limiter.clock (say st)) (message, channel)) Hinv
                (limiter_step_enqueue say_throws SAY_WAIT (message, channel) (say st)))
      as (Hinv' & Hclock).
    cbn [Limiter.enqueued Limiter.time_of] in Hinv', Hclock.
    split; [| auto]. split.
    + rewrite Hi, !map_app. exact Hinv'.
    + exists (made ++ [(Limiter.clock (say st), (channel, message))]). split.
      * rewrite map_app, Hmade. reflexivity.
      * rewrite Hclock. exact Hok'.
  - destruct (call_refused _ HYPE_THROTTLE (throttle st) (Limiter.clock (say st)) call Hs) as (Hi & _).
    rewrite Hi, since_same. cbn [map fold_left bot throttle say].
    split; [| auto]. split.
    + rewrite Hi. exact Hinv.
    + exists (made ++ [(Limiter.clock (say st), call)]). split; [| exact Hok'].
      rewrite map_app, Hmade. reflexivity.
Qed.

Lemma sendHypeMessageThrottled_fold (new : list (string * string)) :
  forall (st : state) (calls : list (string * string)),
  wired_ok calls (throttle st) (say st) ->
  let st' := fold_left (sendHypeMessageThrottled HYPE_THROTTLE username
                          (Limiter.clock (say st))) new st in
  wired_ok (calls ++ new) (throttle st') (say st') /\
  Bot.hypeCalls (bot st') = Bot.hypeCalls (bot st).
Proof.
  induction new as [|call new IH]; intros st calls Hok; cbn [fold_left].
  { rewrite app_nil_r. auto. }
  destruct (sendHypeMessageThrottled_ok st call calls Hok) as (Hok' & Hclock & Hh & _).
  specialize (IH _ _ Hok'). rewrite Hclock in IH. cbn zeta in IH.
  destruct IH as (IH1 & IH2). rewrite <- app_assoc in IH1. cbn [app] in IH1.
  split; [exact IH1 | congruence].
Qed.

Lemma wired_ok_later (calls : list (string * string)) (now : Z)
    (th : Throttle.state (string * string)) (l : Limiter.state (string * string)) :
  Limiter.clock l <= now -> wired_ok calls th l -> wired_ok calls th (at_time now l).
Proof.
  intros Hle (Hinv & made & Hmade & Hok). split.
  - now apply invariant_at_time.
  - exists made. split; [exact Hmade |].
    now apply (throttle_ok_later _ HYPE_THROTTLE made (Limiter.clock l)).
Qed.

(** Every event that can happen keeps the parts wired. *)
Lemma step_wired_ok (st st' : state) (e : event) :
  step st e = Some st' ->
  wired_ok (Bot.hypeCalls (bot st)) (throttle st) (say st) ->
  wired_ok (Bot.hypeCalls (bot st')) (throttle st') (say st').
Proof.
  intros Hstep Hok. unfold System.step in Hstep.
  destruct (time_of e <? Limiter.clock (say st)) eqn:Hclock; [discriminate |].
  apply Z.ltb_ge in Hclock.
  pose proof (wired_ok_later _ (time_of e) _ _ Hclock Hok) as Hnow.
  destruct e as [now msg | now | now | now]; cbn [time_of] in *.
  - injection Hstep as <-.
    destruct (on_PRIVMSG_hype msg (bot st)) as (new & Hnew & _).
    rewrite Hnew, since_app.
    destruct (sendHypeMessageThrottled_fold new
                (mkState (Bot.on_PRIVMSG cfg msg (bot st)) (throttle st)
                         (at_time now (say st)))
                (Bot.hypeCalls (bot st)) Hnow) as (H1 & H2).
    cbn [say bot at_time Limiter.clock] in H1, H2. rewrite H2, Hnew. exact H1.
  - injection Hstep as <-. exact Hnow.
  - injection Hstep as <-. cbn [bot throttle say].
    destruct Hnow as (Hinv & made & Hmade & Hth).
    destruct (timer_keeps _ HYPE_THROTTLE (throttle st) now) as (Hi & _).
    cbn [Throttle.step] in Hi |- *.
    split.
    + rewrite Hi. exact Hinv.
    + exists made. split; [exact Hmade |].
      pose proof (throttle_ok_step _ HYPE_THROTTLE made now (throttle st)
                    (Throttle.Timer now) (Z.le_refl _) Hth) as H.
      cbn [calls_of Throttle.time_of Throttle.step] in H. now rewrite app_nil_r in H.
  - destruct (Limiter.step say_throws SAY_WAIT (say st) (Limiter.Timeout now))
      as [say'|] eqn:Hl;
      [| discriminate].
    injection Hstep as <-. cbn [bot throttle say].
    destruct Hok as (Hinv & made & Hmade & Hth).
    destruct (step_invariant _ say_throws SAY_WAIT _ _ _ _ Hinv Hl) as (Hinv' & Hc).
    cbn [Limiter.enqueued Limiter.time_of] in Hinv', Hc. rewrite app_nil_r in Hinv'.
    split; [exact Hinv' |]. exists made. split; [exact Hmade |]. rewrite Hc.
    now apply (throttle_ok_later _ HYPE_THROTTLE made (Limiter.clock (say st))).
Qed.

Lemma initial_wired_ok (start : Z) :
  wired_ok (Bot.hypeCalls (bot (initial start))) (throttle (initial start))
           (say (initial start)).
Proof.
  split; [apply initial_invariant |]. exists []. split; [reflexivity |].
  apply throttle_ok_initial.
Qed.

Lemma run_wired_ok (events : list event) : forall st st',
  run events st = Some st' ->
  wired_ok (Bot.hypeCalls (bot st)) (throttle st) (say st) ->
  wired_ok (Bot.hypeCalls (bot st')) (throttle st') (say st').
Proof.
  induction events as [|e events IH]; intros st st' Hrun Hok; cbn [System.run] in Hrun.
  { now injection Hrun as <-. }
  destruct (step st e) as [st1|] eqn:Hstep; [| discriminate].
  apply (IH st1); [exact Hrun | now apply (step_wired_ok st st1 e)].
Qed.

Lemma map_fst_said (runs : list (Z * (string * string))) :
  map fst (map said runs) = map fst runs.
Proof. induction runs as [|r runs IH]; cbn; [reflexivity | now rewrite IH]. Qed.

(** With the wait of the limiter no longer than the one of the
    throttle and the timers of the limiter firing in time, the call
    that a run of the throttle gives the limiter finds it idle: it is
    made at once. *)
Lemma sendHypeMessageThrottled_direct (st : state) (call : string * string)
    (calls : list (string * string)) :
  SAY_WAIT <= HYPE_THROTTLE ->
  wired_ok calls (throttle st) (say st) ->
  Forall (fun due => Limiter.clock (say st) < due) (Limiter.timers (say st)) ->
  Limiter.calls (say st) = [] ->
  Limiter.executed (say st) = map said (Throttle.invoked (throttle st)) ->
  let st' := sendHypeMessageThrottled HYPE_THROTTLE username (Limiter.clock (say st))
               st call in
  Limiter.calls (say st') = [] /\
  Limiter.executed (say st') = map said (Throttle.invoked (throttle st')).
Proof.
  intros Hw (Hinv & made & Hmade & Hok) Hprompt Hc He st'. subst st'.
  unfold sendHypeMessageThrottled.
  destruct (Throttle.shouldInvoke HYPE_THROTTLE (Limiter.clock (say st)) (throttle st))
    eqn:Hs.
  - destruct (call_dispatched _ HYPE_THROTTLE (throttle st) (Limiter.clock (say st))
                call Hs) as (Hi & _).
    rewrite Hi, since_app. cbn [map snd fold_left].
    destruct call as [channel message]. cbn [sendHypeMessage bot throttle say].
    assert (Hidle : Limiter.isCalled (say st) = false).
    { destruct (Limiter.isCalled (say st)) eqn:Hb; [| reflexivity]. exfalso.
      destruct Hinv as (_ & _ & Hbusy). rewrite Hb in Hbusy.
      destruct Hbusy as [(t & Hlast & Ht) | (_ & run & _ & Hthrow)];
        [| discriminate].
      rewrite Ht in Hprompt. apply Forall_cons in Hprompt as [Hdue _].
      change (Limiter.setTimeout_delay SAY_WAIT) with SAY_WAIT in Hdue.
      unfold Limiter.last_time in Hlast. rewrite He, map_fst_said in Hlast.
      pose proof (throttle_ok_accepts _ HYPE_THROTTLE made _ _ (throttle st)
                    (Z.le_refl _) Hok Hs t Hlast). lia. }
    unfold Limiter.enqueue, Limiter.caller. cbn. rewrite Hc, Hidle. cbn.
    split; [reflexivity |]. rewrite Hi, map_app, He. reflexivity.
  - destruct (call_refused _ HYPE_THROTTLE (throttle st) (Limiter.clock (say st))
                call Hs) as (Hi & _).
    rewrite Hi, since_same. cbn [map fold_left bot throttle say].
    rewrite Hi. auto.
Qed.

Lemma step_direct (st st' : state) (e : event) :
  SAY_WAIT <= HYPE_THROTTLE ->
  step st e = Some st' ->
  wired_ok (Bot.hypeCalls (bot st)) (throttle st) (say st) ->
  (is_message e = true ->
   Forall (fun due => time_of e < due) (Limiter.timers (say st))) ->
  Limiter.calls (say st) = [] ->
  Limiter.executed (say st) = map said (Throttle.invoked (throttle st)) ->
  Limiter.calls (say st') = [] /\
  Limiter.executed (say st') = map said (Throttle.invoked (throttle st')).
Proof.
  intros Hw Hstep Hok Hprompt Hc He. unfold System.step in Hstep.
  destruct (time_of e <? Limiter.clock (say st)) eqn:Hclock; [discriminate |].
  apply Z.ltb_ge in Hclock.
  pose proof (wired_ok_later _ (time_of e) _ _ Hclock Hok) as Hnow.
  destruct e as [now msg | now | now | now]; cbn [time_of is_message] in *.
  - injection Hstep as <-.
    destruct (on_PRIVMSG_hype msg (bot st)) as (new & Hnew & [-> | (call & ->)]);
      rewrite Hnew, since_app; cbn [fold_left]; [auto |].
    apply (sendHypeMessageThrottled_direct
             (mkState (Bot.on_PRIVMSG cfg msg (bot st)) (throttle st)
                      (at_time now (say st)))
             call (Bot.hypeCalls (bot st)) Hw Hnow); cbn; auto.
  - injection Hstep as <-. auto.
  - injection Hstep as <-. cbn [bot throttle say at_time Limiter.calls Limiter.executed].
    destruct (timer_keeps _ HYPE_THROTTLE (throttle st) now) as (Hi & _).
    cbn [Throttle.step] in Hi. rewrite Hi. auto.
  - destruct (Limiter.step say_throws SAY_WAIT (say st) (Limiter.Timeout now))
      as [say'|] eqn:Hl;
      [| discriminate].
    injection Hstep as <-. cbn [bot throttle say].
    unfold Limiter.step in Hl. cbn [Limiter.time_of] in Hl.
    destruct (now <? Limiter.clock (say st)); [discriminate |].
    destruct (Limiter.timers (say st)) as [|due rest]; [discriminate |].
    destruct (due <=? now); [| discriminate]. injection Hl as <-.
    unfold Limiter.timeout_callback, Limiter.caller. cbn. rewrite Hc. cbn. auto.
Qed.

Lemma run_direct (events : list event) : forall st st',
  SAY_WAIT <= HYPE_THROTTLE ->
  run events st = Some st' ->
  prompt cfg HYPE_THROTTLE username events st ->
  wired_ok (Bot.hypeCalls (bot st)) (throttle st) (say st) ->
  Limiter.calls (say st) = [] ->
  Limiter.executed (say st) = map said (Throttle.invoked (throttle st)) ->
  Limiter.calls (say st') = [] /\
  Limiter.executed (say st') = map said (Throttle.invoked (throttle st')).
Proof.
  induction events as [|e events IH]; intros st st' Hw Hrun Hp Hok Hc He;
    cbn [System.run System.prompt] in Hrun, Hp.
  { injection Hrun as <-. auto. }
  destruct Hp as [Hp1 Hp2].
  destruct (step st e) as [st1|] eqn:Hstep; [| discriminate].
  destruct (step_direct st st1 e Hw Hstep Hok Hp1 Hc He) as (Hc1 & He1).
  apply (IH st1); auto. now apply (step_wired_ok st st1 e).
Qed.






End SystemFacts.

Section SystemProperties.
Import System.
Local Open Scope Z_scope.
Local Open Scope list_scope.



(** X24. Whatever chat messages arrive and whenever the timers fire,
    in time order: what [chat.say] has been given, the calls its limiter
    has made followed by those it holds, are the runs of the throttled
    [sendHypeMessage], message and channel, in their order; these runs
    are hype calls that [detectHype] made, in the order it made them,
    and are [HYPE_THROTTLE] apart; and the calls the limiter has made
    are [SAY_WAIT] apart. *)
Theorem hype_reaches_the_chat_throttled_and_in_order (cfg : Bot.Config)
    (HYPE_THROTTLE : Z) (username : string) (start : Z) (events : list event)
    (st : state) :
  run cfg HYPE_THROTTLE username events (initial start) = Some st ->
  map snd (Limiter.executed (say st)) ++ Limiter.calls (say st) =
    map (fun run => (snd (snd run), fst (snd run))) (Throttle.invoked (throttle st)) /\
  map snd (Throttle.invoked (throttle st)) `sublist_of` Bot.hypeCalls (bot st) /\
  Limiter.spaced HYPE_THROTTLE (map fst (Throttle.invoked (throttle st))) /\
  Limiter.spaced SAY_WAIT (map fst (Limiter.executed (say st))).
Proof.
  intros Hrun.
  destruct (run_wired_ok cfg HYPE_THROTTLE username events _ st Hrun
              (initial_wired_ok HYPE_THROTTLE start))
    as ((Hq & Hs & _) & made & Hmade & Hsub & Hsp & _).
  split; [| split; [| split]].
  - rewrite Hq. rewrite map_map. reflexivity.
  - rewrite <- Hmade. exact (fmap_sublist snd _ _ Hsub).
  - exact Hsp.
  - exact Hs.
Qed.

Lemma hype_reaches_the_chat_throttled_and_in_order_witness :
  exists st,
    run Bot.cfg_sqlite 20000 "hypebot"
      [Message 1000 (Bot.mkPRIVMSG "#squishy_life" "ann" "POG" false []);
       Message 2000 (Bot.mkPRIVMSG "#squishy_life" "bob" "POG" false []);
       Message 3000 (Bot.mkPRIVMSG "#squishy_life" "cat" "POG" false []);
       Message 3100 (Bot.mkPRIVMSG "#northernlion" "dan" "LUL" false []);
       Message 3200 (Bot.mkPRIVMSG "#northernlion" "eve" "LUL" false []);
       Message 3300 (Bot.mkPRIVMSG "#northernlion" "fay" "LUL" false []);
       SayTimer 4500] (initial 0) = Some st /\
    map snd (Limiter.executed (say st)) ++ Limiter.calls (say st) =
      [("POG", "squishy_life")] /\
    Bot.hypeCalls (bot st) = [("squishy_life", "POG"); ("northernlion", "LUL")] /\
    map snd (Throttle.invoked (throttle st)) `sublist_of` Bot.hypeCalls (bot st).
Proof.
  set (events :=
      [Message 1000 (Bot.mkPRIVMSG "#squishy_life" "ann" "POG" false []);
       Message 2000 (Bot.mkPRIVMSG "#squishy_life" "bob" "POG" false []);
       Message 3000 (Bot.mkPRIVMSG "#squishy_life" "cat" "POG" false []);
       Message 3100 (Bot.mkPRIVMSG "#northernlion" "dan" "LUL" false []);
       Message 3200 (Bot.mkPRIVMSG "#northernlion" "eve" "LUL" false []);
       Message 3300 (Bot.mkPRIVMSG "#northernlion" "fay" "LUL" false []);
       SayTimer 4500]).
  destruct (run Bot.cfg_sqlite 20000 "hypebot" events (initial 0)) as [st|] eqn:Hrun;
    [| vm_compute in Hrun; discriminate].
  exists st. split; [reflexivity |].
  destruct (hype_reaches_the_chat_throttled_and_in_order Bot.cfg_sqlite 20000 "hypebot" 0
              events st Hrun) as (_ & H & _).
  vm_compute in Hrun. injection Hrun as <-.
  split; [reflexivity |]. split; [reflexivity |]. exact H.
Defined.

(** X25. When the wait of the limiter is no longer than the one of
    the throttle, as it is in the bot, and the timers of the limiter
    fire in time (none that was due is still pending when a chat message
    is handled), the limiter never holds a hype message back: every run
    of [sendHypeMessage] calls [chat.say] into an idle limiter, which
    makes the call at once, at the time of the chat message that raised
    the hype, and the line for the channel of that message is due at
    [chat.send] [MSG_SEND_DELAY] later. *)
Theorem limiter_never_holds_a_hype_message_back (cfg : Bot.Config)
    (HYPE_THROTTLE : Z) (username : string) (start : Z) (events : list event)
    (st : state) :
  SAY_WAIT <= HYPE_THROTTLE ->
  run cfg HYPE_THROTTLE username events (initial start) = Some st ->
  prompt cfg HYPE_THROTTLE username events (initial start) ->
  Limiter.calls (say st) = [] /\
  Limiter.executed (say st) = map said (Throttle.invoked (throttle st)) /\
  sends (say st) =
    map (fun run => (fst run + MSG_SEND_DELAY,
                     ("PRIVMSG #" ++ fst (snd run) ++ " :" ++ snd (snd run))%string))
        (Throttle.invoked (throttle st)).
Proof.
  intros Hw Hrun Hp.
  destruct (run_direct cfg HYPE_THROTTLE username events _ st Hw Hrun Hp
              (initial_wired_ok HYPE_THROTTLE start) eq_refl eq_refl) as (Hc & He).
  split; [exact Hc |]. split; [exact He |].
  unfold sends. rewrite He, map_map. apply map_ext. intros [t [channel message]].
  reflexivity.
Qed.

Lemma limiter_never_holds_a_hype_message_back_witness :
  exists st,
    run Bot.cfg_sqlite 20000 "hypebot"
      [Message 1000 (Bot.mkPRIVMSG "#squishy_life" "ann" "POG" false []);
       Message 2000 (Bot.mkPRIVMSG "#squishy_life" "bob" "POG" false []);
       Message 3000 (Bot.mkPRIVMSG "#squishy_life" "cat" "POG" false []);
       Message 3500 (Bot.mkPRIVMSG "#northernlion" "dan" "LUL" false []);
       SayTimer 4500;
       Message 30000 (Bot.mkPRIVMSG "#northernlion" "eve" "LUL" false []);
       Message 31000 (Bot.mkPRIVMSG "#northernlion" "fay" "LUL" false [])]
      (initial 0) = Some st /\
    Limiter.calls (say st) = [] /\
    sends (say st) =
      [(3150, "PRIVMSG #squishy_life :POG"); (31150, "PRIVMSG #northernlion :LUL")].
Proof.
  set (events :=
      [Message 1000 (Bot.mkPRIVMSG "#squishy_life" "ann" "POG" false []);
       Message 2000 (Bot.mkPRIVMSG "#squishy_life" "bob" "POG" false []);
       Message 3000 (Bot.mkPRIVMSG "#squishy_life" "cat" "POG" false []);
       Message 3500 (Bot.mkPRIVMSG "#northernlion" "dan" "LUL" false []);
       SayTimer 4500;
       Message 30000 (Bot.mkPRIVMSG "#northernlion" "eve" "LUL" false []);
       Message 31000 (Bot.mkPRIVMSG "#northernlion" "fay" "LUL" false [])]).
  destruct (run Bot.cfg_sqlite 20000 "hypebot" events (initial 0)) as [st|] eqn:Hrun;
    [| vm_compute in Hrun; discriminate].
  exists st. split; [reflexivity |].
  destruct (limiter_never_holds_a_hype_message_back Bot.cfg_sqlite 20000 "hypebot" 0
              events st) as (Hc & _ & Hs).
  - unfold SAY_WAIT. lia.
  - exact Hrun.
  - vm_compute. repeat split; intros H; try discriminate H; repeat constructor.
  - split; [exact Hc |]. rewrite Hs.
    vm_compute in Hrun. injection Hrun as <-. vm_compute. reflexivity.
Defined.

End SystemProperties.
